(** * ARC: atomically reference counted pointers (arc.h)

    A shallow embedding of [arc.h] and the properties of its counting
    protocol.

    Conventions of the embedding.
    - The data model is LP64: [size_t] and [uintptr_t] are 64 bits wide,
      [sizeof(arc_header_t)] is 16.  A [size_t] is a [Z] in
      [0, SIZE_MAX]; every arithmetic result stored in one goes through
      [wrap].
    - Pointers are integers ([Z]), [NULL] is 0.  The heap maps the base
      address of every live allocation to its header; a header access
      through an address that is not a live allocation is undefined
      behaviour ([Undefined]).
    - Atomic operations are executed one at a time (interleaving
      semantics); memory orders and fences do not change the values read
      and written and are kept only as names.
    - What other threads do between the moment a compare-and-swap loop
      takes its snapshot and the moment it executes its compare-and-swap
      is given by a schedule: one [attempt] per iteration, saying what the
      other threads stored into the counter in the meantime and whether the
      weak compare-and-swap fails spuriously.
    - [malloc] is an oracle: its answer is an argument of [arc_new].
    - The calls to [malloc], [free] and the destructor, and the
      compare-and-swaps, are recorded in a ghost trace. *)

From Stdlib Require Import ZArith Lia List Bool.
From stdpp Require Import base option list gmap.
Import ListNotations.

Local Open Scope Z_scope.

(** ** Machine integers *)

Definition size_bits : Z := 64.
Definition SIZE_MAX : Z := 2 ^ size_bits - 1.

(** Reduction of an arithmetic result to [size_t]. *)
Definition wrap (z : Z) : Z := z mod 2 ^ size_bits.

Definition in_size_t (z : Z) : Prop := 0 <= z <= SIZE_MAX.

Definition NULL : Z := 0.

(** [errno] values (Linux numbering). *)
Definition ENOENT : Z := 2.
Definition ETOOMANYREFS : Z := 109.

(** ** The header *)

Record arc_header_t : Type := mk_header {
  weak_count : Z;
  strong_count : Z
}.

(** The two atomic fields of a header, as the code addresses them
    ([&header->weak_count], [&header->strong_count]). *)
Inductive field : Type := weak_count_f | strong_count_f.

Definition get_field (f : field) (h : arc_header_t) : Z :=
  match f with
  | weak_count_f => weak_count h
  | strong_count_f => strong_count h
  end.

Definition set_field (f : field) (v : Z) (h : arc_header_t) : arc_header_t :=
  match f with
  | weak_count_f => mk_header v (strong_count h)
  | strong_count_f => mk_header (weak_count h) v
  end.

Definition wf_header (h : arc_header_t) : Prop :=
  in_size_t (weak_count h) /\ in_size_t (strong_count h).

Definition sizeof_uintptr_t : Z := 8.
Definition sizeof_arc_header_t : Z := 16.

Definition __ARC_ALIGN_BITS : Z := sizeof_uintptr_t - 1.
Definition __ARC_HEADER_SIZE_WITH_PAD : Z :=
  Z.land (sizeof_arc_header_t + __ARC_ALIGN_BITS)
         (wrap (Z.lnot __ARC_ALIGN_BITS)).

Definition __ARC_WEAK_MAX_REFS : Z := Z.shiftr SIZE_MAX 1.

(** [get_header] (l. 96-100): pointer subtraction, total. *)
Definition get_header (data : Z) : Z := data - __ARC_HEADER_SIZE_WITH_PAD.

(** ** Program state *)

Inductive event : Type :=
| EvMalloc (size ret : Z)
| EvFree (ptr : Z)
| EvDestructor (fn arg : Z)
| EvCas (hdr : Z) (f : field) (expected actual : Z) (ok : bool).

Record state : Type := mk_state {
  heap : gmap Z arc_header_t;
  errno : Z;
  trace : list event
}.

Definition set_heap (m : gmap Z arc_header_t) (s : state) : state :=
  mk_state m (errno s) (trace s).

Definition set_errno (e : Z) (s : state) : state :=
  mk_state (heap s) e (trace s).

Definition log (e : event) (s : state) : state :=
  mk_state (heap s) (errno s) (trace s ++ [e]).

(** The header a handle designates, when its allocation is live. *)
Definition header_of (data : Z) (s : state) : option arc_header_t :=
  heap s !! get_header data.

(** ** Computations *)

Inductive outcome (A : Type) : Type :=
| Ret (a : A) (s : state)
| Undefined
| Spinning.

Arguments Ret {A} a s.
Arguments Undefined {A}.
Arguments Spinning {A}.

Definition M (A : Type) : Type := state -> outcome A.

Definition ret {A} (a : A) : M A := fun s => Ret a s.

Definition bind {A B} (m : M A) (k : A -> M B) : M B :=
  fun s => match m s with
           | Ret a s' => k a s'
           | Undefined => Undefined
           | Spinning => Spinning
           end.

Notation "x <~ m ;; k" := (bind m (fun x => k))
  (at level 100, m at next level, right associativity).
Notation "m ;;; k" := (bind m (fun _ => k))
  (at level 100, right associativity).

Definition modify (f : state -> state) : M unit := fun s => Ret tt (f s).

(** ** Atomic primitives on a header field *)

Definition atomic_load_explicit (hdr : Z) (f : field) : M Z :=
  fun s => match heap s !! hdr with
           | Some h => Ret (get_field f h) s
           | None => Undefined
           end.

Definition atomic_store (hdr : Z) (f : field) (v : Z) : M unit :=
  fun s => match heap s !! hdr with
           | Some h => Ret tt (set_heap (<[hdr := set_field f v h]> (heap s)) s)
           | None => Undefined
           end.

Definition atomic_fetch_add_explicit (hdr : Z) (f : field) (v : Z) : M Z :=
  prev <~ atomic_load_explicit hdr f ;;
  atomic_store hdr f (wrap (prev + v)) ;;;
  ret prev.

Definition atomic_fetch_sub_explicit (hdr : Z) (f : field) (v : Z) : M Z :=
  prev <~ atomic_load_explicit hdr f ;;
  atomic_store hdr f (wrap (prev - v)) ;;;
  ret prev.

(** The weak compare-and-swap: it returns whether it stored [desired] and
    the new value of the caller's [expected] variable.  It may fail although
    the comparison holds ([spurious]). *)
Definition atomic_compare_exchange_weak_explicit
    (hdr : Z) (f : field) (expected desired : Z) (spurious : bool)
    : M (bool * Z) :=
  actual <~ atomic_load_explicit hdr f ;;
  if (actual =? expected) && negb spurious then
    atomic_store hdr f desired ;;;
    modify (log (EvCas hdr f expected actual true)) ;;;
    ret (true, expected)
  else
    modify (log (EvCas hdr f expected actual false)) ;;;
    ret (false, actual).

Definition atomic_thread_fence : M unit := ret tt.

(** ** The environment of a compare-and-swap loop *)

Record attempt : Type := mk_attempt {
  env_store : option Z;
  spurious : bool
}.

(** An iteration nobody disturbs. *)
Definition quiet : attempt := mk_attempt None false.

Definition interfere (hdr : Z) (f : field) (a : attempt) : M unit :=
  match env_store a with
  | Some v => atomic_store hdr f (wrap v)
  | None => ret tt
  end.

(** ** Allocator and destructor *)

(** What [malloc] answers: the address (or [NULL]) and the indeterminate
    contents of the block. *)
Record malloc_answer : Type := mk_answer {
  m_ret : Z;
  m_junk : arc_header_t
}.

Definition malloc (size : Z) (ans : malloc_answer) : M Z :=
  fun s =>
    let s1 := log (EvMalloc size (m_ret ans)) s in
    if m_ret ans =? NULL then Ret NULL s1
    else Ret (m_ret ans) (set_heap (<[m_ret ans := m_junk ans]> (heap s1)) s1).

Definition atomic_init (hdr : Z) (f : field) (v : Z) : M unit :=
  atomic_store hdr f v.

Definition free (ptr : Z) : M unit :=
  fun s => match heap s !! ptr with
           | Some _ => Ret tt (log (EvFree ptr) (set_heap (delete ptr (heap s)) s))
           | None => Undefined
           end.

Definition call_destructor (fn arg : Z) : M unit :=
  modify (log (EvDestructor fn arg)).

(** ** The public interface *)

(** [arc_new] (arc.h, l. 104-116).  The size handed to [malloc] is a
    [size_t] sum. *)
Definition arc_new (nbytes : Z) (ans : malloc_answer) : M Z :=
  if nbytes =? 0 then ret NULL
  else
    data <~ malloc (wrap (__ARC_HEADER_SIZE_WITH_PAD + nbytes)) ans ;;
    if data =? NULL then ret NULL
    else
      let header := data in
      atomic_init header strong_count_f 1 ;;;
      atomic_init header weak_count_f 1 ;;;
      ret (data + __ARC_HEADER_SIZE_WITH_PAD).

(** [weak_free] (l. 181-197): the only caller of [free]. *)
Definition weak_free (weak_data : Z) : M unit :=
  let header := get_header weak_data in
  prev <~ atomic_fetch_sub_explicit header weak_count_f 1 ;;
  if prev =? 1 then
    atomic_thread_fence ;;;
    free header
  else ret tt.

(** [arc_free] (l. 118-144).  The destructor is a function pointer, [NULL]
    when there is none. *)
Definition arc_free (arc_data : Z) (destructor : Z) : M unit :=
  let header := get_header arc_data in
  prev <~ atomic_fetch_sub_explicit header strong_count_f 1 ;;
  if prev =? 1 then
    atomic_thread_fence ;;;
    (if negb (destructor =? NULL) then call_destructor destructor arc_data
     else ret tt) ;;;
    let weak_data := arc_data in
    weak_free weak_data
  else ret tt.

(** [arc_clone] (l. 148-156). *)
Definition arc_clone (arc_data : Z) : M Z :=
  let header := get_header arc_data in
  prev <~ atomic_fetch_add_explicit header strong_count_f 1 ;;
  if prev >? __ARC_WEAK_MAX_REFS - 1 then
    modify (set_errno ETOOMANYREFS) ;;;
    ret NULL
  else ret arc_data.

(** [arc_downgrade] (l. 158-179).  The body of [for (;;)] is one iteration
    of [arc_downgrade_loop]; the loop is still running ([Spinning]) when the
    schedule is used up. *)
Fixpoint arc_downgrade_loop (header arc_data snapshot : Z)
    (sched : list attempt) : M Z :=
  match sched with
  | [] => fun _ => Spinning
  | a :: sched' =>
      interfere header weak_count_f a ;;;
      r <~ atomic_compare_exchange_weak_explicit
             header weak_count_f snapshot (wrap (snapshot + 1)) (spurious a) ;;
      if fst r then
        let weak_data := arc_data in
        ret weak_data
      else arc_downgrade_loop header arc_data (snd r) sched'
  end.

Definition arc_downgrade (arc_data : Z) (sched : list attempt) : M Z :=
  let header := get_header arc_data in
  snapshot <~ atomic_load_explicit header weak_count_f ;;
  arc_downgrade_loop header arc_data snapshot sched.

(** [weak_clone] (l. 199-207). *)
Definition weak_clone (weak_data : Z) : M Z :=
  let header := get_header weak_data in
  prev <~ atomic_fetch_add_explicit header weak_count_f 1 ;;
  if prev >? __ARC_WEAK_MAX_REFS - 1 then
    modify (set_errno ETOOMANYREFS) ;;;
    ret NULL
  else ret weak_data.

(** [weak_upgrade] (l. 209-241).  The two tests on the snapshot come first
    in every iteration, then the compare-and-swap. *)
Fixpoint weak_upgrade_loop (header weak_data snapshot : Z)
    (sched : list attempt) : M Z :=
  if snapshot =? 0 then
    modify (set_errno ENOENT) ;;;
    ret NULL
  else if snapshot >? __ARC_WEAK_MAX_REFS - 1 then
    modify (set_errno ETOOMANYREFS) ;;;
    ret NULL
  else
    match sched with
    | [] => fun _ => Spinning
    | a :: sched' =>
        interfere header strong_count_f a ;;;
        r <~ atomic_compare_exchange_weak_explicit
               header strong_count_f snapshot (wrap (snapshot + 1))
               (spurious a) ;;
        if fst r then
          let arc_data := weak_data in
          ret arc_data
        else weak_upgrade_loop header weak_data (snd r) sched'
    end.

Definition weak_upgrade (weak_data : Z) (sched : list attempt) : M Z :=
  let header := get_header weak_data in
  snapshot <~ atomic_load_explicit header strong_count_f ;;
  weak_upgrade_loop header weak_data snapshot sched.

(** ** Sequences of operations *)

Inductive op : Type :=
| ArcNew (nbytes : Z) (ans : malloc_answer)
| ArcClone (arc_data : Z)
| ArcFree (arc_data destructor : Z)
| ArcDowngrade (arc_data : Z) (sched : list attempt)
| WeakFree (weak_data : Z)
| WeakClone (weak_data : Z)
| WeakUpgrade (weak_data : Z) (sched : list attempt).

(** An operation and the pointer it returns ([NULL] for the two [void]
    functions). *)
Definition exec (o : op) : M Z :=
  match o with
  | ArcNew nbytes ans => arc_new nbytes ans
  | ArcClone p => arc_clone p
  | ArcFree p d => arc_free p d ;;; ret NULL
  | ArcDowngrade p sched => arc_downgrade p sched
  | WeakFree p => weak_free p ;;; ret NULL
  | WeakClone p => weak_clone p
  | WeakUpgrade p sched => weak_upgrade p sched
  end.

Fixpoint run (ops : list op) : M unit :=
  match ops with
  | [] => ret tt
  | o :: ops' => exec o ;;; run ops'
  end.

(** ** Ghost observations on traces and states *)

Definition is_free_of (base : Z) (e : event) : bool :=
  match e with
  | EvFree ptr => ptr =? base
  | _ => false
  end.

Definition is_destructor (e : event) : bool :=
  match e with
  | EvDestructor _ _ => true
  | _ => false
  end.

Definition is_cas_success (e : event) : bool :=
  match e with
  | EvCas _ _ _ _ ok => ok
  | _ => false
  end.

Definition is_failed_cas (e : event) : bool :=
  match e with
  | EvCas _ _ _ _ ok => negb ok
  | _ => false
  end.

(** Number of times [base] was handed back to the allocator. *)
Definition frees (base : Z) (t : list event) : nat :=
  length (List.filter (is_free_of base) t).

Definition destructor_calls (t : list event) : nat :=
  length (List.filter is_destructor t).

(** The heap after the stores of the other threads alone. *)
Definition store_env (hdr : Z) (f : field) (m : gmap Z arc_header_t)
    (a : attempt) : gmap Z arc_header_t :=
  match env_store a, m !! hdr with
  | Some v, Some h => <[hdr := set_field f (wrap v) h]> m
  | _, _ => m
  end.

Definition env_heap (hdr : Z) (f : field) (sched : list attempt)
    (m : gmap Z arc_header_t) : gmap Z arc_header_t :=
  fold_left (store_env hdr f) sched m.

(** Invariant A of the header: the strong handles hold one weak claim. *)
Definition invariant_A (h : arc_header_t) : Prop :=
  0 < strong_count h -> 1 <= weak_count h.

Definition heap_invariant_A (s : state) : Prop :=
  forall base h, heap s !! base = Some h -> invariant_A h.

(** The state right after a successful [arc_new]: one allocation, created
    at [base]. *)
Definition created (base : Z) : state :=
  mk_state {[ base := mk_header 1 1 ]} 0 [].

(** The state in which [arc_free] calls [weak_free] when it drops the last
    strong handle of header [h]: the strong counter is 0 and the destructor,
    if any, has run. *)
Definition after_last_strong (p : Z) (s : state) (h : arc_header_t) (d : Z)
    : state :=
  let s1 := set_heap (<[get_header p := mk_header (weak_count h) 0]> (heap s)) s in
  if d =? NULL then s1 else log (EvDestructor d p) s1.

(** The header after the store of the other threads in one iteration. *)
Definition env_header (f : field) (a : attempt) (h : arc_header_t)
    : arc_header_t :=
  match env_store a with
  | Some v => set_field f (wrap v) h
  | None => h
  end.

(** A schedule in which the other threads store nothing (the weak
    compare-and-swap may still fail spuriously). *)
Definition no_stores (sched : list attempt) : bool :=
  forallb (fun a => match env_store a with Some _ => false | None => true end)
          sched.

(** Which operations involve stores of other threads, increment a weak
    counter, or obtain the block [base] from the allocator. *)
Definition op_no_stores (o : op) : bool :=
  match o with
  | ArcDowngrade _ sched | WeakUpgrade _ sched => no_stores sched
  | _ => true
  end.

Definition weak_increment (o : op) : Z :=
  match o with
  | ArcDowngrade _ _ | WeakClone _ => 1
  | _ => 0
  end.

Fixpoint weak_increments (ops : list op) : Z :=
  match ops with
  | [] => 0
  | o :: ops' => weak_increment o + weak_increments ops'
  end.

Definition allocates (base : Z) (o : op) : bool :=
  match o with
  | ArcNew _ ans => m_ret ans =? base
  | _ => false
  end.

(** Every live header has a weak counter in [1, 1 + k]. *)
Definition weak_bounded (k : Z) (s : state) : Prop :=
  forall base h, heap s !! base = Some h -> 1 <= weak_count h <= 1 + k.

(** How one operation may change the weak counter of the header it works
    on: not at all, by a decrement, or (downgrade, weak clone) by an
    increment. *)
Definition weak_change (o : op) (h h' : arc_header_t) : Prop :=
  weak_count h' = weak_count h \/
  (weak_count h <> 1 /\ weak_count h' = wrap (weak_count h - 1)) \/
  (weak_increment o = 1 /\
   (op_no_stores o = true -> weak_count h' = wrap (weak_count h + 1))).

(** What one operation does to the heap and to the number of
    deallocations: nothing, a new allocation, an update of the header of its
    handle, or the deallocation of the block of its handle. *)
Inductive effect (o : op) (s s' : state) : Prop :=
| eff_none :
    heap s' = heap s ->
    (forall b, frees b (trace s') = frees b (trace s)) ->
    effect o s s'
| eff_alloc n ans :
    o = ArcNew n ans ->
    heap s' = <[m_ret ans := mk_header 1 1]> (heap s) ->
    (forall b, frees b (trace s') = frees b (trace s)) ->
    effect o s s'
| eff_update p h h' :
    header_of p s = Some h ->
    heap s' = <[get_header p := h']> (heap s) ->
    (forall b, frees b (trace s') = frees b (trace s)) ->
    weak_change o h h' ->
    effect o s s'
| eff_free p h :
    header_of p s = Some h ->
    weak_count h = 1 ->
    heap s' = delete (get_header p) (heap s) ->
    (forall b, frees b (trace s') =
               (frees b (trace s) + (if (get_header p =? b)%Z then 1 else 0))%nat) ->
    (o = WeakFree p \/
     exists d, o = ArcFree p d /\ strong_count h = 1 /\
               arc_free p d s = weak_free p (after_last_strong p s h d)) ->
    effect o s s'.

(** The two states of the block [base] in a run that does not allocate it
    again: live and never freed, or dead and freed once. *)
Definition alloc_state (base : Z) (s : state) : Prop :=
  (is_Some (heap s !! base) /\ frees base (trace s) = 0%nat) \/
  (heap s !! base = None /\ frees base (trace s) = 1%nat).

(** Sequences of clones and frees of strong handles of one allocation. *)
Inductive strong_op : Type :=
| SClone
| SFree (destructor : Z).

Definition is_clone (o : strong_op) : bool :=
  match o with SClone => true | SFree _ => false end.

Definition clones (ops : list strong_op) : Z :=
  Z.of_nat (length (List.filter is_clone ops)).

Definition strong_frees (ops : list strong_op) : Z :=
  Z.of_nat (length (List.filter (fun o => negb (is_clone o)) ops)).

(** [clone_free_run p s ops s']: the operations [ops], applied in turn to
    the handle [p] from state [s], lead to [s'], every [arc_clone] being
    successful (it returns the handle) and every [arc_free] non-final (the
    counter it decrements is not 1). *)
Inductive clone_free_run (p : Z) : state -> list strong_op -> state -> Prop :=
| cfr_nil s :
    clone_free_run p s [] s
| cfr_clone s s1 s2 ops :
    arc_clone p s = Ret p s1 ->
    clone_free_run p s1 ops s2 ->
    clone_free_run p s (SClone :: ops) s2
| cfr_free s h d s1 s2 ops :
    header_of p s = Some h ->
    strong_count h <> 1 ->
    arc_free p d s = Ret tt s1 ->
    clone_free_run p s1 ops s2 ->
    clone_free_run p s (SFree d :: ops) s2.

(** ** Layout arithmetic *)

(** The initialiser of [__ARC_HEADER_SIZE_WITH_PAD] (l. 92-94) for a header
    of [size] bytes on a platform whose [uintptr_t] has [align] bytes:
    [(size + (align - 1)) & ~(align - 1)], computed in [size_t]. *)
Definition header_size_with_pad (align size : Z) : Z :=
  Z.land (wrap (size + (align - 1))) (wrap (Z.lnot (align - 1))).

(** ** What an operation works on *)

(** The block an operation works on: the one [malloc] hands out for
    [arc_new], the one found by [get_header] for the others. *)
Definition block_of (o : op) : Z :=
  match o with
  | ArcNew _ ans => m_ret ans
  | ArcClone p | ArcFree p _ | ArcDowngrade p _
  | WeakFree p | WeakClone p | WeakUpgrade p _ => get_header p
  end.

(** ** Handle discipline *)

(** The pointers every operation of a run returned, in order. *)
Fixpoint run_results (ops : list op) : M (list Z) :=
  match ops with
  | [] => ret []
  | o :: ops' =>
      r <~ exec o ;;
      rs <~ run_results ops' ;;
      ret (r :: rs)
  end.

(** Ghost count of the handles of one allocation that are in use: strong
    handles and explicit weak handles. *)
Record handles : Type := mk_handles {
  strong_handles : Z;
  weak_handles : Z
}.

(** The weak counter that goes with a count of handles: the weak handles,
    plus the claim the strong handles hold together. *)
Definition weak_of (g : handles) : Z :=
  weak_handles g + (if 1 <=? strong_handles g then 1 else 0).

Definition released (g : handles) : bool :=
  (strong_handles g =? 0) && (weak_handles g =? 0).

(** The header of [p] is the one the count of handles [g] calls for; there
    is none when every handle has been released. *)
Definition represents (p : Z) (g : handles) (s : state) : Prop :=
  0 <= strong_handles g <= __ARC_WEAK_MAX_REFS /\
  0 <= weak_handles g /\
  weak_of g <= SIZE_MAX /\
  header_of p s =
    if released g then None
    else Some (mk_header (weak_of g) (strong_handles g)).

(** A schedule in which the other threads store nothing and at least one
    compare-and-swap does not fail spuriously. *)
Definition calm (sched : list attempt) : bool :=
  no_stores sched && existsb (fun a => negb (spurious a)) sched.

(** One operation of a client that respects the handles of [p]: it passes
    a handle that is in use (a strong one to [arc_clone], [arc_free] and
    [arc_downgrade], a weak one to the others), and the counters are below
    their limits.  The result is the new count of handles, the pointer the
    operation is to return and whether it is to run a destructor. *)
Definition track (p : Z) (o : op) (g : handles)
    : option (handles * Z * bool) :=
  let ns := strong_handles g in
  let nw := weak_handles g in
  match o with
  | ArcNew _ _ => None
  | ArcClone q =>
      if (q =? p) && (1 <=? ns) && (ns <? __ARC_WEAK_MAX_REFS)
      then Some (mk_handles (ns + 1) nw, p, false) else None
  | ArcFree q d =>
      if (q =? p) && (1 <=? ns)
      then Some (mk_handles (ns - 1) nw, NULL, (ns =? 1) && negb (d =? NULL))
      else None
  | ArcDowngrade q sched =>
      if (q =? p) && (1 <=? ns) && calm sched && (weak_of g <? SIZE_MAX)
      then Some (mk_handles ns (nw + 1), p, false) else None
  | WeakFree q =>
      if (q =? p) && (1 <=? nw)
      then Some (mk_handles ns (nw - 1), NULL, false) else None
  | WeakClone q =>
      if (q =? p) && (1 <=? nw) && (weak_of g <? __ARC_WEAK_MAX_REFS)
      then Some (mk_handles ns (nw + 1), p, false) else None
  | WeakUpgrade q sched =>
      if (q =? p) && (1 <=? nw) && calm sched && (ns <? __ARC_WEAK_MAX_REFS)
      then Some (if 1 <=? ns then (mk_handles (ns + 1) nw, p, false)
                 else (g, NULL, false))
      else None
  end.

(** A whole run of such a client: the final count of handles, the pointers
    returned and the number of destructor calls. *)
Fixpoint track_all (p : Z) (ops : list op) (g : handles)
    : option (handles * list Z * nat) :=
  match ops with
  | [] => Some (g, [], 0%nat)
  | o :: ops' =>
      match track p o g with
      | None => None
      | Some (g1, r, d) =>
          match track_all p ops' g1 with
          | None => None
          | Some (g', rs, n) =>
              Some (g', r :: rs, ((if d then 1 else 0) + n)%nat)
          end
      end
  end.

(** The operations that return a handle. *)
Definition returns_handle (o : op) : bool :=
  match o with
  | ArcClone _ | ArcDowngrade _ _ | WeakClone _ | WeakUpgrade _ _ => true
  | _ => false
  end.

(** ** The stress test (test file of the repository) *)

Definition THE_UNIVERSE_AND_EVERYTHING : Z := 42.

Record test_data_t : Type := mk_test_data {
  shared_arc : Z;
  shared_weak : Z
}.

(** [ALWAYS_ASSERT(expr)] (l. 16-17): when [expr] is false the process
    prints a message and exits; a thread function returns [false] then and
    [true] when it runs to its end. *)
Definition ALWAYS_ASSERT (expr : bool) (k : M bool) : M bool :=
  if expr then k else ret false.

(** [*ptr]: the functions of [arc.h] never write the payload, whose
    contents are the function [payload]; reading it through a handle is
    defined while the allocation is live. *)
Definition deref (payload : Z -> Z) (ptr : Z) : M Z :=
  fun s => match header_of ptr s with
           | Some _ => Ret (payload ptr) s
           | None => Undefined
           end.

(** The body of the loop of [arc_operations] (l. 34-49).  [sched] is the
    schedule of the two compare-and-swap loops. *)
Definition arc_operations_iteration (payload : Z -> Z) (data : test_data_t)
    (sched : list attempt) : M bool :=
  clone <~ arc_clone (shared_arc data) ;;
  ALWAYS_ASSERT (negb (clone =? NULL)) (
  v <~ deref payload clone ;;
  ALWAYS_ASSERT (v =? THE_UNIVERSE_AND_EVERYTHING) (
  arc_free clone NULL ;;;
  weak <~ arc_downgrade (shared_arc data) sched ;;
  ALWAYS_ASSERT (negb (weak =? NULL)) (
  upgraded <~ weak_upgrade weak sched ;;
  ALWAYS_ASSERT (negb (upgraded =? NULL)) (
  v' <~ deref payload upgraded ;;
  ALWAYS_ASSERT (v' =? THE_UNIVERSE_AND_EVERYTHING) (
  arc_free upgraded NULL ;;;
  weak_free weak ;;;
  ret true))))).

(** [arc_operations] (l. 31-52), for [n] iterations. *)
Fixpoint arc_operations (payload : Z -> Z) (data : test_data_t)
    (sched : list attempt) (n : nat) : M bool :=
  match n with
  | O => ret true
  | S n' =>
      ok <~ arc_operations_iteration payload data sched ;;
      if ok then arc_operations payload data sched n' else ret false
  end.

(** The body of the loop of [weak_operations] (l. 57-66). *)
Definition weak_operations_iteration (payload : Z -> Z) (data : test_data_t)
    (sched : list attempt) : M bool :=
  clone <~ weak_clone (shared_weak data) ;;
  ALWAYS_ASSERT (negb (clone =? NULL)) (
  weak_free clone ;;;
  upgraded <~ weak_upgrade (shared_weak data) sched ;;
  ALWAYS_ASSERT (negb (upgraded =? NULL)) (
  v <~ deref payload upgraded ;;
  ALWAYS_ASSERT (v =? THE_UNIVERSE_AND_EVERYTHING) (
  arc_free upgraded NULL ;;;
  ret true))).

(** [weak_operations] (l. 54-69), for [n] iterations. *)
Fixpoint weak_operations (payload : Z -> Z) (data : test_data_t)
    (sched : list attempt) (n : nat) : M bool :=
  match n with
  | O => ret true
  | S n' =>
      ok <~ weak_operations_iteration payload data sched ;;
      if ok then weak_operations payload data sched n' else ret false
  end.

(** The calls of the interface the two thread functions make in one
    iteration, every handle they obtain being the one they passed. *)
Definition arc_operations_calls (p : Z) (sched : list attempt) : list op :=
  [ArcClone p; ArcFree p NULL; ArcDowngrade p sched; WeakUpgrade p sched;
   ArcFree p NULL; WeakFree p].

Definition weak_operations_calls (p : Z) (sched : list attempt) : list op :=
  [WeakClone p; WeakFree p; WeakUpgrade p sched; ArcFree p NULL].

(** ** Threads *)

(** [balanced p a b prog]: the calls [prog] of a thread that holds [a]
    strong and [b] weak handles of its own (besides the shared ones it may
    clone, downgrade and upgrade): it frees only handles of its own and
    holds none at its end. *)
Fixpoint balanced (p : Z) (a b : Z) (prog : list op) : Prop :=
  0 <= a /\ 0 <= b /\
  match prog with
  | [] => a = 0 /\ b = 0
  | ArcNew _ _ :: _ => False
  | ArcClone q :: prog' => q = p /\ balanced p (a + 1) b prog'
  | ArcFree q _ :: prog' => q = p /\ 1 <= a /\ balanced p (a - 1) b prog'
  | ArcDowngrade q sched :: prog' =>
      q = p /\ calm sched = true /\ balanced p a (b + 1) prog'
  | WeakFree q :: prog' => q = p /\ 1 <= b /\ balanced p a (b - 1) prog'
  | WeakClone q :: prog' => q = p /\ balanced p a (b + 1) prog'
  | WeakUpgrade q sched :: prog' =>
      q = p /\ calm sched = true /\ balanced p (a + 1) b prog'
  end.

(** [interleaves progs merged]: [merged] is one way of executing the
    programs [progs] of the threads, call by call. *)
Inductive interleaves : list (list op) -> list op -> Prop :=
| il_done progs :
    Forall (fun prog => prog = []) progs ->
    interleaves progs []
| il_step pre o rest post merged :
    interleaves (pre ++ rest :: post) merged ->
    interleaves (pre ++ (o :: rest) :: post) (o :: merged).

Definition sum_strong (holds : list (Z * Z)) : Z :=
  fold_right (fun x acc => fst x + acc) 0 holds.

Definition sum_weak (holds : list (Z * Z)) : Z :=
  fold_right (fun x acc => snd x + acc) 0 holds.

(** [validate_reference_counts] (test file, l. 24-29), on the address of a
    header. *)
Definition validate_reference_counts (data : Z)
    (expected_strong expected_weak : Z) : M bool :=
  strong <~ atomic_load_explicit data strong_count_f ;;
  weak <~ atomic_load_explicit data weak_count_f ;;
  ALWAYS_ASSERT (strong =? expected_strong) (
  ALWAYS_ASSERT (weak =? expected_weak) (
  ret true)).

Definition sizeof_int : Z := 4.

(** The calls of a thread of the test: some number of iterations of one of
    the two thread functions. *)
Definition test_thread (p : Z) (sched : list attempt) (prog : list op)
    : Prop :=
  exists n : nat,
    prog = concat (repeat (arc_operations_calls p sched) n) \/
    prog = concat (repeat (weak_operations_calls p sched) n).

(** * Properties *)

Ltac in_range := repeat split; vm_compute; discriminate.

(** ** Arithmetic of [size_t] *)

Lemma size_max_value : SIZE_MAX = 18446744073709551615.
Proof. reflexivity. Qed.

Lemma max_refs_value : __ARC_WEAK_MAX_REFS = SIZE_MAX / 2.
Proof. reflexivity. Qed.

Lemma header_pad_value : __ARC_HEADER_SIZE_WITH_PAD = 16.
Proof. reflexivity. Qed.

Lemma wrap_small z : in_size_t z -> wrap z = z.
Proof.
  unfold in_size_t, wrap. rewrite size_max_value. intros Hz.
  apply Z.mod_small. change (2 ^ size_bits) with 18446744073709551616. lia.
Qed.

Lemma wrap_in_size_t z : in_size_t (wrap z).
Proof.
  unfold in_size_t, wrap. rewrite size_max_value.
  change (2 ^ size_bits) with 18446744073709551616.
  pose proof (Z.mod_pos_bound z 18446744073709551616). lia.
Qed.

Lemma wrap_succ_max : wrap (SIZE_MAX + 1) = 0.
Proof. reflexivity. Qed.

Lemma wrap_succ z : in_size_t z -> z < SIZE_MAX -> wrap (z + 1) = z + 1.
Proof. intros [? ?] ?. apply wrap_small. unfold in_size_t. lia. Qed.

Lemma wrap_pred z : in_size_t z -> 0 < z -> wrap (z - 1) = z - 1.
Proof. intros [? ?] ?. apply wrap_small. unfold in_size_t. lia. Qed.

Lemma get_header_payload base :
  get_header (base + __ARC_HEADER_SIZE_WITH_PAD) = base.
Proof. unfold get_header. lia. Qed.

(** ** Equations of the atomic primitives on a live header *)

Section LiveHeader.
Variables (hdr : Z) (s : state) (h : arc_header_t).
Hypothesis Hlive : heap s !! hdr = Some h.

Lemma load_live f : atomic_load_explicit hdr f s = Ret (get_field f h) s.
Proof. unfold atomic_load_explicit. now rewrite Hlive. Qed.

Lemma store_live f v :
  atomic_store hdr f v s =
  Ret tt (set_heap (<[hdr := set_field f v h]> (heap s)) s).
Proof. unfold atomic_store. now rewrite Hlive. Qed.

Lemma fetch_add_live f v :
  atomic_fetch_add_explicit hdr f v s =
  Ret (get_field f h)
      (set_heap (<[hdr := set_field f (wrap (get_field f h + v)) h]> (heap s)) s).
Proof.
  unfold atomic_fetch_add_explicit, bind. rewrite load_live, store_live.
  reflexivity.
Qed.

Lemma fetch_sub_live f v :
  atomic_fetch_sub_explicit hdr f v s =
  Ret (get_field f h)
      (set_heap (<[hdr := set_field f (wrap (get_field f h - v)) h]> (heap s)) s).
Proof.
  unfold atomic_fetch_sub_explicit, bind. rewrite load_live, store_live.
  reflexivity.
Qed.

Lemma cas_live_success f expected desired :
  get_field f h = expected ->
  atomic_compare_exchange_weak_explicit hdr f expected desired false s =
  Ret (true, expected)
      (log (EvCas hdr f expected expected true)
           (set_heap (<[hdr := set_field f desired h]> (heap s)) s)).
Proof.
  intros He. unfold atomic_compare_exchange_weak_explicit, bind.
  rewrite load_live, He, Z.eqb_refl. simpl.
  rewrite store_live. reflexivity.
Qed.

Lemma cas_live_failure f expected desired sp :
  (get_field f h =? expected) && negb sp = false ->
  atomic_compare_exchange_weak_explicit hdr f expected desired sp s =
  Ret (false, get_field f h)
      (log (EvCas hdr f expected (get_field f h) false) s).
Proof.
  intros He. unfold atomic_compare_exchange_weak_explicit, bind.
  rewrite load_live, He. reflexivity.
Qed.
End LiveHeader.

Lemma load_dead hdr f s :
  heap s !! hdr = None -> atomic_load_explicit hdr f s = Undefined.
Proof. intros H. unfold atomic_load_explicit. now rewrite H. Qed.

(** ** Creation *)

Lemma snoc_neq {A} (t : list A) (e : A) : t ++ [e] <> t.
Proof.
  intros H. apply (f_equal (@length A)) in H.
  rewrite length_app in H. cbn in H. lia.
Qed.

(** C7.  A request for a payload of 0 bytes fails: [arc_new] returns [NULL]
    (this is how the code signals the invalid size; [errno] is not set) and
    the state is untouched, in particular [malloc] is not called and no
    allocation appears in the heap.  0 is the only size treated so: for
    every other size [malloc] is called. *)
Theorem arc_new_zero_size ans s :
  arc_new 0 ans s = Ret NULL s /\
  (forall n r s', arc_new n ans s = Ret r s' -> (trace s' = trace s <-> n = 0)).
Proof.
  split; [reflexivity |].
  intros n r s' H. unfold arc_new in H. destruct (Z.eqb_spec n 0) as [Hn|Hn].
  - inversion H; subst. tauto.
  - split; [| tauto]. intros Ht. exfalso.
    unfold bind, malloc in H. cbv zeta in H.
    destruct (m_ret ans =? NULL) eqn:Hr.
    + cbn in H. inversion H; subst s'. cbn [trace log] in Ht.
      now apply snoc_neq in Ht.
    + rewrite Hr in H. unfold atomic_init, atomic_store in H.
      cbn [heap set_heap log errno trace] in H.
      rewrite lookup_insert_eq in H. cbn [heap set_heap log errno trace] in H.
      rewrite lookup_insert_eq in H. inversion H; subst s'.
      cbn [trace set_heap log] in Ht. now apply snoc_neq in Ht.
Qed.

Lemma arc_new_zero_size_witness :
  let ans := mk_answer 4096 (mk_header 7 9) in
  let s := mk_state ∅ 0 [] in
  arc_new 0 ans s = Ret NULL s /\
  (trace s = trace s <-> 0 = 0).
Proof.
  intros ans s.
  destruct (arc_new_zero_size ans s) as [Hzero Honly].
  split; [exact Hzero |].
  apply (Honly 0 NULL s). exact Hzero.
Defined.

(** Creation for a payload size whose sum with the header size fits in
    [size_t]: [malloc] is asked for [header + n] bytes, both counters are
    initialised to 1 and the handle is [base + header]; the header is found
    again at the allocation base. *)
Lemma arc_new_in_range n ans s :
  0 < n <= SIZE_MAX - __ARC_HEADER_SIZE_WITH_PAD ->
  m_ret ans <> NULL ->
  let s' := mk_state (<[m_ret ans := mk_header 1 1]> (heap s)) (errno s)
              (trace s ++ [EvMalloc (__ARC_HEADER_SIZE_WITH_PAD + n) (m_ret ans)]) in
  arc_new n ans s = Ret (m_ret ans + __ARC_HEADER_SIZE_WITH_PAD) s' /\
  get_header (m_ret ans + __ARC_HEADER_SIZE_WITH_PAD) = m_ret ans /\
  header_of (m_ret ans + __ARC_HEADER_SIZE_WITH_PAD) s' = Some (mk_header 1 1).
Proof.
  intros Hn Hret s'. rewrite header_pad_value in *.
  assert (Hn0 : (n =? 0) = false) by (apply Z.eqb_neq; lia).
  assert (Hr0 : (m_ret ans =? NULL) = false) by (now apply Z.eqb_neq).
  split; [| split].
  - unfold arc_new. rewrite Hn0. unfold bind, malloc. rewrite Hr0, Hr0.
    unfold atomic_init, atomic_store. cbn [heap set_heap log errno trace].
    rewrite lookup_insert_eq. cbn [heap set_heap log errno trace].
    rewrite lookup_insert_eq. cbn [heap set_heap log errno trace ret].
    rewrite !insert_insert_eq. cbn [set_field weak_count strong_count].
    rewrite wrap_small, header_pad_value
      by (rewrite header_pad_value; unfold in_size_t; lia).
    reflexivity.
  - unfold get_header. rewrite header_pad_value. lia.
  - unfold header_of, get_header, s'. cbn [heap]. rewrite header_pad_value.
    replace (m_ret ans + 16 - 16) with (m_ret ans) by lia.
    apply lookup_insert_eq.
Qed.

(** C6 at the largest payload size.  The size handed to [malloc] is computed
    in [size_t]: for [nbytes = SIZE_MAX] the sum [header + nbytes] wraps and
    [malloc] is asked for 15 bytes only; when it succeeds the header is
    initialised and the handle [base + 16] returned all the same. *)
Theorem arc_new_size_wraps ans s :
  m_ret ans <> NULL ->
  arc_new SIZE_MAX ans s =
  Ret (m_ret ans + __ARC_HEADER_SIZE_WITH_PAD)
      (mk_state (<[m_ret ans := mk_header 1 1]> (heap s)) (errno s)
                (trace s ++ [EvMalloc 15 (m_ret ans)])).
Proof.
  intros Hret.
  assert (Hr0 : (m_ret ans =? NULL) = false) by (now apply Z.eqb_neq).
  unfold arc_new. change (SIZE_MAX =? 0) with false. cbv iota.
  change (wrap (__ARC_HEADER_SIZE_WITH_PAD + SIZE_MAX)) with 15.
  unfold bind, malloc. rewrite Hr0, Hr0.
  unfold atomic_init, atomic_store. cbn [heap set_heap log errno trace].
  rewrite lookup_insert_eq. cbn [heap set_heap log errno trace].
  rewrite lookup_insert_eq. cbn [heap set_heap log errno trace ret].
  rewrite !insert_insert_eq. reflexivity.
Qed.

Lemma arc_new_size_wraps_witness :
  let ans := mk_answer 4096 (mk_header 7 9) in
  let s := mk_state ∅ 0 [] in
  m_ret ans <> NULL /\
  arc_new SIZE_MAX ans s =
  Ret (m_ret ans + __ARC_HEADER_SIZE_WITH_PAD)
      (mk_state (<[m_ret ans := mk_header 1 1]> (heap s)) (errno s)
                (trace s ++ [EvMalloc 15 (m_ret ans)])).
Proof.
  split; [discriminate |].
  apply (arc_new_size_wraps (mk_answer 4096 (mk_header 7 9)) (mk_state ∅ 0 [])).
  discriminate.
Defined.

(** ** Releasing handles *)

Section Release.
Variables (p : Z) (s : state) (h : arc_header_t).
Hypothesis Hlive : header_of p s = Some h.

Lemma weak_free_last :
  weak_count h = 1 ->
  weak_free p s =
  Ret tt (log (EvFree (get_header p))
              (set_heap (delete (get_header p) (heap s)) s)).
Proof.
  intros Hw. unfold weak_free, bind.
  rewrite (fetch_sub_live _ _ _ Hlive). cbn [get_field]. rewrite Hw.
  cbn [Z.eqb Pos.eqb]. unfold atomic_thread_fence, ret, free.
  cbn [heap set_heap]. rewrite lookup_insert_eq.
  cbn [heap set_heap log errno trace]. rewrite delete_insert_eq.
  reflexivity.
Qed.

Lemma weak_free_not_last :
  weak_count h <> 1 ->
  weak_free p s =
  Ret tt (set_heap (<[get_header p :=
                       mk_header (wrap (weak_count h - 1)) (strong_count h)]>
                      (heap s)) s).
Proof.
  intros Hw. unfold weak_free, bind.
  rewrite (fetch_sub_live _ _ _ Hlive). cbn [get_field].
  apply Z.eqb_neq in Hw. rewrite Hw. reflexivity.
Qed.

Lemma arc_free_last d :
  strong_count h = 1 ->
  arc_free p d s = weak_free p (after_last_strong p s h d).
Proof.
  intros Hs. unfold arc_free, bind.
  rewrite (fetch_sub_live _ _ _ Hlive). cbn [get_field set_field]. rewrite Hs.
  cbn [Z.eqb Pos.eqb]. unfold atomic_thread_fence, ret, after_last_strong.
  change (wrap (1 - 1)) with 0.
  destruct (d =? NULL); reflexivity.
Qed.

Lemma arc_free_not_last d :
  strong_count h <> 1 ->
  arc_free p d s =
  Ret tt (set_heap (<[get_header p :=
                       mk_header (weak_count h) (wrap (strong_count h - 1))]>
                      (heap s)) s).
Proof.
  intros Hs. unfold arc_free, bind.
  rewrite (fetch_sub_live _ _ _ Hlive). cbn [get_field].
  apply Z.eqb_neq in Hs. rewrite Hs. reflexivity.
Qed.

Lemma after_last_strong_header d :
  header_of p (after_last_strong p s h d) = Some (mk_header (weak_count h) 0).
Proof.
  unfold after_last_strong, header_of.
  destruct (d =? NULL); cbn [heap set_heap log]; apply lookup_insert_eq.
Qed.

Lemma after_last_strong_trace d :
  trace (after_last_strong p s h d) =
  trace s ++ (if d =? NULL then [] else [EvDestructor d p]).
Proof.
  unfold after_last_strong. destruct (d =? NULL); cbn [trace set_heap log].
  - now rewrite app_nil_r.
  - reflexivity.
Qed.
End Release.

Lemma frees_app base t1 t2 : frees base (t1 ++ t2) = (frees base t1 + frees base t2)%nat.
Proof. unfold frees. now rewrite List.filter_app, length_app. Qed.

Lemma destructor_calls_app t1 t2 :
  destructor_calls (t1 ++ t2) = (destructor_calls t1 + destructor_calls t2)%nat.
Proof. unfold destructor_calls. now rewrite List.filter_app, length_app. Qed.

Lemma weak_free_returns p s h :
  header_of p s = Some h -> exists s', weak_free p s = Ret tt s'.
Proof.
  intros Hh. destruct (Z.eq_dec (weak_count h) 1) as [Hw|Hw].
  - rewrite (weak_free_last _ _ _ Hh Hw). now eexists.
  - rewrite (weak_free_not_last _ _ _ Hh Hw). now eexists.
Qed.

Lemma weak_free_destructor_calls p s s' :
  weak_free p s = Ret tt s' -> destructor_calls (trace s') = destructor_calls (trace s).
Proof.
  intros H. destruct (header_of p s) as [h|] eqn:Hh.
  - destruct (Z.eq_dec (weak_count h) 1) as [Hw|Hw].
    + rewrite (weak_free_last _ _ _ Hh Hw) in H. inversion H; subst.
      cbn [trace log set_heap]. rewrite destructor_calls_app. cbn. lia.
    + rewrite (weak_free_not_last _ _ _ Hh Hw) in H. inversion H; subst.
      reflexivity.
  - unfold weak_free, bind, atomic_fetch_sub_explicit, bind in H.
    rewrite load_dead in H by exact Hh. discriminate.
Qed.

(** C2.  Dropping a strong handle.  When the counter read by the decrement
    is 1, [arc_free] stores 0, runs the destructor on the payload address if
    one was given, and then is exactly the call [weak_free] on the same
    address; the call returns, and whatever [weak_free] did, the destructor
    has been called once (not at all for a [NULL] destructor).  When the
    counter read is greater than 1, the only effect is [strong_count - 1]:
    [weak_count], [errno] and the trace (so the destructor) are
    untouched. *)
Theorem arc_free_spec p d s h :
  header_of p s = Some h ->
  wf_header h ->
  (strong_count h = 1 ->
     arc_free p d s = weak_free p (after_last_strong p s h d) /\
     trace (after_last_strong p s h d) =
       trace s ++ (if d =? NULL then [] else [EvDestructor d p]) /\
     header_of p (after_last_strong p s h d) = Some (mk_header (weak_count h) 0) /\
     exists s', arc_free p d s = Ret tt s' /\
       destructor_calls (trace s') =
       (destructor_calls (trace s) + (if (d =? NULL)%Z then 0 else 1))%nat) /\
  (1 < strong_count h ->
     arc_free p d s =
     Ret tt (mk_state (<[get_header p :=
                          mk_header (weak_count h) (strong_count h - 1)]> (heap s))
                      (errno s) (trace s))).
Proof.
  intros Hlive [_ Hs]. split.
  - intros H1. split; [| split; [| split]].
    + now apply arc_free_last.
    + apply after_last_strong_trace.
    + now apply after_last_strong_header.
    + destruct (weak_free_returns p _ _ (after_last_strong_header p s h d))
        as [s' Hfree].
      exists s'. rewrite (arc_free_last _ _ _ Hlive d H1). split; [exact Hfree |].
      apply weak_free_destructor_calls in Hfree. rewrite Hfree.
      rewrite after_last_strong_trace, destructor_calls_app.
      destruct (d =? NULL); reflexivity.
  - intros H1. rewrite (arc_free_not_last _ _ _ Hlive) by lia.
    rewrite wrap_pred by (auto; lia). reflexivity.
Qed.

(** ** Cloning *)

Section Clone.
Variables (p : Z) (s : state) (h : arc_header_t).
Hypothesis Hlive : header_of p s = Some h.

Lemma arc_clone_eq :
  arc_clone p s =
  let s1 := set_heap (<[get_header p :=
                         mk_header (weak_count h) (wrap (strong_count h + 1))]>
                        (heap s)) s in
  if strong_count h >? __ARC_WEAK_MAX_REFS - 1
  then Ret NULL (set_errno ETOOMANYREFS s1) else Ret p s1.
Proof.
  unfold arc_clone, bind. rewrite (fetch_add_live _ _ _ Hlive).
  cbn [get_field set_field].
  destruct (strong_count h >? __ARC_WEAK_MAX_REFS - 1); reflexivity.
Qed.

Lemma weak_clone_eq :
  weak_clone p s =
  let s1 := set_heap (<[get_header p :=
                         mk_header (wrap (weak_count h + 1)) (strong_count h)]>
                        (heap s)) s in
  if weak_count h >? __ARC_WEAK_MAX_REFS - 1
  then Ret NULL (set_errno ETOOMANYREFS s1) else Ret p s1.
Proof.
  unfold weak_clone, bind. rewrite (fetch_add_live _ _ _ Hlive).
  cbn [get_field set_field].
  destruct (weak_count h >? __ARC_WEAK_MAX_REFS - 1); reflexivity.
Qed.
End Clone.

Lemma max_refs_number : __ARC_WEAK_MAX_REFS = 9223372036854775807.
Proof. reflexivity. Qed.

(** C5, as the code has it.  [arc_clone] and [weak_clone] fail, returning
    [NULL] with [errno = ETOOMANYREFS], exactly when the value read by the
    increment is at least [SIZE_MAX/2] (the test is
    [prev > __ARC_WEAK_MAX_REFS - 1]); the counter has then been incremented
    all the same, modulo [2^64].  Below [SIZE_MAX/2] they return the handle
    they were given, leave [errno] alone and the counter is [prev + 1], with
    no wrap-around. *)
Theorem clone_overflow_guard p s h :
  header_of p s = Some h ->
  wf_header h ->
  p <> NULL ->
  (SIZE_MAX / 2 <= strong_count h ->
     arc_clone p s =
     Ret NULL (mk_state (<[get_header p :=
                            mk_header (weak_count h) (wrap (strong_count h + 1))]>
                           (heap s)) ETOOMANYREFS (trace s))) /\
  (strong_count h < SIZE_MAX / 2 ->
     arc_clone p s =
     Ret p (mk_state (<[get_header p :=
                         mk_header (weak_count h) (strong_count h + 1)]> (heap s))
                     (errno s) (trace s)) /\
     strong_count h + 1 <= SIZE_MAX) /\
  (SIZE_MAX / 2 <= weak_count h ->
     weak_clone p s =
     Ret NULL (mk_state (<[get_header p :=
                            mk_header (wrap (weak_count h + 1)) (strong_count h)]>
                           (heap s)) ETOOMANYREFS (trace s))) /\
  (weak_count h < SIZE_MAX / 2 ->
     weak_clone p s =
     Ret p (mk_state (<[get_header p :=
                         mk_header (weak_count h + 1) (strong_count h)]> (heap s))
                     (errno s) (trace s)) /\
     weak_count h + 1 <= SIZE_MAX) /\
  (forall prev, in_size_t prev -> prev < SIZE_MAX -> wrap (prev + 1) = prev + 1).
Proof.
  intros Hlive [[Hw0 Hw1] [Hs0 Hs1]] Hp.
  rewrite <- max_refs_value. rewrite size_max_value in *.
  pose proof max_refs_number as Hmax.
  repeat split.
  - intros H. rewrite (arc_clone_eq _ _ _ Hlive). cbv zeta.
    replace (strong_count h >? __ARC_WEAK_MAX_REFS - 1) with true
      by (symmetry; rewrite Z.gtb_ltb; apply Z.ltb_lt; lia).
    reflexivity.
  - rewrite (arc_clone_eq _ _ _ Hlive). cbv zeta.
    replace (strong_count h >? __ARC_WEAK_MAX_REFS - 1) with false
      by (symmetry; rewrite Z.gtb_ltb; apply Z.ltb_ge; lia).
    rewrite wrap_succ by (unfold in_size_t; rewrite ?size_max_value; lia).
    reflexivity.
  - lia.
  - intros H. rewrite (weak_clone_eq _ _ _ Hlive). cbv zeta.
    replace (weak_count h >? __ARC_WEAK_MAX_REFS - 1) with true
      by (symmetry; rewrite Z.gtb_ltb; apply Z.ltb_lt; lia).
    reflexivity.
  - rewrite (weak_clone_eq _ _ _ Hlive). cbv zeta.
    replace (weak_count h >? __ARC_WEAK_MAX_REFS - 1) with false
      by (symmetry; rewrite Z.gtb_ltb; apply Z.ltb_ge; lia).
    rewrite wrap_succ by (unfold in_size_t; rewrite ?size_max_value; lia).
    reflexivity.
  - lia.
  - intros prev Hp1 Hp2. apply wrap_succ; [exact Hp1 |].
    rewrite size_max_value. exact Hp2.
Qed.

(** ** One iteration of a compare-and-swap loop *)

Lemma interfere_live hdr f a s h :
  heap s !! hdr = Some h ->
  interfere hdr f a s = Ret tt (set_heap (<[hdr := env_header f a h]> (heap s)) s) /\
  store_env hdr f (heap s) a = <[hdr := env_header f a h]> (heap s).
Proof.
  intros Hlive. unfold interfere, store_env, env_header.
  destruct (env_store a) as [v|].
  - rewrite Hlive. split; [| reflexivity].
    now rewrite (store_live _ _ _ Hlive).
  - rewrite insert_id by exact Hlive. split; [| reflexivity].
    unfold ret, set_heap. now destruct s.
Qed.

Lemma set_field_set_field f v w h :
  set_field f v (set_field f w h) = set_field f v h.
Proof. now destruct f. Qed.

Lemma set_field_get_field f h : set_field f (get_field f h) h = h.
Proof. now destruct f, h. Qed.

Lemma get_field_set_field f v h : get_field f (set_field f v h) = v.
Proof. now destruct f. Qed.

Lemma env_header_other_field f a h :
  match f with
  | weak_count_f => strong_count (env_header f a h) = strong_count h
  | strong_count_f => weak_count (env_header f a h) = weak_count h
  end.
Proof. unfold env_header. destruct (env_store a), f; reflexivity. Qed.

Lemma env_header_nonneg f a h :
  0 <= get_field f h -> 0 <= get_field f (env_header f a h).
Proof.
  unfold env_header. destruct (env_store a) as [v|]; [| trivial].
  intros _. pose proof (wrap_in_size_t v) as [? _]. now destruct f.
Qed.

Lemma env_header_in_size_t f a h :
  in_size_t (get_field f h) -> in_size_t (get_field f (env_header f a h)).
Proof.
  unfold env_header. destruct (env_store a) as [v|]; [| trivial].
  intros _. rewrite get_field_set_field. apply wrap_in_size_t.
Qed.

Lemma env_header_no_store f a h :
  env_store a = None -> env_header f a h = h.
Proof. unfold env_header. now intros ->. Qed.

Lemma env_heap_cons hdr f a used m :
  env_heap hdr f (a :: used) m = env_heap hdr f used (store_env hdr f m a).
Proof. reflexivity. Qed.

(** ** The upgrade loop *)

Lemma weak_upgrade_loop_unfold header weak_data snapshot sched :
  weak_upgrade_loop header weak_data snapshot sched =
  if snapshot =? 0 then
    modify (set_errno ENOENT) ;;; ret NULL
  else if snapshot >? __ARC_WEAK_MAX_REFS - 1 then
    modify (set_errno ETOOMANYREFS) ;;; ret NULL
  else
    match sched with
    | [] => fun _ => Spinning
    | a :: sched' =>
        interfere header strong_count_f a ;;;
        r <~ atomic_compare_exchange_weak_explicit
               header strong_count_f snapshot (wrap (snapshot + 1))
               (spurious a) ;;
        if fst r then ret weak_data
        else weak_upgrade_loop header weak_data (snd r) sched'
    end.
Proof. destruct sched; reflexivity. Qed.

Lemma header_eta h : mk_header (weak_count h) (strong_count h) = h.
Proof. now destruct h. Qed.

Lemma weak_upgrade_loop_zero hdr p sched s :
  weak_upgrade_loop hdr p 0 sched s = Ret NULL (set_errno ENOENT s).
Proof. rewrite weak_upgrade_loop_unfold. reflexivity. Qed.

Lemma weak_upgrade_loop_overflow hdr p snapshot sched s :
  __ARC_WEAK_MAX_REFS - 1 < snapshot ->
  weak_upgrade_loop hdr p snapshot sched s = Ret NULL (set_errno ETOOMANYREFS s).
Proof.
  intros H. rewrite weak_upgrade_loop_unfold.
  replace (snapshot =? 0) with false
    by (symmetry; apply Z.eqb_neq; rewrite max_refs_number in H; lia).
  replace (snapshot >? __ARC_WEAK_MAX_REFS - 1) with true
    by (symmetry; rewrite Z.gtb_ltb; now apply Z.ltb_lt).
  reflexivity.
Qed.

Lemma weak_upgrade_loop_nil hdr p snapshot s :
  snapshot <> 0 -> snapshot <= __ARC_WEAK_MAX_REFS - 1 ->
  weak_upgrade_loop hdr p snapshot [] s = Spinning.
Proof.
  intros H0 H1. rewrite weak_upgrade_loop_unfold.
  replace (snapshot =? 0) with false by (symmetry; now apply Z.eqb_neq).
  replace (snapshot >? __ARC_WEAK_MAX_REFS - 1) with false
    by (symmetry; rewrite Z.gtb_ltb; now apply Z.ltb_ge).
  reflexivity.
Qed.

Lemma weak_upgrade_loop_step hdr p snapshot a sched s h :
  heap s !! hdr = Some h ->
  snapshot <> 0 -> snapshot <= __ARC_WEAK_MAX_REFS - 1 ->
  let h1 := env_header strong_count_f a h in
  let s1 := set_heap (<[hdr := h1]> (heap s)) s in
  weak_upgrade_loop hdr p snapshot (a :: sched) s =
  if (strong_count h1 =? snapshot) && negb (spurious a)
  then Ret p (mk_state (<[hdr := mk_header (weak_count h) (wrap (snapshot + 1))]> (heap s))
                       (errno s)
                       (trace s ++ [EvCas hdr strong_count_f snapshot snapshot true]))
  else weak_upgrade_loop hdr p (strong_count h1) sched
         (log (EvCas hdr strong_count_f snapshot (strong_count h1) false) s1).
Proof.
  intros Hlive H0 H1 h1 s1. rewrite weak_upgrade_loop_unfold.
  replace (snapshot =? 0) with false by (symmetry; now apply Z.eqb_neq).
  replace (snapshot >? __ARC_WEAK_MAX_REFS - 1) with false
    by (symmetry; rewrite Z.gtb_ltb; now apply Z.ltb_ge).
  destruct (interfere_live hdr strong_count_f a s h Hlive) as [Hint _].
  fold h1 in Hint. fold s1 in Hint.
  assert (Hlive1 : heap s1 !! hdr = Some h1) by apply lookup_insert_eq.
  assert (Hweak1 : weak_count h1 = weak_count h)
    by apply (env_header_other_field strong_count_f a h).
  unfold bind at 1. rewrite Hint. unfold bind at 1.
  destruct ((strong_count h1 =? snapshot) && negb (spurious a)) eqn:Hcas.
  - apply andb_true_iff in Hcas as [Heq Hsp]. apply Z.eqb_eq in Heq.
    apply negb_true_iff in Hsp. rewrite Hsp.
    rewrite (cas_live_success _ _ _ Hlive1 strong_count_f snapshot _ Heq).
    cbn [fst]. unfold ret, s1. cbn [log set_heap heap errno trace set_field].
    now rewrite insert_insert_eq, Hweak1.
  - rewrite (cas_live_failure _ _ _ Hlive1 strong_count_f snapshot _ _ Hcas).
    reflexivity.
Qed.

(** What a run of the loop amounts to.  [used] are the iterations executed,
    [v] is the counter at the last of them (after the stores of the other
    threads), [fails] the failed compare-and-swaps. *)
Lemma weak_upgrade_loop_spec hdr p sched : forall snapshot s h,
  heap s !! hdr = Some h ->
  strong_count h = snapshot ->
  0 <= snapshot ->
  weak_upgrade_loop hdr p snapshot sched s = Spinning \/
  exists used rest fails v,
    sched = used ++ rest /\
    forallb is_failed_cas fails = true /\
    0 <= v /\
    env_heap hdr strong_count_f used (heap s) =
      <[hdr := mk_header (weak_count h) v]> (heap s) /\
    (no_stores used = true -> v = snapshot) /\
    ((0 < v <= __ARC_WEAK_MAX_REFS - 1 /\
      weak_upgrade_loop hdr p snapshot sched s =
      Ret p (mk_state (<[hdr := mk_header (weak_count h) (v + 1)]> (heap s))
                      (errno s)
                      (trace s ++ fails ++ [EvCas hdr strong_count_f v v true]))) \/
     (v = 0 /\
      weak_upgrade_loop hdr p snapshot sched s =
      Ret NULL (mk_state (<[hdr := mk_header (weak_count h) v]> (heap s))
                         ENOENT (trace s ++ fails))) \/
     (__ARC_WEAK_MAX_REFS - 1 < v /\
      weak_upgrade_loop hdr p snapshot sched s =
      Ret NULL (mk_state (<[hdr := mk_header (weak_count h) v]> (heap s))
                         ETOOMANYREFS (trace s ++ fails)))).
Proof.
  assert (Hexit : forall snapshot s h rest,
    heap s !! hdr = Some h -> strong_count h = snapshot -> 0 <= snapshot ->
    snapshot = 0 \/ __ARC_WEAK_MAX_REFS - 1 < snapshot ->
    exists used rest' fails v,
      rest = used ++ rest' /\ forallb is_failed_cas fails = true /\ 0 <= v /\
      env_heap hdr strong_count_f used (heap s) =
        <[hdr := mk_header (weak_count h) v]> (heap s) /\
      (no_stores used = true -> v = snapshot) /\
      ((0 < v <= __ARC_WEAK_MAX_REFS - 1 /\
        weak_upgrade_loop hdr p snapshot rest s =
        Ret p (mk_state (<[hdr := mk_header (weak_count h) (v + 1)]> (heap s))
                        (errno s)
                        (trace s ++ fails ++ [EvCas hdr strong_count_f v v true]))) \/
       (v = 0 /\
        weak_upgrade_loop hdr p snapshot rest s =
        Ret NULL (mk_state (<[hdr := mk_header (weak_count h) v]> (heap s))
                           ENOENT (trace s ++ fails))) \/
       (__ARC_WEAK_MAX_REFS - 1 < v /\
        weak_upgrade_loop hdr p snapshot rest s =
        Ret NULL (mk_state (<[hdr := mk_header (weak_count h) v]> (heap s))
                           ETOOMANYREFS (trace s ++ fails))))).
  { intros snapshot s h rest Hlive Hsync Hpos Hcase.
    exists [], rest, [], snapshot.
    rewrite <- Hsync, header_eta, !app_nil_r, insert_id by exact Hlive.
    repeat split; auto; try lia.
    destruct Hcase as [H0 | Hov]; right; [left | right].
    - split; [lia |]. rewrite Hsync, H0, weak_upgrade_loop_zero.
      destruct s; reflexivity.
    - split; [lia |]. rewrite Hsync, weak_upgrade_loop_overflow by exact Hov.
      destruct s; reflexivity. }
  induction sched as [|a sched IH]; intros snapshot s h Hlive Hsync Hpos.
  - destruct (Z.eq_dec snapshot 0) as [H0|H0];
      [right; apply Hexit; auto |].
    destruct (Z_lt_le_dec (__ARC_WEAK_MAX_REFS - 1) snapshot) as [Hov|Hov];
      [right; apply Hexit; auto |].
    left. now apply weak_upgrade_loop_nil.
  - destruct (Z.eq_dec snapshot 0) as [H0|H0];
      [right; apply Hexit; auto |].
    destruct (Z_lt_le_dec (__ARC_WEAK_MAX_REFS - 1) snapshot) as [Hov|Hov];
      [right; apply Hexit; auto |].
    rewrite (weak_upgrade_loop_step hdr p snapshot a sched s h Hlive H0 Hov).
    destruct (interfere_live hdr strong_count_f a s h Hlive) as [_ Hsto].
    set (h1 := env_header strong_count_f a h) in *.
    set (s1 := set_heap (<[hdr := h1]> (heap s)) s) in *.
    assert (Hlive1 : heap s1 !! hdr = Some h1) by apply lookup_insert_eq.
    assert (Hweak1 : weak_count h1 = weak_count h)
      by apply (env_header_other_field strong_count_f a h).
    assert (Hpos1 : 0 <= strong_count h1).
    { apply (env_header_nonneg strong_count_f a h). cbn. lia. }
    destruct ((strong_count h1 =? snapshot) && negb (spurious a)) eqn:Hcas.
    + (* the compare-and-swap succeeds *)
      apply andb_true_iff in Hcas as [Heq _]. apply Z.eqb_eq in Heq.
      right. exists [a], sched, [], snapshot.
      split; [reflexivity |]. split; [reflexivity |]. split; [exact Hpos |].
      split.
      { cbn. rewrite Hsto. f_equal. rewrite <- Heq, <- Hweak1. now rewrite header_eta. }
      split; [auto |]. left. split; [lia |].
      rewrite wrap_succ
        by (unfold in_size_t; rewrite ?size_max_value, ?max_refs_number in *; lia).
      reflexivity.
    + (* it fails: next iteration *)
      set (s2 := log (EvCas hdr strong_count_f snapshot (strong_count h1) false) s1).
      assert (Hlive2 : heap s2 !! hdr = Some h1) by exact Hlive1.
      destruct (IH (strong_count h1) s2 h1 Hlive2 eq_refl Hpos1)
        as [Hspin | (used & rest & fails & v & Hsched & Hfails & Hv & Henv & Hq & Hres)].
      { now left. }
      right.
      exists (a :: used), rest,
        (EvCas hdr strong_count_f snapshot (strong_count h1) false :: fails), v.
      assert (Hheap : forall x, <[hdr := x]> (heap s2) = <[hdr := x]> (heap s)).
      { intros x. unfold s2, s1. cbn [log set_heap heap]. apply insert_insert_eq. }
      split; [now rewrite Hsched |]. split; [exact Hfails |].
      split; [exact Hv |]. split.
      { rewrite env_heap_cons, Hsto. change (<[hdr := h1]> (heap s)) with (heap s2).
        rewrite Henv, Hheap, Hweak1. reflexivity. }
      split.
      { intros Hns. cbn in Hns. apply andb_true_iff in Hns as [Ha Hns].
        destruct (env_store a) eqn:Hea; [discriminate |].
        rewrite (Hq Hns). unfold h1. rewrite env_header_no_store by exact Hea.
        exact Hsync. }
      rewrite !Hheap, Hweak1 in Hres.
      assert (Ht : forall l, trace s2 ++ l =
                trace s ++ EvCas hdr strong_count_f snapshot (strong_count h1) false :: l).
      { intros l. unfold s2, s1. cbn [log set_heap trace]. now rewrite <- app_assoc. }
      rewrite !Ht in Hres. exact Hres.
Qed.

(** An iteration nobody disturbs ends the loop. *)
Lemma weak_upgrade_loop_terminates hdr p sched : forall snapshot s h,
  heap s !! hdr = Some h ->
  strong_count h = snapshot ->
  In quiet sched ->
  weak_upgrade_loop hdr p snapshot sched s <> Spinning.
Proof.
  induction sched as [|a sched IH]; intros snapshot s h Hlive Hsync Hin;
    [destruct Hin |].
  destruct (Z.eq_dec snapshot 0) as [H0|H0].
  { subst snapshot. rewrite H0, weak_upgrade_loop_zero. discriminate. }
  destruct (Z_lt_le_dec (__ARC_WEAK_MAX_REFS - 1) snapshot) as [Hov|Hov].
  { rewrite weak_upgrade_loop_overflow by exact Hov. discriminate. }
  rewrite (weak_upgrade_loop_step hdr p snapshot a sched s h Hlive H0 Hov).
  destruct Hin as [Ha | Hin].
  - subst a. unfold env_header. cbn [env_store quiet spurious negb].
    rewrite Hsync, Z.eqb_refl. discriminate.
  - destruct (_ && _); [discriminate |].
    eapply IH; [| reflexivity | exact Hin].
    cbn [log set_heap heap]. apply lookup_insert_eq.
Qed.

Lemma weak_upgrade_eq p sched s h :
  header_of p s = Some h ->
  weak_upgrade p sched s =
  weak_upgrade_loop (get_header p) p (strong_count h) sched s.
Proof.
  intros Hlive. unfold weak_upgrade, bind.
  now rewrite (load_live _ _ _ Hlive).
Qed.

(** ** The downgrade loop *)

Lemma arc_downgrade_loop_step hdr p snapshot a sched s h :
  heap s !! hdr = Some h ->
  let h1 := env_header weak_count_f a h in
  let s1 := set_heap (<[hdr := h1]> (heap s)) s in
  arc_downgrade_loop hdr p snapshot (a :: sched) s =
  if (weak_count h1 =? snapshot) && negb (spurious a)
  then Ret p (mk_state (<[hdr := mk_header (wrap (snapshot + 1)) (strong_count h)]> (heap s))
                       (errno s)
                       (trace s ++ [EvCas hdr weak_count_f snapshot snapshot true]))
  else arc_downgrade_loop hdr p (weak_count h1) sched
         (log (EvCas hdr weak_count_f snapshot (weak_count h1) false) s1).
Proof.
  intros Hlive h1 s1. cbn [arc_downgrade_loop].
  destruct (interfere_live hdr weak_count_f a s h Hlive) as [Hint _].
  fold h1 in Hint. fold s1 in Hint.
  assert (Hlive1 : heap s1 !! hdr = Some h1) by apply lookup_insert_eq.
  assert (Hstrong1 : strong_count h1 = strong_count h)
    by apply (env_header_other_field weak_count_f a h).
  unfold bind at 1. rewrite Hint. unfold bind at 1.
  destruct ((weak_count h1 =? snapshot) && negb (spurious a)) eqn:Hcas.
  - apply andb_true_iff in Hcas as [Heq Hsp]. apply Z.eqb_eq in Heq.
    apply negb_true_iff in Hsp. rewrite Hsp.
    rewrite (cas_live_success _ _ _ Hlive1 weak_count_f snapshot _ Heq).
    cbn [fst]. unfold ret, s1. cbn [log set_heap heap errno trace set_field].
    now rewrite insert_insert_eq, Hstrong1.
  - rewrite (cas_live_failure _ _ _ Hlive1 weak_count_f snapshot _ _ Hcas).
    reflexivity.
Qed.

(** What a run of the loop amounts to: it can only end by a successful
    compare-and-swap, at the value [v] the counter had then. *)
Lemma arc_downgrade_loop_spec hdr p sched : forall snapshot s h,
  heap s !! hdr = Some h ->
  weak_count h = snapshot ->
  arc_downgrade_loop hdr p snapshot sched s = Spinning \/
  exists used rest fails v,
    sched = used ++ rest /\
    forallb is_failed_cas fails = true /\
    (in_size_t snapshot -> in_size_t v) /\
    env_heap hdr weak_count_f used (heap s) =
      <[hdr := mk_header v (strong_count h)]> (heap s) /\
    (no_stores used = true -> v = snapshot) /\
    arc_downgrade_loop hdr p snapshot sched s =
    Ret p (mk_state (<[hdr := mk_header (wrap (v + 1)) (strong_count h)]> (heap s))
                    (errno s)
                    (trace s ++ fails ++ [EvCas hdr weak_count_f v v true])).
Proof.
  induction sched as [|a sched IH]; intros snapshot s h Hlive Hsync;
    [now left |].
  rewrite (arc_downgrade_loop_step hdr p snapshot a sched s h Hlive).
  destruct (interfere_live hdr weak_count_f a s h Hlive) as [_ Hsto].
  set (h1 := env_header weak_count_f a h) in *.
  set (s1 := set_heap (<[hdr := h1]> (heap s)) s) in *.
  assert (Hlive1 : heap s1 !! hdr = Some h1) by apply lookup_insert_eq.
  assert (Hstrong1 : strong_count h1 = strong_count h)
    by apply (env_header_other_field weak_count_f a h).
  destruct ((weak_count h1 =? snapshot) && negb (spurious a)) eqn:Hcas.
  - apply andb_true_iff in Hcas as [Heq _]. apply Z.eqb_eq in Heq.
    right. exists [a], sched, [], snapshot.
    split; [reflexivity |]. split; [reflexivity |]. split; [auto |].
    split.
    { cbn. rewrite Hsto. f_equal. rewrite <- Heq, <- Hstrong1. now rewrite header_eta. }
    split; [auto |]. reflexivity.
  - set (s2 := log (EvCas hdr weak_count_f snapshot (weak_count h1) false) s1).
    assert (Hlive2 : heap s2 !! hdr = Some h1) by exact Hlive1.
    destruct (IH (weak_count h1) s2 h1 Hlive2 eq_refl)
      as [Hspin | (used & rest & fails & v & Hsched & Hfails & Hv & Henv & Hq & Hres)].
    { now left. }
    right.
    exists (a :: used), rest,
      (EvCas hdr weak_count_f snapshot (weak_count h1) false :: fails), v.
    assert (Hheap : forall x, <[hdr := x]> (heap s2) = <[hdr := x]> (heap s)).
    { intros x. unfold s2, s1. cbn [log set_heap heap]. apply insert_insert_eq. }
    split; [now rewrite Hsched |]. split; [exact Hfails |].
    split.
    { intros Hpos. apply Hv. apply (env_header_in_size_t weak_count_f a h).
      cbn. now rewrite Hsync. }
    split.
    { rewrite env_heap_cons, Hsto. change (<[hdr := h1]> (heap s)) with (heap s2).
      rewrite Henv, Hheap, Hstrong1. reflexivity. }
    split.
    { intros Hns. cbn in Hns. apply andb_true_iff in Hns as [Ha Hns].
      destruct (env_store a) eqn:Hea; [discriminate |].
      rewrite (Hq Hns). unfold h1. rewrite env_header_no_store by exact Hea.
      exact Hsync. }
    rewrite !Hheap, Hstrong1 in Hres.
    assert (Ht : forall l, trace s2 ++ l =
              trace s ++ EvCas hdr weak_count_f snapshot (weak_count h1) false :: l).
    { intros l. unfold s2, s1. cbn [log set_heap trace]. now rewrite <- app_assoc. }
    rewrite !Ht in Hres. exact Hres.
Qed.

Lemma arc_downgrade_loop_terminates hdr p sched : forall snapshot s h,
  heap s !! hdr = Some h ->
  weak_count h = snapshot ->
  In quiet sched ->
  arc_downgrade_loop hdr p snapshot sched s <> Spinning.
Proof.
  induction sched as [|a sched IH]; intros snapshot s h Hlive Hsync Hin;
    [destruct Hin |].
  rewrite (arc_downgrade_loop_step hdr p snapshot a sched s h Hlive).
  destruct Hin as [Ha | Hin].
  - subst a. unfold env_header. cbn [env_store quiet spurious negb].
    rewrite Hsync, Z.eqb_refl. discriminate.
  - destruct (_ && _); [discriminate |].
    eapply IH; [| reflexivity | exact Hin].
    cbn [log set_heap heap]. apply lookup_insert_eq.
Qed.

Lemma arc_downgrade_eq p sched s h :
  header_of p s = Some h ->
  arc_downgrade p sched s =
  arc_downgrade_loop (get_header p) p (weak_count h) sched s.
Proof.
  intros Hlive. unfold arc_downgrade, bind.
  now rewrite (load_live _ _ _ Hlive).
Qed.

(** ** Upgrade and downgrade as a whole *)

Lemma failed_cas_not_success evs e :
  is_cas_success e = true ->
  forallb is_failed_cas (evs ++ [e]) = false.
Proof.
  intros He. rewrite forallb_app. cbn.
  destruct e; try discriminate. cbn in He. subst ok. cbn.
  now rewrite andb_false_r.
Qed.

Lemma no_stores_app used rest :
  no_stores (used ++ rest) = true -> no_stores used = true.
Proof.
  unfold no_stores. rewrite forallb_app. intros H.
  now apply andb_true_iff in H as [H _].
Qed.

Lemma weak_upgrade_not_undefined p sched s h :
  header_of p s = Some h -> wf_header h ->
  weak_upgrade p sched s <> Undefined.
Proof.
  intros Hlive [_ [Hs0 _]]. rewrite (weak_upgrade_eq _ _ _ _ Hlive).
  destruct (weak_upgrade_loop_spec (get_header p) p sched (strong_count h) s h
              Hlive eq_refl Hs0)
    as [-> | (used & rest & fails & v & _ & _ & _ & _ & _ & Hres)];
    [discriminate |].
  destruct Hres as [[_ ->] | [[_ ->] | [_ ->]]]; discriminate.
Qed.

Lemma calm_spec sched :
  calm sched = true -> no_stores sched = true /\ In quiet sched.
Proof.
  unfold calm. intros H. apply andb_true_iff in H as [Hns Hex].
  split; [exact Hns |].
  apply existsb_exists in Hex as (a & Hin & Ha).
  apply negb_true_iff in Ha.
  unfold no_stores in Hns. rewrite forallb_forall in Hns.
  specialize (Hns a Hin). destruct a as [[v|] sp]; [discriminate |].
  cbn in Ha. subst sp. exact Hin.
Qed.

(** A downgrade under a calm schedule is the atomic increment. *)
Lemma arc_downgrade_calm p sched s h :
  header_of p s = Some h ->
  calm sched = true ->
  exists fails,
    forallb is_failed_cas fails = true /\
    arc_downgrade p sched s =
    Ret p (mk_state (<[get_header p :=
                        mk_header (wrap (weak_count h + 1)) (strong_count h)]> (heap s))
                    (errno s)
                    (trace s ++ fails ++
                     [EvCas (get_header p) weak_count_f
                            (weak_count h) (weak_count h) true])).
Proof.
  intros Hlive Hcalm. apply calm_spec in Hcalm as [Hns Hq].
  rewrite (arc_downgrade_eq _ _ _ _ Hlive).
  destruct (arc_downgrade_loop_spec (get_header p) p sched (weak_count h) s h
              Hlive eq_refl)
    as [Hspin | (used & rest & fails & v & Hsched & Hfails & _ & _ & Hv & Heq)].
  - now apply (arc_downgrade_loop_terminates (get_header p) p sched _ s h
                 Hlive eq_refl) in Hq.
  - rewrite Hsched in Hns. apply no_stores_app in Hns.
    rewrite (Hv Hns) in Heq. exists fails. auto.
Qed.

(** An upgrade under a calm schedule, while strong handles exist, is the
    atomic increment. *)
Lemma weak_upgrade_calm p sched s h :
  header_of p s = Some h ->
  calm sched = true ->
  0 < strong_count h <= __ARC_WEAK_MAX_REFS - 1 ->
  exists fails,
    forallb is_failed_cas fails = true /\
    weak_upgrade p sched s =
    Ret p (mk_state (<[get_header p :=
                        mk_header (weak_count h) (strong_count h + 1)]> (heap s))
                    (errno s)
                    (trace s ++ fails ++
                     [EvCas (get_header p) strong_count_f
                            (strong_count h) (strong_count h) true])).
Proof.
  intros Hlive Hcalm Hrange. apply calm_spec in Hcalm as [Hns Hq].
  rewrite (weak_upgrade_eq _ _ _ _ Hlive).
  destruct (weak_upgrade_loop_spec (get_header p) p sched (strong_count h) s h
              Hlive eq_refl)
    as [Hspin | (used & rest & fails & v & Hsched & Hfails & _ & _ & Hv & Hres)];
    [lia | |].
  - now apply (weak_upgrade_loop_terminates (get_header p) p sched _ s h
                 Hlive eq_refl) in Hq.
  - rewrite Hsched in Hns. apply no_stores_app in Hns.
    specialize (Hv Hns). subst v.
    destruct Hres as [[_ Heq] | [[Hz _] | [Hov _]]]; [| lia | lia].
    exists fails. auto.
Qed.

(** The value [v] of [strong_count] that the call observed last decides its
    result. *)
Lemma weak_upgrade_decided p sched s h r s' :
  header_of p s = Some h ->
  0 <= strong_count h ->
  weak_upgrade p sched s = Ret r s' ->
  exists used rest fails v,
    sched = used ++ rest /\
    forallb is_failed_cas fails = true /\
    env_heap (get_header p) strong_count_f used (heap s) =
      <[get_header p := mk_header (weak_count h) v]> (heap s) /\
    (no_stores used = true -> v = strong_count h) /\
    ((0 < v < SIZE_MAX / 2 /\ r = p /\
      s' = mk_state (<[get_header p := mk_header (weak_count h) (v + 1)]> (heap s))
                    (errno s)
                    (trace s ++ fails ++
                     [EvCas (get_header p) strong_count_f v v true])) \/
     (v = 0 /\ r = NULL /\
      s' = mk_state (<[get_header p := mk_header (weak_count h) v]> (heap s))
                    ENOENT (trace s ++ fails)) \/
     (SIZE_MAX / 2 <= v /\ r = NULL /\
      s' = mk_state (<[get_header p := mk_header (weak_count h) v]> (heap s))
                    ETOOMANYREFS (trace s ++ fails))).
Proof.
  intros Hlive Hs0 Hret. rewrite (weak_upgrade_eq _ _ _ _ Hlive) in Hret.
  rewrite <- max_refs_value.
  destruct (weak_upgrade_loop_spec (get_header p) p sched (strong_count h) s h
              Hlive eq_refl Hs0)
    as [Hspin | (used & rest & fails & v & Hsched & Hfails & _ & Henv & Hv & Hres)];
    [rewrite Hspin in Hret; discriminate |].
  exists used, rest, fails, v.
  split; [exact Hsched |]. split; [exact Hfails |]. split; [exact Henv |].
  split; [exact Hv |].
  destruct Hres as [[Hrange Heq] | [[Hz Heq] | [Hov Heq]]];
    rewrite Heq in Hret; inversion Hret; subst r s'.
  - left. split; [lia | auto].
  - right; left. auto.
  - right; right. split; [lia | auto].
Qed.

(** C3, as the code has it.  Upgrade of a weak handle on a live
    allocation, under any behaviour of the other threads.  The call commits
    no undefined behaviour and returns as soon as one iteration is left
    undisturbed.  The value [v] of [strong_count] that it observed last
    decides the result: for [0 < v < SIZE_MAX/2] its last action is a
    successful compare-and-swap that replaces [v] by [v + 1], and it returns
    the handle it was given with [errno] untouched; for [v = 0] it returns
    [NULL] with [ENOENT]; for [v >= SIZE_MAX/2] (the test of the code is
    [snapshot > __ARC_WEAK_MAX_REFS - 1]) it returns [NULL] with
    [ETOOMANYREFS]; on failure both counters are left as the call found
    them.  When the other threads store nothing, [v] is the value of
    [strong_count] before the call, and the upgrade succeeds for every such
    value with [0 < v < SIZE_MAX/2] as soon as one compare-and-swap does not
    fail spuriously.  It returns a handle if and only if its last action is
    a successful compare-and-swap, executed while [strong_count] was some
    [v > 0].  If the counter read on entry is 0 the call fails at once,
    whatever the schedule: no compare-and-swap is attempted, nothing is
    retried. *)
Theorem weak_upgrade_spec p sched s h :
  header_of p s = Some h ->
  wf_header h ->
  p <> NULL ->
  weak_upgrade p sched s <> Undefined /\
  (In quiet sched -> exists r s', weak_upgrade p sched s = Ret r s') /\
  (forall r s', weak_upgrade p sched s = Ret r s' ->
     exists used rest fails v,
       sched = used ++ rest /\
       forallb is_failed_cas fails = true /\
       env_heap (get_header p) strong_count_f used (heap s) =
         <[get_header p := mk_header (weak_count h) v]> (heap s) /\
       (no_stores used = true -> v = strong_count h) /\
       ((0 < v < SIZE_MAX / 2 /\ r = p /\
         s' = mk_state
                (<[get_header p := mk_header (weak_count h) (v + 1)]> (heap s))
                (errno s)
                (trace s ++ fails ++
                 [EvCas (get_header p) strong_count_f v v true])) \/
        (v = 0 /\ r = NULL /\
         s' = mk_state
                (<[get_header p := mk_header (weak_count h) v]> (heap s))
                ENOENT (trace s ++ fails)) \/
        (SIZE_MAX / 2 <= v /\ r = NULL /\
         s' = mk_state
                (<[get_header p := mk_header (weak_count h) v]> (heap s))
                ETOOMANYREFS (trace s ++ fails)))) /\
  (calm sched = true ->
   0 < strong_count h < SIZE_MAX / 2 ->
   exists fails,
     forallb is_failed_cas fails = true /\
     weak_upgrade p sched s =
     Ret p (mk_state (<[get_header p :=
                         mk_header (weak_count h) (strong_count h + 1)]> (heap s))
                     (errno s)
                     (trace s ++ fails ++
                      [EvCas (get_header p) strong_count_f
                             (strong_count h) (strong_count h) true]))) /\
  (forall r s', weak_upgrade p sched s = Ret r s' ->
     (r <> NULL <->
        exists evs v, 0 < v /\
          trace s' =
          trace s ++ evs ++ [EvCas (get_header p) strong_count_f v v true]) /\
     (r <> NULL ->
        r = p /\ errno s' = errno s /\
        exists fails v, 0 < v <= __ARC_WEAK_MAX_REFS - 1 /\
          forallb is_failed_cas fails = true /\
          trace s' =
          trace s ++ fails ++ [EvCas (get_header p) strong_count_f v v true] /\
          heap s' =
          <[get_header p := mk_header (weak_count h) (v + 1)]> (heap s)) /\
     (r = NULL ->
        exists v, header_of p s' = Some (mk_header (weak_count h) v) /\
          ((v = 0 /\ errno s' = ENOENT) \/
           (__ARC_WEAK_MAX_REFS - 1 < v /\ errno s' = ETOOMANYREFS)))) /\
  (strong_count h = 0 ->
     weak_upgrade p sched s = Ret NULL (set_errno ENOENT s)) /\
  (SIZE_MAX / 2 <= strong_count h ->
     weak_upgrade p sched s = Ret NULL (set_errno ETOOMANYREFS s)).
Proof.
  intros Hlive Hwf Hp.
  pose proof (weak_upgrade_not_undefined p sched s h Hlive Hwf) as Hdef.
  split; [exact Hdef |].
  destruct Hwf as [_ [Hs0 _]].
  split; [| split; [| split]].
  - intros Hin. rewrite (weak_upgrade_eq _ _ _ _ Hlive) in *.
    pose proof (weak_upgrade_loop_terminates (get_header p) p sched
                  (strong_count h) s h Hlive eq_refl Hin) as Hspin.
    destruct (weak_upgrade_loop (get_header p) p (strong_count h) sched s)
      as [r s'| |]; [now exists r, s' | now destruct Hdef | now destruct Hspin].
  - intros r s'. now apply weak_upgrade_decided.
  - intros Hcalm Hrange. apply (weak_upgrade_calm p sched s h Hlive Hcalm).
    rewrite max_refs_value. lia.
  - rewrite (weak_upgrade_eq _ _ _ _ Hlive) in *.
    split; [| split].
    + intros r s' Hret.
      destruct (weak_upgrade_loop_spec (get_header p) p sched (strong_count h) s h
                  Hlive eq_refl Hs0)
        as [Hspin | (used & rest & fails & v & _ & Hfails & Hv & _ & _ & Hres)];
        [rewrite Hspin in Hret; discriminate |].
      destruct Hres as [[Hrange Heq] | [[Hz Heq] | [Hov Heq]]];
        rewrite Heq in Hret; inversion Hret; subst r s'; clear Hret;
        cbn [trace heap errno].
      * split; [| split].
        -- split; [intros _ | intros _; exact Hp].
           exists fails, v. split; [lia | reflexivity].
        -- intros _. split; [reflexivity |]. split; [reflexivity |].
           exists fails, v. auto.
        -- intros Hnull. now destruct Hp.
      * split; [| split].
        -- split; [intros Hnn; now destruct Hnn |].
           intros (evs & w & _ & Ht). apply app_inv_head in Ht.
           rewrite Ht, failed_cas_not_success in Hfails by reflexivity.
           discriminate.
        -- intros Hnn. now destruct Hnn.
        -- intros _. exists v. split; [| left; auto].
           unfold header_of. cbn [heap]. apply lookup_insert_eq.
      * split; [| split].
        -- split; [intros Hnn; now destruct Hnn |].
           intros (evs & w & _ & Ht). apply app_inv_head in Ht.
           rewrite Ht, failed_cas_not_success in Hfails by reflexivity.
           discriminate.
        -- intros Hnn. now destruct Hnn.
        -- intros _. exists v. split; [| right; auto].
           unfold header_of. cbn [heap]. apply lookup_insert_eq.
    + intros H0. rewrite H0. apply weak_upgrade_loop_zero.
    + intros Hov. apply weak_upgrade_loop_overflow.
      rewrite max_refs_value. lia.
Qed.

(** C10.  A failed upgrade has stored nothing.  When [weak_upgrade] returns
    [NULL], the events it added to the trace are failed compare-and-swaps
    only, [errno] is [ENOENT] or [ETOOMANYREFS], and the heap is the one left
    by the stores of the other threads during the iterations executed; with
    no such stores the heap, hence both counters, is as before the call.
    [weak_count] is the same in any case.  A clone that fails for overflow
    has on the contrary committed its increment. *)
Theorem weak_upgrade_failure_stores_nothing p sched s h s' :
  header_of p s = Some h ->
  wf_header h ->
  weak_upgrade p sched s = Ret NULL s' ->
  p <> NULL ->
  (errno s' = ENOENT \/ errno s' = ETOOMANYREFS) /\
  (exists fails, trace s' = trace s ++ fails /\
                 forallb is_failed_cas fails = true) /\
  (exists used rest, sched = used ++ rest /\
     heap s' = env_heap (get_header p) strong_count_f used (heap s)) /\
  (exists v, header_of p s' = Some (mk_header (weak_count h) v)) /\
  (no_stores sched = true -> heap s' = heap s) /\
  (__ARC_WEAK_MAX_REFS - 1 < strong_count h ->
     heap s' = heap s /\
     exists s'', arc_clone p s = Ret NULL s'' /\
       header_of p s'' =
       Some (mk_header (weak_count h) (wrap (strong_count h + 1)))).
Proof.
  intros Hlive Hwf Hret Hp. pose proof Hwf as [_ [Hs0 _]].
  pose proof Hret as Hret0.
  rewrite (weak_upgrade_eq _ _ _ _ Hlive) in Hret.
  destruct (weak_upgrade_loop_spec (get_header p) p sched (strong_count h) s h
              Hlive eq_refl Hs0)
    as [Hspin | (used & rest & fails & v & Hsched & Hfails & Hv & Henv & Hq & Hres)];
    [rewrite Hspin in Hret; discriminate |].
  assert (Hshape : exists e, (e = ENOENT \/ e = ETOOMANYREFS) /\
            s' = mk_state (<[get_header p := mk_header (weak_count h) v]> (heap s))
                          e (trace s ++ fails)).
  { destruct Hres as [[_ Heq] | [[_ Heq] | [_ Heq]]];
      rewrite Heq in Hret; inversion Hret; subst.
    - now destruct Hp.
    - exists ENOENT. auto.
    - exists ETOOMANYREFS. auto. }
  destruct Hshape as (e & He & ->). cbn [errno trace heap].
  split; [exact He |]. split; [exists fails; auto |].
  split; [exists used, rest; split; [exact Hsched | now rewrite Henv] |].
  split; [exists v; unfold header_of; cbn [heap]; apply lookup_insert_eq |].
  split.
  - intros Hns. rewrite Hsched in Hns. apply no_stores_app in Hns.
    rewrite (Hq Hns), header_eta. now apply insert_id.
  - intros Hov. split.
    + rewrite (weak_upgrade_eq _ _ _ _ Hlive),
        weak_upgrade_loop_overflow in Hret0 by exact Hov.
      inversion Hret0 as [Hs']. now rewrite Hs'.
    + rewrite (arc_clone_eq _ _ _ Hlive). cbv zeta.
      replace (strong_count h >? __ARC_WEAK_MAX_REFS - 1) with true
        by (symmetry; rewrite Z.gtb_ltb; now apply Z.ltb_lt).
      eexists. split; [reflexivity |].
      unfold header_of. cbn [heap set_errno set_heap]. apply lookup_insert_eq.
Qed.

Lemma arc_downgrade_not_undefined p sched s h :
  header_of p s = Some h ->
  arc_downgrade p sched s <> Undefined.
Proof.
  intros Hlive. rewrite (arc_downgrade_eq _ _ _ _ Hlive).
  destruct (arc_downgrade_loop_spec (get_header p) p sched (weak_count h) s h
              Hlive eq_refl)
    as [-> | (used & rest & fails & v & _ & _ & _ & _ & _ & ->)];
    discriminate.
Qed.

Lemma arc_downgrade_quiet p s h :
  header_of p s = Some h ->
  arc_downgrade p [quiet] s =
  Ret p (mk_state (<[get_header p :=
                      mk_header (wrap (weak_count h + 1)) (strong_count h)]> (heap s))
                  (errno s)
                  (trace s ++ [EvCas (get_header p) weak_count_f
                                     (weak_count h) (weak_count h) true])).
Proof.
  intros Hlive. rewrite (arc_downgrade_eq _ _ _ _ Hlive).
  rewrite (arc_downgrade_loop_step _ _ _ _ _ _ _ Hlive).
  unfold env_header. cbn [env_store quiet spurious negb].
  now rewrite Z.eqb_refl.
Qed.

(** C8, as the code has it.  Downgrade of a strong handle on a live
    allocation ([weak_count >= 1]), under any behaviour of the other
    threads.  The call commits no undefined behaviour, returns as soon as
    one iteration is left undisturbed, and when it returns it returns the
    handle it was given, with [errno] untouched: there is no failure
    result.  Its last action is a successful compare-and-swap that replaces
    the value [v] of [weak_count] by [v + 1] computed in [size_t]; no
    ceiling is tested, so this is [v + 1] for every [v < SIZE_MAX] and 0
    for [v = SIZE_MAX].  [strong_count] is not written.  When the other
    threads store nothing, [v] is the value of [weak_count] before the
    call, and the call returns as soon as one compare-and-swap does not fail
    spuriously: it has then incremented [weak_count] by exactly 1 if
    [weak_count < SIZE_MAX], and set it to 0 if [weak_count = SIZE_MAX]. *)
Theorem arc_downgrade_spec p sched s h :
  header_of p s = Some h ->
  wf_header h ->
  1 <= weak_count h ->
  arc_downgrade p sched s <> Undefined /\
  (In quiet sched -> exists s', arc_downgrade p sched s = Ret p s') /\
  (forall r s', arc_downgrade p sched s = Ret r s' ->
     r = p /\ errno s' = errno s /\
     exists fails v,
       in_size_t v /\
       forallb is_failed_cas fails = true /\
       trace s' =
       trace s ++ fails ++ [EvCas (get_header p) weak_count_f v v true] /\
       heap s' =
       <[get_header p := mk_header (wrap (v + 1)) (strong_count h)]> (heap s) /\
       (v < SIZE_MAX -> wrap (v + 1) = v + 1) /\
       (v = SIZE_MAX -> wrap (v + 1) = 0) /\
       (no_stores sched = true -> v = weak_count h)) /\
  arc_downgrade p [quiet] s =
  Ret p (mk_state (<[get_header p :=
                      mk_header (wrap (weak_count h + 1)) (strong_count h)]> (heap s))
                  (errno s)
                  (trace s ++ [EvCas (get_header p) weak_count_f
                                     (weak_count h) (weak_count h) true])) /\
  (calm sched = true ->
   weak_count h < SIZE_MAX ->
   exists fails,
     forallb is_failed_cas fails = true /\
     arc_downgrade p sched s =
     Ret p (mk_state (<[get_header p :=
                         mk_header (weak_count h + 1) (strong_count h)]> (heap s))
                     (errno s)
                     (trace s ++ fails ++
                      [EvCas (get_header p) weak_count_f
                             (weak_count h) (weak_count h) true]))) /\
  (calm sched = true ->
   weak_count h = SIZE_MAX ->
   exists fails,
     forallb is_failed_cas fails = true /\
     arc_downgrade p sched s =
     Ret p (mk_state (<[get_header p :=
                         mk_header 0 (strong_count h)]> (heap s))
                     (errno s)
                     (trace s ++ fails ++
                      [EvCas (get_header p) weak_count_f
                             (weak_count h) (weak_count h) true]))).
Proof.
  intros Hlive [Hw _] _.
  split; [now apply (arc_downgrade_not_undefined p sched s h) |].
  assert (Hcalm : forall w, wrap (weak_count h + 1) = w ->
            calm sched = true ->
            exists fails,
              forallb is_failed_cas fails = true /\
              arc_downgrade p sched s =
              Ret p (mk_state (<[get_header p :=
                                  mk_header w (strong_count h)]> (heap s))
                              (errno s)
                              (trace s ++ fails ++
                               [EvCas (get_header p) weak_count_f
                                      (weak_count h) (weak_count h) true]))).
  { intros w <- Hc. exact (arc_downgrade_calm p sched s h Hlive Hc). }
  pose proof (arc_downgrade_quiet p s h Hlive) as Hquiet.
  rewrite (arc_downgrade_eq _ _ _ _ Hlive).
  pose proof (arc_downgrade_loop_spec (get_header p) p sched (weak_count h) s h
                Hlive eq_refl) as Hspec.
  split; [| split; [| split; [| split]]].
  - intros Hin.
    destruct Hspec as [Hspin | (used & rest & fails & v & _ & _ & _ & _ & _ & ->)].
    + now apply (arc_downgrade_loop_terminates (get_header p) p sched _ s h Hlive eq_refl) in Hin.
    + eexists. reflexivity.
  - intros r s' Hret.
    destruct Hspec as [Hspin | (used & rest & fails & v & Hsched & Hfails & Hv & _ & Hq & Heq)];
      [rewrite Hspin in Hret; discriminate |].
    rewrite Heq in Hret. inversion Hret; subst r s'. cbn [errno trace heap].
    split; [reflexivity |]. split; [reflexivity |].
    exists fails, v. split; [now apply Hv |]. split; [exact Hfails |].
    split; [reflexivity |]. split; [reflexivity |]. split; [| split].
    + intros Hlt. apply wrap_succ; [now apply Hv | exact Hlt].
    + intros ->. exact wrap_succ_max.
    + intros Hns. rewrite Hsched in Hns. apply no_stores_app in Hns. auto.
  - exact Hquiet.
  - rewrite <- (arc_downgrade_eq _ _ _ _ Hlive).
    intros Hc Hlt. apply Hcalm; [| exact Hc]. now apply wrap_succ.
  - rewrite <- (arc_downgrade_eq _ _ _ _ Hlive).
    intros Hc Heq. apply Hcalm; [| exact Hc]. rewrite Heq. exact wrap_succ_max.
Qed.

(** ** Effects of one operation *)

Lemma arc_new_eq n ans s :
  arc_new n ans s =
  if n =? 0 then Ret NULL s
  else
    let t := trace s ++ [EvMalloc (wrap (__ARC_HEADER_SIZE_WITH_PAD + n)) (m_ret ans)] in
    if m_ret ans =? NULL then Ret NULL (mk_state (heap s) (errno s) t)
    else Ret (m_ret ans + __ARC_HEADER_SIZE_WITH_PAD)
             (mk_state (<[m_ret ans := mk_header 1 1]> (heap s)) (errno s) t).
Proof.
  unfold arc_new. destruct (n =? 0); [reflexivity |].
  unfold bind, malloc. cbv zeta.
  destruct (m_ret ans =? NULL) eqn:Hr; [reflexivity | rewrite Hr].
  unfold atomic_init, atomic_store. cbn [heap set_heap log errno trace].
  rewrite lookup_insert_eq. cbn [heap set_heap log errno trace].
  rewrite lookup_insert_eq. cbn [heap set_heap log errno trace ret].
  now rewrite !insert_insert_eq.
Qed.

Lemma fetch_dead hdr f v s :
  heap s !! hdr = None ->
  atomic_fetch_add_explicit hdr f v s = Undefined /\
  atomic_fetch_sub_explicit hdr f v s = Undefined.
Proof.
  intros H. unfold atomic_fetch_add_explicit, atomic_fetch_sub_explicit, bind.
  now rewrite load_dead.
Qed.

(** An operation on a handle returns only if the allocation is live. *)
Lemma exec_live o s r s' :
  exec o s = Ret r s' ->
  match o with
  | ArcNew _ _ => True
  | ArcClone p | ArcFree p _ | ArcDowngrade p _
  | WeakFree p | WeakClone p | WeakUpgrade p _ => is_Some (header_of p s)
  end.
Proof.
  destruct o as [n ans|p|p d|p sched|p|p|p sched]; [trivial | ..];
    intros H; destruct (header_of p s) as [h|] eqn:Hh; try (now eexists);
    exfalso; unfold header_of in Hh;
    destruct (fetch_dead (get_header p) strong_count_f 1 s Hh) as [Ha1 Hs1];
    destruct (fetch_dead (get_header p) weak_count_f 1 s Hh) as [Ha2 Hs2];
    cbn [exec] in H;
    unfold arc_clone, arc_free, arc_downgrade, weak_free, weak_clone,
      weak_upgrade, bind in H;
    rewrite ?Ha1, ?Hs1, ?Ha2, ?Hs2, ?load_dead in H by exact Hh;
    discriminate.
Qed.

Lemma failed_cas_frees base evs :
  forallb is_failed_cas evs = true -> frees base evs = 0%nat.
Proof.
  unfold frees. induction evs as [|e evs IH]; [reflexivity |].
  cbn. intros H. apply andb_true_iff in H as [He Hevs].
  destruct e; try discriminate. cbn. auto.
Qed.

Lemma frees_snoc_other base t e :
  is_free_of base e = false -> frees base (t ++ [e]) = frees base t.
Proof. intros H. rewrite frees_app. unfold frees at 2. cbn. rewrite H. cbn. lia. Qed.

Lemma frees_cas_run base t fails e :
  forallb is_failed_cas fails = true ->
  is_free_of base e = false ->
  frees base (t ++ fails ++ [e]) = frees base t.
Proof.
  intros Hf He. rewrite app_assoc, frees_snoc_other, frees_app by exact He.
  rewrite (failed_cas_frees _ _ Hf). lia.
Qed.

Lemma frees_snoc_free base t ptr :
  frees base (t ++ [EvFree ptr]) =
  (frees base t + (if (ptr =? base)%Z then 1 else 0))%nat.
Proof. rewrite frees_app. unfold frees at 2. cbn. now destruct (ptr =? base). Qed.

Lemma frees_after_last_strong base p s h d :
  frees base (trace (after_last_strong p s h d)) = frees base (trace s).
Proof.
  rewrite after_last_strong_trace. destruct (d =? NULL).
  - now rewrite app_nil_r.
  - now apply frees_snoc_other.
Qed.

Lemma weak_free_effect o p s h s' :
  header_of p s = Some h ->
  weak_free p s = Ret tt s' ->
  (weak_count h = 1 /\
   heap s' = delete (get_header p) (heap s) /\
   forall b, frees b (trace s') =
             (frees b (trace s) + (if (get_header p =? b)%Z then 1 else 0))%nat) \/
  (weak_count h <> 1 /\
   heap s' = <[get_header p := mk_header (wrap (weak_count h - 1)) (strong_count h)]> (heap s) /\
   (forall b, frees b (trace s') = frees b (trace s)) /\
   weak_change o h (mk_header (wrap (weak_count h - 1)) (strong_count h))).
Proof.
  intros Hlive H. destruct (Z.eq_dec (weak_count h) 1) as [Hw|Hw].
  - left. rewrite (weak_free_last _ _ _ Hlive Hw) in H. inversion H; subst s'.
    split; [exact Hw |]. split; [reflexivity |].
    intros b. cbn [trace log set_heap]. apply frees_snoc_free.
  - right. rewrite (weak_free_not_last _ _ _ Hlive Hw) in H. inversion H; subst s'.
    split; [exact Hw |]. split; [reflexivity |]. split; [reflexivity |].
    right; left. auto.
Qed.

Lemma bind_ret_inv {A} (m : M A) (b : Z) s r s' :
  (m ;;; ret b) s = Ret r s' -> exists a, m s = Ret a s' /\ r = b.
Proof.
  unfold bind, ret. destruct (m s) as [a s1| |]; try discriminate.
  intros H. inversion H; subst. now exists a.
Qed.

(** Whatever the counter holds, the upgrade loop writes only
    [strong_count] and frees nothing. *)
Lemma weak_upgrade_loop_effect hdr p sched : forall snapshot s h r s',
  heap s !! hdr = Some h ->
  weak_upgrade_loop hdr p snapshot sched s = Ret r s' ->
  exists v evs,
    heap s' = <[hdr := mk_header (weak_count h) v]> (heap s) /\
    trace s' = trace s ++ evs /\
    forall b, frees b evs = 0%nat.
Proof.
  assert (Hsame : forall e s (h : arc_header_t), heap s !! hdr = Some h ->
            exists v evs,
              heap (set_errno e s) = <[hdr := mk_header (weak_count h) v]> (heap s) /\
              trace (set_errno e s) = trace s ++ evs /\
              forall b, frees b evs = 0%nat).
  { intros e s h Hlive. exists (strong_count h), [].
    rewrite header_eta, app_nil_r, insert_id by exact Hlive. auto. }
  induction sched as [|a sched IH]; intros snapshot s h r s' Hlive H;
    destruct (Z.eq_dec snapshot 0) as [H0|H0];
    try (subst snapshot; rewrite weak_upgrade_loop_zero in H;
         inversion H; subst; now apply Hsame);
    destruct (Z_lt_le_dec (__ARC_WEAK_MAX_REFS - 1) snapshot) as [Hov|Hov];
    try (rewrite weak_upgrade_loop_overflow in H by exact Hov;
         inversion H; subst; now apply Hsame).
  - now rewrite weak_upgrade_loop_nil in H.
  - rewrite (weak_upgrade_loop_step hdr p snapshot a sched s h Hlive H0 Hov) in H.
    destruct (_ && _).
    + inversion H; subst r s'. eexists _, [_].
      split; [reflexivity |]. split; [reflexivity |]. reflexivity.
    + pose proof (env_header_other_field strong_count_f a h) as Hweak.
      cbv beta iota in Hweak.
      eapply IH in H; [| cbn [log set_heap heap]; apply lookup_insert_eq].
      destruct H as (v & evs & Hheap & Htrace & Hfr).
      cbn [log set_heap heap trace] in Hheap, Htrace.
      rewrite insert_insert_eq, Hweak in Hheap. rewrite <- app_assoc in Htrace.
      exists v. eexists. split; [exact Hheap |]. split; [exact Htrace |].
      intros b. cbn [app]. unfold frees. cbn. apply Hfr.
Qed.

(** The effect of every operation that returns. *)
Lemma exec_effect o s r s' : exec o s = Ret r s' -> effect o s s'.
Proof.
  intros H. pose proof (exec_live _ _ _ _ H) as Hlive.
  destruct o as [n ans|p|p d|p sched|p|p|p sched]; cbn [exec] in H.
  - (* arc_new *)
    rewrite arc_new_eq in H. destruct (n =? 0).
    { inversion H; subst. now apply eff_none. }
    cbv zeta in H. destruct (m_ret ans =? NULL); inversion H; subst s'.
    + apply eff_none; [reflexivity |]. intros b. cbn [trace].
      now apply frees_snoc_other.
    + eapply eff_alloc; [reflexivity | reflexivity |]. intros b. cbn [trace].
      now apply frees_snoc_other.
  - (* arc_clone *)
    destruct Hlive as [h Hh]. rewrite (arc_clone_eq _ _ _ Hh) in H. cbv zeta in H.
    destruct (strong_count h >? _); inversion H; subst;
      (eapply eff_update; [exact Hh | reflexivity | reflexivity | now left]).
  - (* arc_free *)
    destruct Hlive as [h Hh]. apply bind_ret_inv in H as ([] & H & _).
    destruct (Z.eq_dec (strong_count h) 1) as [Hs|Hs].
    + pose proof (arc_free_last _ _ _ Hh d Hs) as Heq. rewrite Heq in H.
      pose proof (after_last_strong_header p s h d) as Hh2.
      destruct (weak_free_effect (ArcFree p d) _ _ _ _ Hh2 H)
        as [(Hw & Hheap & Hfr) | (Hw & Hheap & Hfr & Hch)];
        cbn [weak_count strong_count] in *.
      * eapply eff_free; [exact Hh | exact Hw | | |].
        -- rewrite Hheap. unfold after_last_strong.
           destruct (d =? NULL); cbn [heap log set_heap]; apply delete_insert_eq.
        -- intros b. now rewrite Hfr, frees_after_last_strong.
        -- right. exists d. auto.
      * eapply (eff_update _ _ _ p h); [exact Hh | | |].
        -- rewrite Hheap. unfold after_last_strong.
           destruct (d =? NULL); cbn [heap log set_heap]; apply insert_insert_eq.
        -- intros b. now rewrite Hfr, frees_after_last_strong.
        -- right; left. auto.
    + rewrite (arc_free_not_last _ _ _ Hh d Hs) in H. inversion H; subst s'.
      eapply eff_update; [exact Hh | reflexivity | reflexivity | now left].
  - (* arc_downgrade *)
    destruct Hlive as [h Hh]. rewrite (arc_downgrade_eq _ _ _ _ Hh) in H.
    destruct (arc_downgrade_loop_spec (get_header p) p sched (weak_count h) s h
                Hh eq_refl)
      as [Hspin | (used & rest & fails & v & Hsched & Hfails & _ & _ & Hq & Heq)];
      [rewrite Hspin in H; discriminate |].
    rewrite Heq in H. inversion H; subst r s'.
    eapply eff_update; [exact Hh | reflexivity | |].
    + intros b. cbn [trace]. now apply frees_cas_run.
    + right; right. split; [reflexivity |]. cbn [op_no_stores weak_count].
      intros Hns. rewrite Hsched in Hns. apply no_stores_app in Hns.
      now rewrite (Hq Hns).
  - (* weak_free *)
    destruct Hlive as [h Hh]. apply bind_ret_inv in H as ([] & H & _).
    destruct (weak_free_effect (WeakFree p) _ _ _ _ Hh H)
      as [(Hw & Hheap & Hfr) | (Hw & Hheap & Hfr & Hch)].
    + eapply eff_free; [exact Hh | exact Hw | exact Hheap | exact Hfr | now left].
    + eapply eff_update; [exact Hh | exact Hheap | exact Hfr | exact Hch].
  - (* weak_clone *)
    destruct Hlive as [h Hh]. rewrite (weak_clone_eq _ _ _ Hh) in H. cbv zeta in H.
    destruct (weak_count h >? _); inversion H; subst;
      (eapply eff_update; [exact Hh | reflexivity | reflexivity |];
       right; right; split; [reflexivity | intros _; reflexivity]).
  - (* weak_upgrade *)
    destruct Hlive as [h Hh]. rewrite (weak_upgrade_eq _ _ _ _ Hh) in H.
    destruct (weak_upgrade_loop_effect _ _ _ _ _ _ _ _ Hh H)
      as (v & evs & Hheap & Htrace & Hfr).
    eapply eff_update; [exact Hh | exact Hheap | | now left].
    intros b. rewrite Htrace, frees_app, Hfr. lia.
Qed.

(** ** Runs *)

Lemma run_cons_inv o ops s s' :
  run (o :: ops) s = Ret tt s' ->
  exists r s1, exec o s = Ret r s1 /\ run ops s1 = Ret tt s'.
Proof.
  cbn [run]. unfold bind. destruct (exec o s) as [r s1| |]; try discriminate.
  intros H. now exists r, s1.
Qed.

Lemma run_app ops1 ops2 s :
  run (ops1 ++ ops2) s =
  match run ops1 s with
  | Ret _ s1 => run ops2 s1
  | Undefined => Undefined
  | Spinning => Spinning
  end.
Proof.
  revert s. induction ops1 as [|o ops1 IH]; intros s; [reflexivity |].
  cbn [app run]. unfold bind. destruct (exec o s); auto.
Qed.

Lemma effect_alloc_state base o s s' :
  allocates base o = false ->
  effect o s s' ->
  alloc_state base s -> alloc_state base s'.
Proof.
  intros Hal Heff Hst. unfold alloc_state in *.
  destruct Heff as [Hheap Hfr | n ans Ho Hheap Hfr | p h h' Hh Hheap Hfr _
                   | p h Hh Hw Hheap Hfr _]; rewrite Hheap, Hfr.
  - exact Hst.
  - subst o. cbn in Hal. apply Z.eqb_neq in Hal.
    now rewrite lookup_insert_ne.
  - destruct (Z.eq_dec (get_header p) base) as [He|He].
    + subst base. rewrite lookup_insert_eq. unfold header_of in Hh.
      destruct Hst as [[_ H0] | [Hnone _]]; [left; eauto | congruence].
    + now rewrite lookup_insert_ne.
  - destruct (Z.eqb_spec (get_header p) base) as [He|He].
    + subst base. rewrite lookup_delete_eq. unfold header_of in Hh.
      destruct Hst as [[_ H0] | [Hnone _]]; [right | congruence].
      split; [reflexivity | lia].
    + rewrite lookup_delete_ne by exact He.
      replace (frees base (trace s) + 0)%nat with (frees base (trace s)) by lia.
      exact Hst.
Qed.

Lemma run_alloc_state base ops : forall s s',
  forallb (fun o => negb (allocates base o)) ops = true ->
  run ops s = Ret tt s' ->
  alloc_state base s -> alloc_state base s'.
Proof.
  induction ops as [|o ops IH]; intros s s' Hal Hrun Hst.
  - inversion Hrun; now subst.
  - cbn in Hal. apply andb_true_iff in Hal as [Ho Hal].
    apply negb_true_iff in Ho.
    apply run_cons_inv in Hrun as (r & s1 & Hex & Hrun).
    eapply IH; [exact Hal | exact Hrun |].
    eapply effect_alloc_state; [exact Ho | | exact Hst].
    eapply exec_effect; exact Hex.
Qed.

(** C1.  Deallocation.  (1) [weak_free] hands the block back to the
    allocator if and only if the counter read by its decrement is 1: it then
    removes the allocation and records one call of [free]; otherwise it only
    stores the decremented counter.  (2) Whenever an operation of the
    interface changes the number of times a block was freed, that block is
    the one of the handle [p] it was given, [weak_count] was 1, the block is
    dead afterwards, the number went up by one, and the operation is
    [weak_free p] itself or an [arc_free p] that dropped the last strong
    handle and thereby became the call [weak_free p]: no other operation
    frees.  (3) In a run that returns and does not obtain [base] from the
    allocator again, a live block [base] is freed at most once, and has been
    freed exactly when it is no longer live. *)
Theorem deallocation_only_in_weak_free :
  (forall p s h,
     header_of p s = Some h ->
     (weak_count h = 1 ->
        weak_free p s =
        Ret tt (log (EvFree (get_header p))
                    (set_heap (delete (get_header p) (heap s)) s))) /\
     (weak_count h <> 1 ->
        weak_free p s =
        Ret tt (set_heap (<[get_header p :=
                             mk_header (wrap (weak_count h - 1)) (strong_count h)]>
                            (heap s)) s))) /\
  (forall o s r s' base,
     exec o s = Ret r s' ->
     frees base (trace s') <> frees base (trace s) ->
     exists p h,
       get_header p = base /\ header_of p s = Some h /\ weak_count h = 1 /\
       heap s' !! base = None /\
       frees base (trace s') = S (frees base (trace s)) /\
       (o = WeakFree p \/
        exists d, o = ArcFree p d /\ strong_count h = 1 /\
                  arc_free p d s = weak_free p (after_last_strong p s h d))) /\
  (forall base ops s s',
     is_Some (heap s !! base) ->
     frees base (trace s) = 0%nat ->
     forallb (fun o => negb (allocates base o)) ops = true ->
     run ops s = Ret tt s' ->
     (is_Some (heap s' !! base) /\ frees base (trace s') = 0%nat) \/
     (heap s' !! base = None /\ frees base (trace s') = 1%nat)).
Proof.
  split; [| split].
  - intros p s h Hlive. split; intros Hw.
    + exact (weak_free_last p s h Hlive Hw).
    + exact (weak_free_not_last p s h Hlive Hw).
  - intros o s r s' base Hex Hne.
    destruct (exec_effect _ _ _ _ Hex)
      as [_ Hfr | n ans _ _ Hfr | p h h' _ _ Hfr _ | p h Hh Hw Hheap Hfr Hop];
      try (now rewrite Hfr in Hne).
    rewrite Hfr in Hne. specialize (Hfr base).
    destruct (Z.eqb_spec (get_header p) base) as [He|He]; [| lia].
    exists p, h. repeat split; auto.
    + rewrite Hheap, He. apply lookup_delete_eq.
    + lia.
  - intros base ops s s' Hlive H0 Hal Hrun.
    apply (run_alloc_state base ops s s' Hal Hrun). left. auto.
Qed.

(** ** Invariant A *)

Lemma weak_increment_range o : 0 <= weak_increment o <= 1.
Proof. destruct o; cbn; lia. Qed.

Lemma weak_increments_nonneg ops : 0 <= weak_increments ops.
Proof.
  induction ops as [|o ops IH]; cbn; [lia |].
  pose proof (weak_increment_range o). lia.
Qed.

Lemma effect_weak_bounded k o s s' :
  0 <= k ->
  k + weak_increment o < SIZE_MAX ->
  op_no_stores o = true ->
  effect o s s' ->
  weak_bounded k s -> weak_bounded (k + weak_increment o) s'.
Proof.
  intros Hk Hmax Hns Heff Hb b hb Hlook.
  pose proof (weak_increment_range o) as Hinc.
  destruct Heff as [Hheap _ | n ans _ Hheap _ | p h h' Hh Hheap _ Hch
                   | p h _ _ Hheap _ _]; rewrite Hheap in Hlook.
  - apply Hb in Hlook. lia.
  - apply lookup_insert_Some in Hlook as [[_ <-] | [_ Hlook]].
    + cbn. lia.
    + apply Hb in Hlook. lia.
  - apply lookup_insert_Some in Hlook as [[_ <-] | [_ Hlook]];
      [| apply Hb in Hlook; lia].
    apply Hb in Hh. destruct Hch as [-> | [[Hne ->] | [Hi Hw]]].
    + lia.
    + rewrite wrap_pred by (unfold in_size_t; lia). lia.
    + rewrite (Hw Hns), wrap_succ by (unfold in_size_t; lia). lia.
  - apply lookup_delete_Some in Hlook as [_ Hlook]. apply Hb in Hlook. lia.
Qed.

Lemma run_weak_bounded ops : forall k s s',
  0 <= k ->
  k + weak_increments ops < SIZE_MAX ->
  forallb op_no_stores ops = true ->
  run ops s = Ret tt s' ->
  weak_bounded k s -> weak_bounded (k + weak_increments ops) s'.
Proof.
  induction ops as [|o ops IH]; intros k s s' Hk Hmax Hns Hrun Hb.
  - inversion Hrun; subst. cbn. now rewrite Z.add_0_r.
  - cbn in Hns, Hmax |- *. apply andb_true_iff in Hns as [Ho Hns].
    apply run_cons_inv in Hrun as (r & s1 & Hex & Hrun).
    pose proof (weak_increment_range o) as Hinc.
    pose proof (weak_increments_nonneg ops) as Hincs.
    rewrite Z.add_assoc.
    eapply IH; [| | exact Hns | exact Hrun |]; [lia | lia |].
    eapply effect_weak_bounded; [exact Hk | lia | exact Ho | | exact Hb].
    eapply exec_effect; exact Hex.
Qed.

Lemma creation_weak_bounded base s0 :
  heap s0 = {[ base := mk_header 1 1 ]} -> weak_bounded 0 s0.
Proof.
  intros Hheap b h Hlook. rewrite Hheap in Hlook.
  apply lookup_singleton_Some in Hlook as [_ <-]. cbn. lia.
Qed.

(** [arc_new] on an empty heap leads to the creation state. *)
Lemma arc_new_creation_state n ans e t :
  0 < n <= SIZE_MAX - __ARC_HEADER_SIZE_WITH_PAD ->
  m_ret ans <> NULL ->
  exists s0,
    arc_new n ans (mk_state ∅ e t) =
      Ret (m_ret ans + __ARC_HEADER_SIZE_WITH_PAD) s0 /\
    heap s0 = heap (created (m_ret ans)).
Proof.
  intros Hn Hret.
  destruct (arc_new_in_range n ans (mk_state ∅ e t) Hn Hret) as (Heq & _ & _).
  eexists. split; [exact Heq |]. cbn [heap created].
  apply insert_empty.
Qed.

(** C4, as the code has it.  Start from a creation state (one allocation,
    [strong = 1, weak = 1]) and run any sequence of operations of the
    interface ([arc_new], [arc_clone], [arc_free], [arc_downgrade],
    [weak_free], [weak_clone], [weak_upgrade], on any handles) that returns.
    If the sequence holds fewer than [SIZE_MAX] increments of a weak counter
    ([arc_downgrade] and [weak_clone] calls), so that no weak counter can
    wrap around, then every live header of the final state has
    [weak_count >= 1], hence [weak_count >= 1] whenever
    [strong_count > 0].  The interleaving of the threads is the sequence
    itself: inside one operation the others store nothing. *)
Theorem invariant_A_preserved base s0 ops s' :
  heap s0 = {[ base := mk_header 1 1 ]} ->
  run ops s0 = Ret tt s' ->
  forallb op_no_stores ops = true ->
  weak_increments ops < SIZE_MAX ->
  heap_invariant_A s' /\
  (forall b h, heap s' !! b = Some h -> 1 <= weak_count h).
Proof.
  intros Hheap Hrun Hns Hmax.
  assert (Hb : weak_bounded (0 + weak_increments ops) s').
  { eapply run_weak_bounded; [lia | lia | exact Hns | exact Hrun |].
    now apply (creation_weak_bounded base). }
  split.
  - intros b h Hlook _. apply Hb in Hlook. lia.
  - intros b h Hlook. apply Hb in Hlook. lia.
Qed.

(** [n] undisturbed downgrades in a row add [n] to the weak counter, as
    long as it does not pass [SIZE_MAX]. *)
Lemma repeat_downgrade p : forall (n : nat) s h,
  header_of p s = Some h ->
  in_size_t (weak_count h) ->
  weak_count h + Z.of_nat n <= SIZE_MAX ->
  exists s',
    run (repeat (ArcDowngrade p [quiet]) n) s = Ret tt s' /\
    header_of p s' = Some (mk_header (weak_count h + Z.of_nat n) (strong_count h)).
Proof.
  induction n as [|n IH]; intros s h Hlive Hw Hmax.
  - exists s. split; [reflexivity |].
    now rewrite Z.add_0_r, header_eta.
  - rewrite Nat2Z.inj_succ in Hmax |- *.
    cbn [repeat run exec]. unfold bind at 1.
    rewrite (arc_downgrade_quiet _ _ _ Hlive).
    rewrite wrap_succ by (auto; lia).
    match goal with |- context [run _ ?s1] => set (st := s1) end.
    assert (Hlive1 : header_of p st =
                     Some (mk_header (weak_count h + 1) (strong_count h)))
      by (unfold header_of, st; cbn [heap]; apply lookup_insert_eq).
    destruct (IH st _ Hlive1) as (s' & Hrun & Hh');
      cbn [weak_count strong_count] in *.
    + destruct Hw. unfold in_size_t. lia.
    + lia.
    + exists s'. split; [exact Hrun |]. rewrite Hh'. f_equal. f_equal. lia.
Qed.

(** C4 as stated fails: [SIZE_MAX] downgrades of the handle created by
    [arc_new], every one of them successful, lead from the creation state to
    a live header with [strong_count = 1] and [weak_count = 0]. *)
Lemma invariant_A_broken_by_wrap :
  let p := 4096 + __ARC_HEADER_SIZE_WITH_PAD in
  let ops := repeat (ArcDowngrade p [quiet]) (Z.to_nat (SIZE_MAX - 1))
             ++ [ArcDowngrade p [quiet]] in
  exists s',
    run ops (created 4096) = Ret tt s' /\
    header_of p s' = Some (mk_header 0 1) /\
    ~ heap_invariant_A s'.
Proof.
  intros p ops. unfold ops. clear ops.
  assert (Hlive : header_of p (created 4096) = Some (mk_header 1 1))
    by reflexivity.
  assert (Hn : Z.of_nat (Z.to_nat (SIZE_MAX - 1)) = SIZE_MAX - 1)
    by (apply Z2Nat.id; rewrite size_max_value; lia).
  destruct (repeat_downgrade p (Z.to_nat (SIZE_MAX - 1)) (created 4096)
              (mk_header 1 1) Hlive) as (s1 & Hrun & Hh1).
  - cbn [weak_count]. unfold in_size_t. rewrite size_max_value. lia.
  - cbn [weak_count]. rewrite Hn. lia.
  - cbn [weak_count strong_count] in Hh1. rewrite Hn in Hh1.
    replace (1 + (SIZE_MAX - 1)) with SIZE_MAX in Hh1 by lia.
    rewrite run_app, Hrun. cbn [run exec]. unfold bind.
    rewrite (arc_downgrade_quiet _ _ _ Hh1). cbn [weak_count strong_count].
    rewrite wrap_succ_max. eexists. split; [reflexivity |].
    assert (Hh' : forall m e t,
              header_of p (mk_state (<[get_header p := mk_header 0 1]> m) e t) =
              Some (mk_header 0 1))
      by (intros; unfold header_of; cbn [heap]; apply lookup_insert_eq).
    split; [apply Hh' |].
    intros Hinv. specialize (Hinv (get_header p) (mk_header 0 1) (Hh' _ _ _)).
    unfold invariant_A in Hinv. cbn in Hinv. lia.
Qed.

(** ** Counting strong handles *)

Lemma clones_cons o ops :
  clones (o :: ops) = (if is_clone o then 1 else 0) + clones ops.
Proof. unfold clones. cbn. destruct (is_clone o); cbn [length]; lia. Qed.

Lemma strong_frees_cons o ops :
  strong_frees (o :: ops) = (if is_clone o then 0 else 1) + strong_frees ops.
Proof. unfold strong_frees. cbn. destruct (is_clone o); cbn [negb length]; lia. Qed.

Lemma clone_free_run_count p (Hp : p <> NULL) s ops s' :
  clone_free_run p s ops s' ->
  forall h,
    header_of p s = Some h ->
    1 <= strong_count h <= SIZE_MAX ->
    exists h',
      header_of p s' = Some h' /\
      weak_count h' = weak_count h /\
      strong_count h' = strong_count h + clones ops - strong_frees ops /\
      1 <= strong_count h' <= SIZE_MAX.
Proof.
  induction 1 as [s | s s1 s2 ops Hclone _ IH | s h0 d s1 s2 ops Hh0 Hne Hfree _ IH];
    intros h Hh Hrange.
  - exists h. unfold clones, strong_frees. cbn. repeat split; auto; lia.
  - rewrite (arc_clone_eq _ _ _ Hh) in Hclone. cbv zeta in Hclone.
    destruct (strong_count h >? __ARC_WEAK_MAX_REFS - 1) eqn:Hgt;
      [inversion Hclone; congruence |].
    rewrite Z.gtb_ltb in Hgt. apply Z.ltb_ge in Hgt.
    pose proof max_refs_number as Hmax. pose proof size_max_value as Hsm.
    rewrite wrap_succ in Hclone by (unfold in_size_t; lia).
    inversion Hclone; subst s1; clear Hclone.
    destruct (IH (mk_header (weak_count h) (strong_count h + 1)))
      as (h' & Hh' & Hw' & Hs' & Hr').
    + unfold header_of. cbn [heap set_heap]. apply lookup_insert_eq.
    + cbn. lia.
    + exists h'. rewrite clones_cons, strong_frees_cons. cbn in *.
      repeat split; auto; lia.
  - rewrite Hh in Hh0. inversion Hh0; subst h0.
    rewrite (arc_free_not_last _ _ _ Hh d Hne) in Hfree.
    rewrite wrap_pred in Hfree by (unfold in_size_t; lia).
    inversion Hfree; subst s1; clear Hfree.
    destruct (IH (mk_header (weak_count h) (strong_count h - 1)))
      as (h' & Hh' & Hw' & Hs' & Hr').
    + unfold header_of. cbn [heap set_heap]. apply lookup_insert_eq.
    + cbn. lia.
    + exists h'. rewrite clones_cons, strong_frees_cons. cbn in *.
      repeat split; auto; lia.
Qed.

(** C9.  From a state in which the allocation of [p] has
    [strong_count = 1] (the creation state), every sequence of successful
    [arc_clone] and non-final [arc_free] on [p] leaves
    [strong_count = 1 + #clones - #frees]; that number never goes below 1
    along such a sequence, and [weak_count] is not touched. *)
Theorem strong_count_after_clones_and_frees p s h ops s' :
  p <> NULL ->
  header_of p s = Some h ->
  strong_count h = 1 ->
  clone_free_run p s ops s' ->
  exists h',
    header_of p s' = Some h' /\
    strong_count h' = 1 + clones ops - strong_frees ops /\
    1 <= 1 + clones ops - strong_frees ops /\
    weak_count h' = weak_count h.
Proof.
  intros Hp Hh H1 Hrun.
  destruct (clone_free_run_count p Hp s ops s' Hrun h Hh)
    as (h' & Hh' & Hw' & Hs' & Hr').
  - rewrite H1, size_max_value. lia.
  - exists h'. rewrite H1 in Hs'. repeat split; auto; lia.
Qed.

(** ** The limit of the counters, at the limit *)

(** C5 as stated fails, twice.  At [strong_count = SIZE_MAX/2], a value that
    does not exceed [SIZE_MAX/2], [arc_clone] fails with [ETOOMANYREFS]
    (and has stored [SIZE_MAX/2 + 1]).  At [weak_count = SIZE_MAX] the
    increment of [weak_clone] wraps the counter around to 0. *)
Lemma clone_fails_at_the_ceiling :
  let s := mk_state {[ 4096 := mk_header 1 (SIZE_MAX / 2) ]} 0 [] in
  let s2 := mk_state {[ 4096 := mk_header SIZE_MAX 1 ]} 0 [] in
  header_of 4112 s = Some (mk_header 1 (SIZE_MAX / 2)) /\
  ~ (SIZE_MAX / 2 < strong_count (mk_header 1 (SIZE_MAX / 2))) /\
  arc_clone 4112 s =
  Ret NULL (mk_state {[ 4096 := mk_header 1 (SIZE_MAX / 2 + 1) ]} ETOOMANYREFS []) /\
  header_of 4112 s2 = Some (mk_header SIZE_MAX 1) /\
  weak_clone 4112 s2 =
  Ret NULL (mk_state {[ 4096 := mk_header 0 1 ]} ETOOMANYREFS []).
Proof.
  intros s s2. split; [reflexivity |]. split; [cbn; lia |].
  split; [vm_compute; reflexivity |]. split; [reflexivity |].
  vm_compute; reflexivity.
Qed.

(** C3 as stated fails at the limit.  With [strong_count = SIZE_MAX/2], a
    value that is greater than 0 and does not exceed the ceiling
    [SIZE_MAX/2], [weak_upgrade] does not succeed: whatever the schedule, it
    returns [NULL] with [ETOOMANYREFS], attempts no compare-and-swap and
    leaves the counter as it is. *)
Lemma weak_upgrade_at_the_ceiling :
  let h := mk_header 1 (SIZE_MAX / 2) in
  let s := mk_state {[ 4096 := h ]} 0 [] in
  header_of 4112 s = Some h /\
  0 < strong_count h /\
  ~ (SIZE_MAX / 2 < strong_count h) /\
  weak_upgrade 4112 [quiet] s = Ret NULL (mk_state {[ 4096 := h ]} ETOOMANYREFS []) /\
  forall sched,
    weak_upgrade 4112 sched s = Ret NULL (mk_state {[ 4096 := h ]} ETOOMANYREFS []).
Proof.
  intros h s.
  assert (Hlive : header_of 4112 s = Some h) by reflexivity.
  assert (Hall : forall sched,
            weak_upgrade 4112 sched s =
            Ret NULL (mk_state {[ 4096 := h ]} ETOOMANYREFS [])).
  { intros sched. rewrite (weak_upgrade_eq _ _ _ _ Hlive).
    rewrite weak_upgrade_loop_overflow by (vm_compute; reflexivity).
    reflexivity. }
  split; [exact Hlive |]. split; [vm_compute; reflexivity |].
  split; [cbn; lia |]. split; [apply Hall | exact Hall].
Qed.

(** C8 as stated fails at the end of [size_t].  With
    [weak_count = SIZE_MAX] on a live allocation, [arc_downgrade] returns
    the handle and leaves [weak_count = 0]: the counter has not been
    incremented by 1, and the claim of the strong handles is gone. *)
Lemma arc_downgrade_wraps_at_size_max :
  let h := mk_header SIZE_MAX 1 in
  let s := mk_state {[ 4096 := h ]} 0 [] in
  header_of 4112 s = Some h /\
  1 <= weak_count h /\
  arc_downgrade 4112 [quiet] s =
  Ret 4112 (mk_state {[ 4096 := mk_header 0 1 ]} 0
              [EvCas 4096 weak_count_f SIZE_MAX SIZE_MAX true]) /\
  0 <> weak_count h + 1.
Proof.
  intros h s. split; [reflexivity |]. split; [vm_compute; discriminate |].
  split; [vm_compute; reflexivity | vm_compute; discriminate].
Qed.

(** ** Instances *)

Lemma deallocation_only_in_weak_free_witness :
  header_of 4112 (created 4096) = Some (mk_header 1 1) /\
  weak_count (mk_header 1 1) = 1 /\
  weak_free 4112 (created 4096) =
  Ret tt (log (EvFree (get_header 4112))
              (set_heap (delete (get_header 4112) (heap (created 4096)))
                        (created 4096))).
Proof.
  split; [reflexivity |]. split; [reflexivity |].
  apply (proj1 (proj1 deallocation_only_in_weak_free
                      4112 (created 4096) (mk_header 1 1) eq_refl)).
  reflexivity.
Defined.

Lemma arc_free_spec_witness :
  let p := 4112 in
  let d := 7 in
  let s := created 4096 in
  let h := mk_header 1 1 in
  header_of p s = Some h /\
  wf_header h /\
  ((strong_count h = 1 ->
     arc_free p d s = weak_free p (after_last_strong p s h d) /\
     trace (after_last_strong p s h d) =
       trace s ++ (if d =? NULL then [] else [EvDestructor d p]) /\
     header_of p (after_last_strong p s h d) = Some (mk_header (weak_count h) 0) /\
     exists s', arc_free p d s = Ret tt s' /\
       destructor_calls (trace s') =
       (destructor_calls (trace s) + (if (d =? NULL)%Z then 0 else 1))%nat) /\
  (1 < strong_count h ->
     arc_free p d s =
     Ret tt (mk_state (<[get_header p :=
                          mk_header (weak_count h) (strong_count h - 1)]> (heap s))
                      (errno s) (trace s)))).
Proof.
  intros p d s h. split; [reflexivity |]. split; [in_range |].
  apply (arc_free_spec p d s h); [reflexivity | in_range].
Defined.

Lemma clone_overflow_guard_witness :
  let p := 4112 in
  let s := created 4096 in
  let h := mk_header 1 1 in
  header_of p s = Some h /\ wf_header h /\ p <> NULL /\
  arc_clone p s =
  Ret p (mk_state (<[get_header p :=
                      mk_header (weak_count h) (strong_count h + 1)]> (heap s))
                  (errno s) (trace s)) /\
  weak_clone p s =
  Ret p (mk_state (<[get_header p :=
                      mk_header (weak_count h + 1) (strong_count h)]> (heap s))
                  (errno s) (trace s)).
Proof.
  intros p s h.
  assert (Hlive : header_of p s = Some h) by reflexivity.
  assert (Hwf : wf_header h) by in_range.
  assert (Hp : p <> NULL) by discriminate.
  split; [exact Hlive |]. split; [exact Hwf |]. split; [exact Hp |].
  destruct (clone_overflow_guard p s h Hlive Hwf Hp)
    as (_ & Hstrong & _ & Hweak & _).
  split.
  - apply Hstrong. vm_compute. reflexivity.
  - apply Hweak. vm_compute. reflexivity.
Defined.

Lemma weak_upgrade_spec_witness :
  let p := 4112 in
  let s := created 4096 in
  let h := mk_header 1 1 in
  let sched := [mk_attempt None true; quiet] in
  header_of p s = Some h /\ wf_header h /\ p <> NULL /\
  calm sched = true /\ 0 < strong_count h < SIZE_MAX / 2 /\
  weak_upgrade p sched s <> Undefined /\
  (exists r s', weak_upgrade p sched s = Ret r s') /\
  exists fails,
    forallb is_failed_cas fails = true /\
    weak_upgrade p sched s =
    Ret p (mk_state (<[get_header p :=
                        mk_header (weak_count h) (strong_count h + 1)]> (heap s))
                    (errno s)
                    (trace s ++ fails ++
                     [EvCas (get_header p) strong_count_f
                            (strong_count h) (strong_count h) true])).
Proof.
  intros p s h sched.
  assert (Hlive : header_of p s = Some h) by reflexivity.
  assert (Hwf : wf_header h) by in_range.
  assert (Hp : p <> NULL) by discriminate.
  assert (Hcalm : calm sched = true) by reflexivity.
  assert (Hrange : 0 < strong_count h < SIZE_MAX / 2)
    by (split; vm_compute; reflexivity).
  split; [exact Hlive |]. split; [exact Hwf |]. split; [exact Hp |].
  split; [exact Hcalm |]. split; [exact Hrange |].
  destruct (weak_upgrade_spec p sched s h Hlive Hwf Hp)
    as (Hdef & Hterm & _ & Hok & _).
  split; [exact Hdef |]. split.
  - apply Hterm. right; left. reflexivity.
  - exact (Hok Hcalm Hrange).
Defined.

Lemma weak_upgrade_failure_stores_nothing_witness :
  let p := 4112 in
  let s := mk_state {[ 4096 := mk_header 1 0 ]} 0 [] in
  let h := mk_header 1 0 in
  let sched := [quiet] in
  let s' := set_errno ENOENT s in
  header_of p s = Some h /\ wf_header h /\
  weak_upgrade p sched s = Ret NULL s' /\ p <> NULL /\
  (errno s' = ENOENT \/ errno s' = ETOOMANYREFS) /\
  (no_stores sched = true -> heap s' = heap s).
Proof.
  intros p s h sched s'.
  assert (Hlive : header_of p s = Some h) by reflexivity.
  assert (Hwf : wf_header h) by in_range.
  assert (Hret : weak_upgrade p sched s = Ret NULL s') by reflexivity.
  assert (Hp : p <> NULL) by discriminate.
  split; [exact Hlive |]. split; [exact Hwf |]. split; [exact Hret |].
  split; [exact Hp |].
  destruct (weak_upgrade_failure_stores_nothing p sched s h s' Hlive Hwf Hret Hp)
    as (Herr & _ & _ & _ & Hheap & _).
  split; [exact Herr | exact Hheap].
Defined.

Lemma arc_downgrade_spec_witness :
  let p := 4112 in
  let s := created 4096 in
  let h := mk_header 1 1 in
  let sched := [mk_attempt None true; quiet] in
  header_of p s = Some h /\ wf_header h /\ 1 <= weak_count h /\
  calm sched = true /\ weak_count h < SIZE_MAX /\
  arc_downgrade p sched s <> Undefined /\
  (exists s', arc_downgrade p sched s = Ret p s') /\
  exists fails,
    forallb is_failed_cas fails = true /\
    arc_downgrade p sched s =
    Ret p (mk_state (<[get_header p :=
                        mk_header (weak_count h + 1) (strong_count h)]> (heap s))
                    (errno s)
                    (trace s ++ fails ++
                     [EvCas (get_header p) weak_count_f
                            (weak_count h) (weak_count h) true])).
Proof.
  intros p s h sched.
  assert (Hlive : header_of p s = Some h) by reflexivity.
  assert (Hwf : wf_header h) by in_range.
  assert (Hw : 1 <= weak_count h) by (vm_compute; discriminate).
  assert (Hcalm : calm sched = true) by reflexivity.
  assert (Hlt : weak_count h < SIZE_MAX) by (vm_compute; reflexivity).
  split; [exact Hlive |]. split; [exact Hwf |]. split; [exact Hw |].
  split; [exact Hcalm |]. split; [exact Hlt |].
  destruct (arc_downgrade_spec p sched s h Hlive Hwf Hw)
    as (Hdef & Hterm & _ & _ & Hok & _).
  split; [exact Hdef |]. split.
  - apply Hterm. right; left. reflexivity.
  - exact (Hok Hcalm Hlt).
Defined.

Lemma invariant_A_preserved_witness :
  let ops := [ArcDowngrade 4112 [mk_attempt None true; quiet];
              WeakClone 4112; ArcClone 4112; WeakUpgrade 4112 [quiet];
              ArcFree 4112 0; WeakFree 4112;
              ArcNew 8 (mk_answer 8192 (mk_header 0 0))] in
  exists s',
    heap (created 4096) = {[ 4096 := mk_header 1 1 ]} /\
    run ops (created 4096) = Ret tt s' /\
    forallb op_no_stores ops = true /\
    weak_increments ops < SIZE_MAX /\
    heap_invariant_A s' /\
    (forall b h, heap s' !! b = Some h -> 1 <= weak_count h).
Proof.
  intros ops. eexists. split; [reflexivity |].
  split; [vm_compute; reflexivity |].
  split; [reflexivity |]. split; [vm_compute; reflexivity |].
  apply (invariant_A_preserved 4096 (created 4096) ops);
    [reflexivity | vm_compute; reflexivity | reflexivity
    | vm_compute; reflexivity].
Defined.

Lemma strong_count_after_clones_and_frees_witness :
  let p := 4112 in
  let s := created 4096 in
  let h := mk_header 1 1 in
  let ops := [SClone; SClone; SFree 0; SClone; SFree 7] in
  exists s',
    p <> NULL /\ header_of p s = Some h /\ strong_count h = 1 /\
    clone_free_run p s ops s' /\
    exists h',
      header_of p s' = Some h' /\
      strong_count h' = 1 + clones ops - strong_frees ops /\
      1 <= 1 + clones ops - strong_frees ops /\
      weak_count h' = weak_count h.
Proof.
  intros p s h ops.
  assert (Hrun : clone_free_run p s ops
                   (mk_state {[ 4096 := mk_header 1 2 ]} 0 [])).
  { eapply cfr_clone; [vm_compute; reflexivity |].
    eapply cfr_clone; [vm_compute; reflexivity |].
    eapply cfr_free;
      [vm_compute; reflexivity | vm_compute; discriminate
      | vm_compute; reflexivity |].
    eapply cfr_clone; [vm_compute; reflexivity |].
    eapply cfr_free;
      [vm_compute; reflexivity | vm_compute; discriminate
      | vm_compute; reflexivity |].
    apply cfr_nil. }
  eexists. split; [discriminate |]. split; [reflexivity |].
  split; [reflexivity |]. split; [exact Hrun |].
  apply (strong_count_after_clones_and_frees p s h ops _);
    [discriminate | reflexivity | reflexivity | exact Hrun].
Defined.

(** * Further properties of the code *)

(** ** Layout *)

Lemma header_pad_is_header_size_with_pad :
  __ARC_HEADER_SIZE_WITH_PAD =
  header_size_with_pad sizeof_uintptr_t sizeof_arc_header_t.
Proof. reflexivity. Qed.

Lemma wrap_land_ones z : wrap z = Z.land z (Z.ones size_bits).
Proof. unfold wrap. symmetry. apply Z.land_ones. discriminate. Qed.

(** Masking with [~(2^k - 1)] clears the [k] low bits. *)
Lemma land_align_mask k x :
  0 <= k < size_bits ->
  in_size_t x ->
  Z.land x (wrap (Z.lnot (2 ^ k - 1))) = 2 ^ k * (x / 2 ^ k).
Proof.
  intros Hk Hx.
  rewrite wrap_land_ones, (Z.land_comm (Z.lnot _)), Z.land_assoc.
  rewrite <- wrap_land_ones, (wrap_small x Hx).
  rewrite <- Z.ldiff_land.
  replace (2 ^ k - 1) with (Z.ones k) by (rewrite Z.ones_equiv; lia).
  rewrite Z.ldiff_ones_r by lia.
  rewrite Z.shiftl_mul_pow2, Z.shiftr_div_pow2 by lia. lia.
Qed.

(** X1.  The padded header size is the header size rounded up to the
    pointer size: for a pointer size [2^k] and every header size for which
    the sum does not overflow, [(size + (align - 1)) & ~(align - 1)] is a
    multiple of [align], is at least [size], and exceeds it by less than
    [align]. *)
Theorem header_size_with_pad_rounds_up k size :
  0 <= k < size_bits ->
  0 <= size ->
  size + (2 ^ k - 1) <= SIZE_MAX ->
  let padded := header_size_with_pad (2 ^ k) size in
  padded mod 2 ^ k = 0 /\
  size <= padded < size + 2 ^ k /\
  padded = 2 ^ k * ((size + 2 ^ k - 1) / 2 ^ k).
Proof.
  intros Hk Hsize Hmax padded.
  assert (Hpow : 0 < 2 ^ k) by (apply Z.pow_pos_nonneg; lia).
  assert (Hx : in_size_t (size + (2 ^ k - 1))) by (unfold in_size_t; lia).
  assert (Heq : padded = 2 ^ k * ((size + (2 ^ k - 1)) / 2 ^ k)).
  { unfold padded, header_size_with_pad.
    rewrite (wrap_small _ Hx). now apply land_align_mask. }
  pose proof (Z.div_mod (size + (2 ^ k - 1)) (2 ^ k)) as Hdm.
  pose proof (Z.mod_pos_bound (size + (2 ^ k - 1)) (2 ^ k) Hpow) as Hmod.
  split; [| split].
  - rewrite Heq, Z.mul_comm. apply Z.mod_mul. lia.
  - rewrite Heq. lia.
  - rewrite Heq. f_equal. f_equal. lia.
Qed.

Lemma header_size_with_pad_rounds_up_witness :
  0 <= 3 < size_bits /\ 0 <= 16 /\ 16 + (2 ^ 3 - 1) <= SIZE_MAX /\
  header_size_with_pad (2 ^ 3) 16 mod 2 ^ 3 = 0 /\
  16 <= header_size_with_pad (2 ^ 3) 16 < 16 + 2 ^ 3.
Proof.
  assert (H1 : 0 <= 3 < size_bits) by (split; vm_compute; first [reflexivity | discriminate]).
  assert (H2 : 0 <= 16) by (vm_compute; discriminate).
  assert (H3 : 16 + (2 ^ 3 - 1) <= SIZE_MAX) by (vm_compute; discriminate).
  destruct (header_size_with_pad_rounds_up 3 16 H1 H2 H3) as (Hm & Hr & _).
  split; [exact H1 |]. split; [exact H2 |]. split; [exact H3 |].
  split; [exact Hm | exact Hr].
Defined.

(** ** Creation, when it succeeds and when it does not *)

(** X2.  Creation for every payload size [n] whose sum with the padded
    header size fits in [size_t], when [malloc] answers a block: [malloc]
    was asked once, for [header + n] bytes; the handle is [base + header];
    the header, with both counters at 1, is found again from the handle by
    [get_header]; the header record fits before the payload and the payload
    ends where the block ends; a pointer-aligned block gives a
    pointer-aligned payload; no other allocation is touched. *)
Theorem arc_new_layout n ans s :
  0 < n <= SIZE_MAX - __ARC_HEADER_SIZE_WITH_PAD ->
  m_ret ans <> NULL ->
  exists s',
    let base := m_ret ans in
    let handle := base + __ARC_HEADER_SIZE_WITH_PAD in
    arc_new n ans s = Ret handle s' /\
    trace s' = trace s ++ [EvMalloc (__ARC_HEADER_SIZE_WITH_PAD + n) base] /\
    get_header handle = base /\
    header_of handle s' = Some (mk_header 1 1) /\
    base + sizeof_arc_header_t <= handle /\
    handle + n = base + (__ARC_HEADER_SIZE_WITH_PAD + n) /\
    (base mod sizeof_uintptr_t = 0 -> handle mod sizeof_uintptr_t = 0) /\
    (forall b, b <> base -> heap s' !! b = heap s !! b).
Proof.
  intros Hn Hret.
  destruct (arc_new_in_range n ans s Hn Hret) as (Heq & Hget & Hhdr).
  eexists. cbv zeta. split; [exact Heq |]. cbn [trace heap].
  split; [reflexivity |]. split; [exact Hget |]. split; [exact Hhdr |].
  rewrite header_pad_value. unfold sizeof_arc_header_t, sizeof_uintptr_t.
  split; [lia |]. split; [lia |]. split.
  - intros Hal. replace 16 with (2 * 8) by reflexivity.
    now rewrite Z.mod_add by lia.
  - intros b Hb. now rewrite lookup_insert_ne.
Qed.

Lemma arc_new_layout_witness :
  let ans := mk_answer 4096 (mk_header 7 9) in
  let s := mk_state ∅ 0 [] in
  0 < 4 <= SIZE_MAX - __ARC_HEADER_SIZE_WITH_PAD /\
  m_ret ans <> NULL /\
  exists s',
    arc_new 4 ans s = Ret 4112 s' /\
    header_of 4112 s' = Some (mk_header 1 1).
Proof.
  intros ans s.
  assert (Hn : 0 < 4 <= SIZE_MAX - __ARC_HEADER_SIZE_WITH_PAD)
    by (split; vm_compute; first [reflexivity | discriminate]).
  assert (Hret : m_ret ans <> NULL) by discriminate.
  split; [exact Hn |]. split; [exact Hret |].
  destruct (arc_new_layout 4 ans s Hn Hret) as (s' & Heq & _ & _ & Hhdr & _).
  exists s'. split; [exact Heq | exact Hhdr].
Defined.

(** X3.  [arc_new] returns [NULL] in two cases only, a size of 0 and a
    [NULL] answer of [malloc], and then the heap is as before: no header
    has been created.  (Pointers are not negative.) *)
Theorem arc_new_null_iff n ans s r s' :
  0 <= m_ret ans ->
  arc_new n ans s = Ret r s' ->
  (r = NULL <-> n = 0 \/ m_ret ans = NULL) /\
  (r = NULL -> heap s' = heap s) /\
  (r <> NULL ->
     r = m_ret ans + __ARC_HEADER_SIZE_WITH_PAD /\
     header_of r s' = Some (mk_header 1 1)).
Proof.
  intros Hpos H. rewrite arc_new_eq in H.
  pose proof header_pad_value as Hpad.
  assert (Hh : forall m e t,
            header_of (m_ret ans + __ARC_HEADER_SIZE_WITH_PAD)
              (mk_state (<[m_ret ans := mk_header 1 1]> m) e t) =
            Some (mk_header 1 1)).
  { intros. unfold header_of. rewrite get_header_payload. cbn [heap].
    apply lookup_insert_eq. }
  destruct (Z.eqb_spec n 0) as [Hn|Hn].
  { inversion H; subst. split; [tauto |]. split; [reflexivity |].
    intros Hr. now destruct Hr. }
  cbv zeta in H. destruct (Z.eqb_spec (m_ret ans) NULL) as [Hr|Hr];
    inversion H; subst r s'; clear H.
  - split; [tauto |]. split; [reflexivity |].
    intros Hr'. now destruct Hr'.
  - assert (Hnn : m_ret ans + __ARC_HEADER_SIZE_WITH_PAD <> NULL)
      by (unfold NULL in *; lia).
    split; [tauto |]. split; [intros Hnull; now destruct Hnn |].
    intros _. split; [reflexivity | apply Hh].
Qed.

Lemma arc_new_null_iff_witness :
  let ans := mk_answer NULL (mk_header 0 0) in
  let s := mk_state ∅ 0 [] in
  let s' := mk_state ∅ 0 [EvMalloc 24 NULL] in
  0 <= m_ret ans /\
  arc_new 8 ans s = Ret NULL s' /\
  (NULL = NULL <-> 8 = 0 \/ m_ret ans = NULL) /\
  (NULL = NULL -> heap s' = heap s).
Proof.
  intros ans s s'.
  assert (Hpos : 0 <= m_ret ans) by (vm_compute; discriminate).
  assert (Heq : arc_new 8 ans s = Ret NULL s') by reflexivity.
  split; [exact Hpos |]. split; [exact Heq |].
  destruct (arc_new_null_iff 8 ans s NULL s' Hpos Heq) as (Hiff & Hheap & _).
  split; [exact Hiff | exact Hheap].
Defined.

(** ** What an operation leaves alone *)

Lemma weak_upgrade_loop_result hdr p sched : forall snapshot s r s',
  weak_upgrade_loop hdr p snapshot sched s = Ret r s' ->
  (r = p /\ errno s' = errno s) \/
  (r = NULL /\ (errno s' = ENOENT \/ errno s' = ETOOMANYREFS)).
Proof.
  induction sched as [|a sched IH]; intros snapshot s r s' H;
    destruct (Z.eq_dec snapshot 0) as [H0|H0];
    try (subst snapshot; rewrite weak_upgrade_loop_zero in H;
         inversion H; subst; right; cbn; auto);
    destruct (Z_lt_le_dec (__ARC_WEAK_MAX_REFS - 1) snapshot) as [Hov|Hov];
    try (rewrite weak_upgrade_loop_overflow in H by exact Hov;
         inversion H; subst; right; cbn; auto).
  - now rewrite weak_upgrade_loop_nil in H.
  - destruct (heap s !! hdr) as [h|] eqn:Hlive.
    + rewrite (weak_upgrade_loop_step hdr p snapshot a sched s h Hlive H0 Hov) in H.
      destruct (_ && _).
      * inversion H; subst. left. auto.
      * apply IH in H. exact H.
    + exfalso. rewrite weak_upgrade_loop_unfold in H.
      replace (snapshot =? 0) with false in H by (symmetry; now apply Z.eqb_neq).
      replace (snapshot >? __ARC_WEAK_MAX_REFS - 1) with false in H
        by (symmetry; rewrite Z.gtb_ltb; now apply Z.ltb_ge).
      unfold bind, interfere in H.
      destruct (env_store a); unfold atomic_store, ret in H;
        rewrite ?Hlive in H; try discriminate.
      unfold atomic_compare_exchange_weak_explicit, bind in H.
      rewrite load_dead in H by exact Hlive. discriminate.
Qed.

Lemma exec_touches o s r s' :
  exec o s = Ret r s' ->
  heap s' = heap s \/
  (exists h', heap s' = <[block_of o := h']> (heap s)) \/
  heap s' = delete (block_of o) (heap s).
Proof.
  intros H. pose proof (exec_live _ _ _ _ H) as Hlive.
  destruct o as [n ans|p|p d|p sched|p|p|p sched]; cbn [exec block_of] in *.
  - rewrite arc_new_eq in H. destruct (n =? 0); [inversion H; subst; auto |].
    cbv zeta in H. destruct (m_ret ans =? NULL); inversion H; subst; cbn [heap];
      eauto.
  - destruct Hlive as [h Hh]. rewrite (arc_clone_eq _ _ _ Hh) in H. cbv zeta in H.
    destruct (strong_count h >? _); inversion H; subst;
      cbn [heap set_errno set_heap]; eauto.
  - destruct Hlive as [h Hh]. apply bind_ret_inv in H as ([] & H & _).
    destruct (Z.eq_dec (strong_count h) 1) as [Hs|Hs].
    + rewrite (arc_free_last _ _ _ Hh d Hs) in H.
      pose proof (after_last_strong_header p s h d) as Hh2.
      assert (Hheap2 : heap (after_last_strong p s h d) =
                       <[get_header p := mk_header (weak_count h) 0]> (heap s))
        by (unfold after_last_strong; now destruct (d =? NULL)).
      destruct (Z.eq_dec (weak_count h) 1) as [Hw|Hw].
      * rewrite (weak_free_last _ _ _ Hh2 Hw) in H. inversion H; subst s'.
        right; right. cbn [heap log set_heap].
        now rewrite Hheap2, delete_insert_eq.
      * rewrite (weak_free_not_last _ _ _ Hh2 Hw) in H. inversion H; subst s'.
        right; left. cbn [heap set_heap]. rewrite Hheap2, insert_insert_eq.
        eauto.
    + rewrite (arc_free_not_last _ _ _ Hh d Hs) in H. inversion H; subst s'.
      cbn [heap set_heap]. eauto.
  - destruct Hlive as [h Hh]. rewrite (arc_downgrade_eq _ _ _ _ Hh) in H.
    destruct (arc_downgrade_loop_spec (get_header p) p sched (weak_count h) s h
                Hh eq_refl)
      as [Hspin | (used & rest & fails & v & _ & _ & _ & _ & _ & Heq)];
      [rewrite Hspin in H; discriminate |].
    rewrite Heq in H. inversion H; subst. cbn [heap]. eauto.
  - destruct Hlive as [h Hh]. apply bind_ret_inv in H as ([] & H & _).
    destruct (Z.eq_dec (weak_count h) 1) as [Hw|Hw].
    + rewrite (weak_free_last _ _ _ Hh Hw) in H. inversion H; subst s'. auto.
    + rewrite (weak_free_not_last _ _ _ Hh Hw) in H. inversion H; subst s'.
      cbn [heap set_heap]. eauto.
  - destruct Hlive as [h Hh]. rewrite (weak_clone_eq _ _ _ Hh) in H. cbv zeta in H.
    destruct (weak_count h >? _); inversion H; subst;
      cbn [heap set_errno set_heap]; eauto.
  - destruct Hlive as [h Hh]. rewrite (weak_upgrade_eq _ _ _ _ Hh) in H.
    destruct (weak_upgrade_loop_effect _ _ _ _ _ _ _ _ Hh H)
      as (v & evs & Hheap & _). eauto.
Qed.

(** X4.  Allocations are independent: the code of an operation reads and
    writes the header of the block it works on and nothing else.  Every
    other block that was live stays live with the same header, every other
    block that was dead stays dead; this holds under any schedule of
    interference in the loops.  For [arc_free] this is stated of the calls
    that run no destructor: the destructor is code of the caller, and what
    it does to other blocks is not the doing of [arc_free]. *)
Theorem exec_frame o s r s' b :
  exec o s = Ret r s' ->
  match o with
  | ArcFree _ _ => destructor_calls (trace s') = destructor_calls (trace s)
  | _ => True
  end ->
  b <> block_of o ->
  heap s' !! b = heap s !! b.
Proof.
  intros H _ Hb.
  destruct (exec_touches _ _ _ _ H) as [-> | [[h' ->] | ->]].
  - reflexivity.
  - now rewrite lookup_insert_ne.
  - now rewrite lookup_delete_ne.
Qed.

Lemma exec_frame_witness :
  let s := mk_state {[ 4096 := mk_header 1 2; 8192 := mk_header 3 2 ]} 0 [] in
  exists s',
    exec (ArcFree 4112 7) s = Ret NULL s' /\
    destructor_calls (trace s') = destructor_calls (trace s) /\
    8192 <> block_of (ArcFree 4112 7) /\
    heap s' !! 8192 = heap s !! 8192.
Proof.
  intros s. eexists.
  assert (Hb : 8192 <> block_of (ArcFree 4112 7)) by discriminate.
  split; [vm_compute; reflexivity |]. split; [reflexivity |].
  split; [exact Hb |].
  apply (exec_frame (ArcFree 4112 7) s NULL);
    [vm_compute; reflexivity | reflexivity | exact Hb].
Defined.

(** X5.  The [errno] contract of the code of the interface.  [weak_free]
    and [arc_downgrade] never write [errno], and neither does [arc_free] in
    a call that runs no destructor (the destructor is code of the caller
    and may set [errno]).  [arc_clone], [weak_clone] and [weak_upgrade]
    return either the handle they were given, with [errno] untouched, or
    [NULL] with [errno] set: to [ETOOMANYREFS] by the clones, to [ENOENT] or
    [ETOOMANYREFS] by the upgrade. *)
Theorem errno_contract o s r s' :
  exec o s = Ret r s' ->
  match o with
  | ArcNew _ _ => True
  | ArcFree _ _ =>
      destructor_calls (trace s') = destructor_calls (trace s) ->
      errno s' = errno s
  | WeakFree _ | ArcDowngrade _ _ => errno s' = errno s
  | ArcClone p | WeakClone p =>
      (r = p /\ errno s' = errno s) \/ (r = NULL /\ errno s' = ETOOMANYREFS)
  | WeakUpgrade p _ =>
      (r = p /\ errno s' = errno s) \/
      (r = NULL /\ (errno s' = ENOENT \/ errno s' = ETOOMANYREFS))
  end.
Proof.
  intros H. pose proof (exec_live _ _ _ _ H) as Hlive.
  destruct o as [n ans|p|p d|p sched|p|p|p sched]; cbn [exec] in *;
    [trivial | ..]; destruct Hlive as [h Hh].
  - rewrite (arc_clone_eq _ _ _ Hh) in H. cbv zeta in H.
    destruct (strong_count h >? _); inversion H; subst; cbn; auto.
  - intros _. apply bind_ret_inv in H as ([] & H & _).
    destruct (Z.eq_dec (strong_count h) 1) as [Hs|Hs].
    + rewrite (arc_free_last _ _ _ Hh d Hs) in H.
      pose proof (after_last_strong_header p s h d) as Hh2.
      assert (He : errno (after_last_strong p s h d) = errno s)
        by (unfold after_last_strong; now destruct (d =? NULL)).
      destruct (Z.eq_dec (weak_count h) 1) as [Hw|Hw].
      * rewrite (weak_free_last _ _ _ Hh2 Hw) in H. inversion H; subst s'.
        exact He.
      * rewrite (weak_free_not_last _ _ _ Hh2 Hw) in H. inversion H; subst s'.
        exact He.
    + rewrite (arc_free_not_last _ _ _ Hh d Hs) in H. now inversion H.
  - rewrite (arc_downgrade_eq _ _ _ _ Hh) in H.
    destruct (arc_downgrade_loop_spec (get_header p) p sched (weak_count h) s h
                Hh eq_refl)
      as [Hspin | (used & rest & fails & v & _ & _ & _ & _ & _ & Heq)];
      [rewrite Hspin in H; discriminate |].
    rewrite Heq in H. now inversion H.
  - apply bind_ret_inv in H as ([] & H & _).
    destruct (Z.eq_dec (weak_count h) 1) as [Hw|Hw].
    + rewrite (weak_free_last _ _ _ Hh Hw) in H. now inversion H.
    + rewrite (weak_free_not_last _ _ _ Hh Hw) in H. now inversion H.
  - rewrite (weak_clone_eq _ _ _ Hh) in H. cbv zeta in H.
    destruct (weak_count h >? _); inversion H; subst; cbn; auto.
  - rewrite (weak_upgrade_eq _ _ _ _ Hh) in H.
    now apply weak_upgrade_loop_result in H.
Qed.

Lemma errno_contract_witness :
  let s := mk_state {[ 4096 := mk_header 1 2 ]} 5 [] in
  exists s',
    exec (ArcFree 4112 7) s = Ret NULL s' /\
    destructor_calls (trace s') = destructor_calls (trace s) /\
    errno s' = errno s.
Proof.
  intros s. eexists. split; [vm_compute; reflexivity |].
  split; [reflexivity |].
  apply (errno_contract (ArcFree 4112 7) s NULL);
    [vm_compute; reflexivity | reflexivity].
Defined.

(** ** Handle discipline *)

Lemma failed_cas_destructor_calls evs :
  forallb is_failed_cas evs = true -> destructor_calls evs = 0%nat.
Proof.
  unfold destructor_calls. induction evs as [|e evs IH]; [reflexivity |].
  cbn. intros H. apply andb_true_iff in H as [He Hevs].
  destruct e; try discriminate. cbn. auto.
Qed.

Lemma destructor_calls_cas_run t fails hdr f v :
  forallb is_failed_cas fails = true ->
  destructor_calls (t ++ fails ++ [EvCas hdr f v v true]) = destructor_calls t.
Proof.
  intros Hf. rewrite !destructor_calls_app, (failed_cas_destructor_calls _ Hf).
  cbn. lia.
Qed.

Ltac handles_arith :=
  unfold weak_of, released in *; cbn [strong_handles weak_handles] in *;
  repeat match goal with
         | |- context [?a <=? ?b] => destruct (Z.leb_spec a b)
         | |- context [?a =? ?b] => destruct (Z.eqb_spec a b)
         | H : context [?a <=? ?b] |- _ => destruct (Z.leb_spec a b)
         | H : context [?a =? ?b] |- _ => destruct (Z.eqb_spec a b)
         end;
  cbn [andb negb] in *;
  try reflexivity; try discriminate; try lia;
  try (apply f_equal; apply f_equal2; lia).

Lemma represents_live p g s :
  represents p g s ->
  released g = false ->
  header_of p s = Some (mk_header (weak_of g) (strong_handles g)).
Proof. intros (_ & _ & _ & H) Hr. now rewrite Hr in H. Qed.

Lemma header_of_insert p m e t h :
  header_of p (mk_state (<[get_header p := h]> m) e t) = Some h.
Proof. unfold header_of. cbn [heap]. apply lookup_insert_eq. Qed.

Lemma header_of_delete p m e t :
  header_of p (mk_state (delete (get_header p) m) e t) = None.
Proof. unfold header_of. cbn [heap]. apply lookup_delete_eq. Qed.

(** One tracked operation does what [track] says. *)
Lemma track_exec p o g g1 r d s :
  represents p g s ->
  track p o g = Some (g1, r, d) ->
  exists s1,
    exec o s = Ret r s1 /\
    represents p g1 s1 /\
    destructor_calls (trace s1) =
      (destructor_calls (trace s) + (if d then 1 else 0))%nat /\
    frees (get_header p) (trace s1) =
      (frees (get_header p) (trace s) + (if released g1 then 1 else 0))%nat.
Proof.
  intros Hrep Htrack. pose proof Hrep as (Hns & Hnw & Hwmax & _).
  pose proof max_refs_number as Hmax. pose proof size_max_value as Hsm.
  destruct g as [ns nw]. cbn [strong_handles weak_handles] in *.
  destruct o as [n ans|q|q dd|q sched|q|q|q sched]; cbn [track exec] in *;
    cbn [strong_handles weak_handles] in *; [discriminate | ..].
  - (* arc_clone *)
    destruct ((q =? p) && (1 <=? ns) && (ns <? __ARC_WEAK_MAX_REFS)) eqn:G;
      [| discriminate].
    apply andb_true_iff in G as [G G3]. apply andb_true_iff in G as [G1 G2].
    apply Z.eqb_eq in G1. apply Z.leb_le in G2. apply Z.ltb_lt in G3. subst q.
    inversion Htrack; subst g1 r d; clear Htrack.
    assert (Hlive := represents_live _ _ _ Hrep ltac:(handles_arith)).
    cbn [strong_handles] in Hlive.
    rewrite (arc_clone_eq _ _ _ Hlive). cbv zeta. cbn [strong_count weak_count].
    replace (ns >? __ARC_WEAK_MAX_REFS - 1) with false
      by (symmetry; rewrite Z.gtb_ltb; apply Z.ltb_ge; lia).
    rewrite wrap_succ by (unfold in_size_t; lia).
    eexists. split; [reflexivity |]. destruct s as [m e t].
    unfold log, set_heap, set_errno; cbn [heap errno trace]. split; [| split].
    + unfold represents. cbn [strong_handles weak_handles].
      rewrite header_of_insert. repeat split; handles_arith.
    + lia.
    + handles_arith.
  - (* arc_free *)
    destruct ((q =? p) && (1 <=? ns)) eqn:G; [| discriminate].
    apply andb_true_iff in G as [G1 G2].
    apply Z.eqb_eq in G1. apply Z.leb_le in G2. subst q.
    inversion Htrack; subst g1 r d; clear Htrack.
    assert (Hlive := represents_live _ _ _ Hrep ltac:(handles_arith)).
    cbn [strong_handles] in Hlive.
    unfold bind.
    destruct (Z.eq_dec ns 1) as [H1|H1].
    + (* the last strong handle *)
      subst ns.
      assert (Hw : weak_of (mk_handles 1 nw) = nw + 1) by handles_arith.
      rewrite Hw in *.
      rewrite (arc_free_last _ _ _ Hlive dd eq_refl).
      pose proof (after_last_strong_header p s (mk_header (nw + 1) 1) dd) as Hh2.
      pose proof (after_last_strong_trace p s (mk_header (nw + 1) 1) dd) as Ht2.
      assert (Hheap2 : heap (after_last_strong p s (mk_header (nw + 1) 1) dd) =
                       <[get_header p := mk_header (nw + 1) 0]> (heap s))
        by (unfold after_last_strong; now destruct (dd =? NULL)).
      assert (He2 : errno (after_last_strong p s (mk_header (nw + 1) 1) dd) =
                    errno s)
        by (unfold after_last_strong; now destruct (dd =? NULL)).
      cbn [weak_count strong_count] in *.
      destruct (Z.eq_dec nw 0) as [Hz|Hz].
      * subst nw. rewrite (weak_free_last _ _ _ Hh2 eq_refl).
        eexists. split; [reflexivity |]. unfold log, set_heap, set_errno; cbn [heap errno trace].
        rewrite Hheap2, delete_insert_eq, Ht2. split; [| split].
        -- unfold represents. cbn [strong_handles weak_handles].
           rewrite header_of_delete. repeat split; handles_arith.
        -- rewrite !destructor_calls_app. cbn.
           destruct (dd =? NULL); cbn; lia.
        -- rewrite frees_snoc_free, Z.eqb_refl, frees_app.
           replace (frees (get_header p)
                      (if dd =? NULL then [] else [EvDestructor dd p]))
             with 0%nat by (now destruct (dd =? NULL)).
           handles_arith.
      * rewrite (weak_free_not_last _ _ _ Hh2) by (cbn; lia).
        cbn [weak_count strong_count].
        rewrite wrap_pred by (unfold in_size_t; handles_arith).
        eexists. split; [reflexivity |]. unfold log, set_heap, set_errno; cbn [heap errno trace].
        rewrite Hheap2, insert_insert_eq, Ht2. split; [| split].
        -- unfold represents. cbn [strong_handles weak_handles].
           rewrite header_of_insert.
           replace (nw + 1 - 1) with nw by lia.
           repeat split; handles_arith.
        -- rewrite destructor_calls_app. cbn. destruct (dd =? NULL); cbn; lia.
        -- rewrite frees_app.
           replace (frees (get_header p)
                      (if dd =? NULL then [] else [EvDestructor dd p]))
             with 0%nat by (now destruct (dd =? NULL)).
           handles_arith.
    + rewrite (arc_free_not_last _ _ _ Hlive dd) by (cbn; lia).
      cbn [weak_count strong_count].
      rewrite wrap_pred by (unfold in_size_t; lia).
      eexists. split; [reflexivity |]. destruct s as [m e t].
      unfold log, set_heap, set_errno; cbn [heap errno trace]. split; [| split].
      * unfold represents. cbn [strong_handles weak_handles].
        rewrite header_of_insert. repeat split; handles_arith.
      * handles_arith.
      * handles_arith.
  - (* arc_downgrade *)
    destruct ((q =? p) && (1 <=? ns) && calm sched &&
              (weak_of (mk_handles ns nw) <? SIZE_MAX)) eqn:G; [| discriminate].
    apply andb_true_iff in G as [G G4]. apply andb_true_iff in G as [G G3].
    apply andb_true_iff in G as [G1 G2].
    apply Z.eqb_eq in G1. apply Z.leb_le in G2. apply Z.ltb_lt in G4. subst q.
    inversion Htrack; subst g1 r d; clear Htrack.
    assert (Hlive := represents_live _ _ _ Hrep ltac:(handles_arith)).
    cbn [strong_handles] in Hlive.
    destruct (arc_downgrade_calm p sched s _ Hlive G3) as (fails & Hfails & Heq).
    cbn [weak_count strong_count] in Heq.
    rewrite wrap_succ in Heq by (unfold in_size_t; handles_arith).
    eexists. split; [exact Heq |]. cbn [heap errno trace]. split; [| split].
    + unfold represents. cbn [strong_handles weak_handles].
      rewrite header_of_insert. repeat split; handles_arith.
    + rewrite destructor_calls_cas_run by exact Hfails. lia.
    + rewrite frees_cas_run by (exact Hfails || reflexivity). handles_arith.
  - (* weak_free *)
    destruct ((q =? p) && (1 <=? nw)) eqn:G; [| discriminate].
    apply andb_true_iff in G as [G1 G2].
    apply Z.eqb_eq in G1. apply Z.leb_le in G2. subst q.
    inversion Htrack; subst g1 r d; clear Htrack.
    assert (Hlive := represents_live _ _ _ Hrep ltac:(handles_arith)).
    cbn [strong_handles] in Hlive.
    unfold bind.
    destruct (Z.eq_dec (weak_of (mk_handles ns nw)) 1) as [Hw|Hw].
    + rewrite (weak_free_last _ _ _ Hlive Hw).
      eexists. split; [reflexivity |]. destruct s as [m e t].
      unfold log, set_heap, set_errno; cbn [heap errno trace]. split; [| split].
      * unfold represents. cbn [strong_handles weak_handles].
        assert (Hrel : released (mk_handles ns (nw - 1)) = true)
          by handles_arith.
        rewrite Hrel, header_of_delete. repeat split; handles_arith.
      * rewrite destructor_calls_app. cbn. lia.
      * rewrite frees_snoc_free, Z.eqb_refl. handles_arith.
    + rewrite (weak_free_not_last _ _ _ Hlive Hw).
      cbn [weak_count strong_count].
      rewrite wrap_pred by (unfold in_size_t; handles_arith).
      eexists. split; [reflexivity |]. destruct s as [m e t].
      unfold log, set_heap, set_errno; cbn [heap errno trace]. split; [| split].
      * unfold represents. cbn [strong_handles weak_handles].
        rewrite header_of_insert.
        assert (Hrel : released (mk_handles ns (nw - 1)) = false)
          by handles_arith.
        rewrite Hrel.
        replace (weak_of (mk_handles ns nw) - 1)
          with (weak_of (mk_handles ns (nw - 1))) by handles_arith.
        repeat split; handles_arith.
      * lia.
      * handles_arith.
  - (* weak_clone *)
    destruct ((q =? p) && (1 <=? nw) &&
              (weak_of (mk_handles ns nw) <? __ARC_WEAK_MAX_REFS)) eqn:G;
      [| discriminate].
    apply andb_true_iff in G as [G G3]. apply andb_true_iff in G as [G1 G2].
    apply Z.eqb_eq in G1. apply Z.leb_le in G2. apply Z.ltb_lt in G3. subst q.
    inversion Htrack; subst g1 r d; clear Htrack.
    assert (Hlive := represents_live _ _ _ Hrep ltac:(handles_arith)).
    cbn [strong_handles] in Hlive.
    rewrite (weak_clone_eq _ _ _ Hlive). cbv zeta. cbn [strong_count weak_count].
    replace (weak_of (mk_handles ns nw) >? __ARC_WEAK_MAX_REFS - 1) with false
      by (symmetry; rewrite Z.gtb_ltb; apply Z.ltb_ge; lia).
    rewrite wrap_succ by (unfold in_size_t; handles_arith).
    eexists. split; [reflexivity |]. destruct s as [m e t].
    unfold log, set_heap, set_errno; cbn [heap errno trace]. split; [| split].
    + unfold represents. cbn [strong_handles weak_handles].
      rewrite header_of_insert.
      assert (Hrel : released (mk_handles ns (nw + 1)) = false)
        by handles_arith.
      rewrite Hrel.
      replace (weak_of (mk_handles ns nw) + 1)
        with (weak_of (mk_handles ns (nw + 1))) by handles_arith.
      repeat split; handles_arith.
    + lia.
    + handles_arith.
  - (* weak_upgrade *)
    destruct ((q =? p) && (1 <=? nw) && calm sched &&
              (ns <? __ARC_WEAK_MAX_REFS)) eqn:G; [| discriminate].
    apply andb_true_iff in G as [G G4]. apply andb_true_iff in G as [G G3].
    apply andb_true_iff in G as [G1 G2].
    apply Z.eqb_eq in G1. apply Z.leb_le in G2. apply Z.ltb_lt in G4. subst q.
    assert (Hlive := represents_live _ _ _ Hrep ltac:(handles_arith)).
    cbn [strong_handles] in Hlive.
    destruct (Z.leb_spec 1 ns) as [Hs|Hs];
      inversion Htrack; subst g1 r d; clear Htrack.
    + destruct (weak_upgrade_calm p sched s _ Hlive G3) as (fails & Hfails & Heq);
        [cbn; lia |].
      cbn [weak_count strong_count] in Heq.
      eexists. split; [exact Heq |]. cbn [heap errno trace]. split; [| split].
      * unfold represents. cbn [strong_handles weak_handles].
        rewrite header_of_insert.
        assert (Hrel : released (mk_handles (ns + 1) nw) = false)
          by handles_arith.
        rewrite Hrel.
        replace (weak_of (mk_handles ns nw))
          with (weak_of (mk_handles (ns + 1) nw)) by handles_arith.
        repeat split; handles_arith.
      * rewrite destructor_calls_cas_run by exact Hfails. lia.
      * rewrite frees_cas_run by (exact Hfails || reflexivity). handles_arith.
    + assert (ns = 0) by lia. subst ns.
      rewrite (weak_upgrade_eq _ _ _ _ Hlive). cbn [strong_count].
      rewrite weak_upgrade_loop_zero.
      eexists. split; [reflexivity |]. destruct s as [m e t].
      unfold log, set_heap, set_errno; cbn [heap errno trace]. split; [| split].
      * destruct Hrep as (? & ? & ? & Hh). unfold represents.
        split; [handles_arith |]. split; [handles_arith |].
        split; [assumption |]. exact Hh.
      * lia.
      * handles_arith.
Qed.

Lemma track_all_cons_inv p o ops g g' rs n :
  track_all p (o :: ops) g = Some (g', rs, n) ->
  exists g1 r d rs1 n1,
    track p o g = Some (g1, r, d) /\
    track_all p ops g1 = Some (g', rs1, n1) /\
    rs = r :: rs1 /\ n = ((if d then 1 else 0) + n1)%nat.
Proof.
  cbn [track_all].
  destruct (track p o g) as [[[g1 r] d]|] eqn:Ht; [| discriminate].
  destruct (track_all p ops g1) as [[[g2 rs1] n1]|] eqn:Hr; [| discriminate].
  intros H. inversion H; subst. exists g1, r, d, rs1, n1.
  repeat split; auto.
Qed.

(** Tracking needs a handle: nothing can be done once all are released. *)
Lemma track_not_released p o g x :
  track p o g = Some x -> released g = false.
Proof.
  destruct g as [ns nw]. intros H.
  destruct o; cbn [track strong_handles weak_handles] in H;
    try discriminate;
    match type of H with
    | (if ?c then _ else _) = _ => destruct c eqn:G; [| discriminate]
    end;
    repeat match goal with
           | G : _ && _ = true |- _ => apply andb_true_iff in G as [G ?]
           end;
    handles_arith.
Qed.

Lemma track_all_released p ops g x :
  released g = true -> track_all p ops g = Some x -> ops = [].
Proof.
  intros Hr H. destruct ops as [|o ops]; [reflexivity |].
  cbn [track_all] in H. destruct (track p o g) as [y|] eqn:Ht; [| discriminate].
  apply track_not_released in Ht. congruence.
Qed.

(** A tracked run does what [track_all] says. *)
Lemma track_all_run p ops : forall g s g' rs n,
  represents p g s ->
  track_all p ops g = Some (g', rs, n) ->
  exists s',
    run_results ops s = Ret rs s' /\
    represents p g' s' /\
    destructor_calls (trace s') = (destructor_calls (trace s) + n)%nat /\
    frees (get_header p) (trace s') =
      (frees (get_header p) (trace s) +
       (if released g' && negb (released g) then 1 else 0))%nat.
Proof.
  induction ops as [|o ops IH]; intros g s g' rs n Hrep Htrack.
  - inversion Htrack; subst. exists s. split; [reflexivity |].
    split; [exact Hrep |]. split; [lia |].
    destruct (released g'); cbn; lia.
  - apply track_all_cons_inv in Htrack
      as (g1 & r & d & rs1 & n1 & Ht & Hrest & -> & ->).
    pose proof (track_not_released _ _ _ _ Ht) as Hnr.
    destruct (track_exec _ _ _ _ _ _ _ Hrep Ht) as (s1 & Hex & Hrep1 & Hd1 & Hf1).
    destruct (IH _ _ _ _ _ Hrep1 Hrest) as (s' & Hrun & Hrep' & Hd' & Hf').
    exists s'. cbn [run_results]. unfold bind at 1. rewrite Hex.
    unfold bind at 1. rewrite Hrun. split; [reflexivity |].
    split; [exact Hrep' |]. split; [lia |].
    rewrite Hf', Hf1, Hnr. cbn [negb]. rewrite andb_true_r.
    destruct (released g1) eqn:Hr1.
    + pose proof (track_all_released _ _ _ _ Hr1 Hrest) as ->.
      inversion Hrest; subst. rewrite Hr1. cbn. lia.
    + cbn [negb]. rewrite andb_true_r. lia.
Qed.

Lemma run_results_run ops : forall s rs s',
  run_results ops s = Ret rs s' -> run ops s = Ret tt s'.
Proof.
  induction ops as [|o ops IH]; intros s rs s' H.
  - now inversion H.
  - cbn [run_results run] in *. unfold bind in *.
    destruct (exec o s) as [r s1| |]; try discriminate.
    destruct (run_results ops s1) as [rs1 s2| |] eqn:Hr; try discriminate.
    inversion H; subst. now apply (IH _ rs1).
Qed.

(** Once no strong handle is left, none comes back and no destructor
    runs. *)
Lemma track_no_strong p o g g1 r d :
  strong_handles g < 1 ->
  track p o g = Some (g1, r, d) ->
  strong_handles g1 < 1 /\ d = false.
Proof.
  destruct g as [ns nw]. cbn [strong_handles]. intros Hlt H.
  destruct o; cbn [track strong_handles weak_handles] in H;
    try discriminate;
    match type of H with
    | (if ?c then _ else _) = _ => destruct c eqn:G; [| discriminate]
    end;
    repeat match goal with
           | G : _ && _ = true |- _ => apply andb_true_iff in G as [G ?]
           end;
    try (match goal with
         | G : (1 <=? ns) = true |- _ => apply Z.leb_le in G; lia
         end);
    try (destruct (Z.leb_spec 1 ns); [lia |]);
    inversion H; subst; cbn [strong_handles]; split; (reflexivity || lia).
Qed.

Lemma track_all_no_strong p ops : forall g g' rs n,
  strong_handles g < 1 ->
  track_all p ops g = Some (g', rs, n) ->
  strong_handles g' < 1 /\ n = 0%nat.
Proof.
  induction ops as [|o ops IH]; intros g g' rs n H0 H.
  - inversion H; subst. auto.
  - apply track_all_cons_inv in H
      as (g1 & r & d & rs1 & n1 & Ht & Hrest & -> & ->).
    destruct (track_no_strong _ _ _ _ _ _ H0 Ht) as [H1 ->].
    destruct (IH _ _ _ _ H1 Hrest) as [H' ->]. auto.
Qed.





(** While strong handles remain, every pointer-returning call returns the
    handle. *)
Lemma track_result p o g g1 r d :
  1 <= strong_handles g ->
  track p o g = Some (g1, r, d) ->
  r = match o with
      | ArcClone _ | ArcDowngrade _ _ | WeakClone _ | WeakUpgrade _ _ => p
      | _ => NULL
      end.
Proof.
  destruct g as [ns nw]. cbn [strong_handles]. intros Hs H.
  destruct o; cbn [track strong_handles weak_handles] in H;
    try discriminate;
    match type of H with
    | (if ?c then _ else _) = _ => destruct c eqn:G; [| discriminate]
    end;
    try (destruct (Z.leb_spec 1 ns); [| lia]);
    now inversion H.
Qed.

Lemma track_all_results p ops : forall g g' rs n,
  track_all p ops g = Some (g', rs, n) ->
  1 <= strong_handles g' ->
  Forall2 (fun o r => r = if returns_handle o then p else NULL) ops rs.
Proof.
  induction ops as [|o ops IH]; intros g g' rs n H Hs'.
  - inversion H; subst. constructor.
  - apply track_all_cons_inv in H
      as (g1 & r & d & rs1 & n1 & Ht & Hrest & -> & ->).
    assert (Hs : 1 <= strong_handles g).
    { destruct (Z_lt_le_dec (strong_handles g) 1) as [Hlt|]; [| assumption].
      destruct (track_no_strong _ _ _ _ _ _ Hlt Ht) as [H1 _].
      destruct (track_all_no_strong _ _ _ _ _ _ H1 Hrest). lia. }
    constructor.
    + rewrite (track_result _ _ _ _ _ _ Hs Ht). now destruct o.
    + now apply (IH g1 g' rs1 n1).
Qed.




Ltac represents_here :=
  unfold represents;
  repeat split;
  first [reflexivity | vm_compute; first [reflexivity | discriminate]].




(** ** Threads that release what they acquired *)

Lemma balanced_nonneg p a b prog : balanced p a b prog -> 0 <= a /\ 0 <= b.
Proof. destruct prog; cbn [balanced]; tauto. Qed.

Lemma sum_strong_app l1 x l2 :
  sum_strong (l1 ++ x :: l2) = sum_strong l1 + fst x + sum_strong l2.
Proof.
  unfold sum_strong. induction l1 as [|y l1 IH]; cbn [app fold_right].
  - lia.
  - rewrite IH. lia.
Qed.

Lemma sum_weak_app l1 x l2 :
  sum_weak (l1 ++ x :: l2) = sum_weak l1 + snd x + sum_weak l2.
Proof.
  unfold sum_weak. induction l1 as [|y l1 IH]; cbn [app fold_right].
  - lia.
  - rewrite IH. lia.
Qed.

Lemma balanced_sums_nonneg p holds progs :
  Forall2 (fun h prog => balanced p (fst h) (snd h) prog) holds progs ->
  0 <= sum_strong holds /\ 0 <= sum_weak holds.
Proof.
  induction 1 as [|h prog holds progs Hb _ IH];
    cbn [sum_strong sum_weak fold_right].
  - lia.
  - apply balanced_nonneg in Hb. unfold sum_strong, sum_weak in IH. lia.
Qed.

Lemma balanced_done p holds progs :
  Forall2 (fun h prog => balanced p (fst h) (snd h) prog) holds progs ->
  Forall (fun prog => prog = []) progs ->
  sum_strong holds = 0 /\ sum_weak holds = 0.
Proof.
  induction 1 as [|h prog holds progs Hb _ IH]; intros Hnil;
    cbn [sum_strong sum_weak fold_right].
  - lia.
  - inversion Hnil as [|? ? Hp Hrest]; subst.
    cbn [balanced] in Hb. specialize (IH Hrest).
    unfold sum_strong, sum_weak in IH. lia.
Qed.

Ltac same_handles :=
  apply (f_equal Some);
  apply (f_equal2 pair); [| reflexivity];
  apply (f_equal2 pair); [| reflexivity];
  apply (f_equal2 mk_handles); lia.

(** One call of a balanced thread is a tracked operation that returns no
    [NULL] handle and runs no destructor, whatever the other threads
    hold. *)
Lemma track_balanced p o rest a b ns nw :
  balanced p a b (o :: rest) ->
  a + 1 <= ns -> b + 1 <= nw ->
  ns < __ARC_WEAK_MAX_REFS -> nw + 1 < __ARC_WEAK_MAX_REFS ->
  exists a' b' r,
    track p o (mk_handles ns nw) =
      Some (mk_handles (ns + (a' - a)) (nw + (b' - b)), r, false) /\
    balanced p a' b' rest /\ a' <= a + 1 /\ b' <= b + 1.
Proof.
  intros Hb Hs Hw Hns Hnw.
  pose proof max_refs_number as Hmax. pose proof size_max_value as Hsm.
  cbn [balanced] in Hb. destruct Hb as (Ha & Hb0 & Hb).
  destruct o as [n ans | q | q d | q sched | q | q | q sched];
    [contradiction | | | | | |].
  - destruct Hb as (-> & Hrest).
    exists (a + 1), b, p. unfold track. cbn [strong_handles weak_handles].
    rewrite Z.eqb_refl.
    destruct (Z.leb_spec 1 ns); [| lia].
    destruct (Z.ltb_spec ns __ARC_WEAK_MAX_REFS); [| lia].
    cbn [andb]. repeat split; try assumption; try lia.
    same_handles.
  - destruct Hb as (-> & Ha1 & Hrest).
    exists (a - 1), b, NULL. unfold track. cbn [strong_handles weak_handles].
    rewrite Z.eqb_refl.
    destruct (Z.leb_spec 1 ns); [| lia].
    destruct (Z.eqb_spec ns 1); [lia |].
    cbn [andb]. repeat split; try assumption; try lia.
    same_handles.
  - destruct Hb as (-> & Hcalm & Hrest).
    exists a, (b + 1), p. unfold track, weak_of.
    cbn [strong_handles weak_handles].
    rewrite Z.eqb_refl, Hcalm.
    destruct (Z.leb_spec 1 ns); [| lia].
    destruct (Z.ltb_spec (nw + 1) SIZE_MAX); [| lia].
    cbn [andb]. repeat split; try assumption; try lia.
    same_handles.
  - destruct Hb as (-> & Hb1 & Hrest).
    exists a, (b - 1), NULL. unfold track. cbn [strong_handles weak_handles].
    rewrite Z.eqb_refl.
    destruct (Z.leb_spec 1 nw); [| lia].
    cbn [andb]. repeat split; try assumption; try lia.
    same_handles.
  - destruct Hb as (-> & Hrest).
    exists a, (b + 1), p. unfold track, weak_of.
    cbn [strong_handles weak_handles].
    rewrite Z.eqb_refl.
    destruct (Z.leb_spec 1 nw); [| lia].
    destruct (Z.leb_spec 1 ns); [| lia].
    destruct (Z.ltb_spec (nw + 1) __ARC_WEAK_MAX_REFS); [| lia].
    cbn [andb]. repeat split; try assumption; try lia.
    same_handles.
  - destruct Hb as (-> & Hcalm & Hrest).
    exists (a + 1), b, p. unfold track. cbn [strong_handles weak_handles].
    rewrite Z.eqb_refl, Hcalm.
    destruct (Z.leb_spec 1 nw); [| lia].
    destruct (Z.leb_spec 1 ns); [| lia].
    destruct (Z.ltb_spec ns __ARC_WEAK_MAX_REFS); [| lia].
    cbn [andb]. repeat split; try assumption; try lia.
    same_handles.
Qed.

(** Every interleaving of balanced threads is a tracked run that ends with
    the handles it started with. *)
Lemma interleaving_tracks p S0 W0 progs merged :
  interleaves progs merged ->
  forall holds,
    Forall2 (fun h prog => balanced p (fst h) (snd h) prog) holds progs ->
    1 <= S0 -> 1 <= W0 ->
    S0 + sum_strong holds + Z.of_nat (length merged) <= __ARC_WEAK_MAX_REFS ->
    W0 + 1 + sum_weak holds + Z.of_nat (length merged)
      <= __ARC_WEAK_MAX_REFS ->
    exists rs,
      track_all p merged
        (mk_handles (S0 + sum_strong holds) (W0 + sum_weak holds)) =
      Some (mk_handles S0 W0, rs, 0%nat).
Proof.
  induction 1 as [progs Hnil | pre o rest post merged Hil IH];
    intros holds Hbal HS HW Hsb Hwb.
  - destruct (balanced_done _ _ _ Hbal Hnil) as [-> ->].
    exists []. cbn [track_all]. now rewrite !Z.add_0_r.
  - apply Forall2_app_inv_r in Hbal as (hpre & hrest & Hpre & Hrest & ->).
    apply Forall2_cons_inv_r in Hrest as ([a b] & hpost & Hb & Hpost & ->).
    cbn [fst snd] in Hb.
    destruct (balanced_sums_nonneg _ _ _ Hpre) as [Hp1 Hp2].
    destruct (balanced_sums_nonneg _ _ _ Hpost) as [Hq1 Hq2].
    rewrite sum_strong_app, sum_weak_app in *. cbn [fst snd] in *.
    cbn [length] in Hsb, Hwb.
    destruct (track_balanced p o rest a b
                (S0 + (sum_strong hpre + a + sum_strong hpost))
                (W0 + (sum_weak hpre + b + sum_weak hpost)) Hb)
      as (a' & b' & r & Ht & Hb' & Ha' & Hb'');
      try lia.
    destruct (IH (hpre ++ (a', b') :: hpost)) as (rs & Hrs);
      try assumption.
    + apply Forall2_app; [exact Hpre |]. constructor; assumption.
    + rewrite sum_strong_app. cbn [fst]. lia.
    + rewrite sum_weak_app. cbn [snd]. lia.
    + exists (r :: rs). cbn [track_all]. rewrite Ht.
      rewrite sum_strong_app, sum_weak_app in Hrs. cbn [fst snd] in Hrs.
      replace (S0 + (sum_strong hpre + a + sum_strong hpost) + (a' - a))
        with (S0 + (sum_strong hpre + a' + sum_strong hpost)) by lia.
      replace (W0 + (sum_weak hpre + b + sum_weak hpost) + (b' - b))
        with (W0 + (sum_weak hpre + b' + sum_weak hpost)) by lia.
      now rewrite Hrs.
Qed.

Lemma run_frame p ops : forall s s' b,
  Forall (fun o => block_of o = get_header p) ops ->
  run ops s = Ret tt s' ->
  b <> get_header p ->
  heap s' !! b = heap s !! b.
Proof.
  induction ops as [|o ops IH]; intros s s' b Hall Hrun Hb.
  - now inversion Hrun.
  - inversion Hall as [|? ? Ho Hrest]; subst.
    apply run_cons_inv in Hrun as (r & s1 & Hex & Hrun).
    rewrite (IH s1 s' b Hrest Hrun Hb).
    destruct (exec_touches _ _ _ _ Hex) as [-> | [[h' ->] | ->]].
    + reflexivity.
    + rewrite lookup_insert_ne; [reflexivity | congruence].
    + rewrite lookup_delete_ne; [reflexivity | congruence].
Qed.

Lemma track_block p o g x : track p o g = Some x -> block_of o = get_header p.
Proof.
  destruct o as [n ans | q | q d | q sched | q | q | q sched];
    cbn [track block_of]; [discriminate | ..];
    destruct (Z.eqb_spec q p) as [-> | Hq]; cbn [andb];
    (reflexivity || discriminate).
Qed.

Lemma track_all_blocks p ops : forall g x,
  track_all p ops g = Some x ->
  Forall (fun o => block_of o = get_header p) ops.
Proof.
  induction ops as [|o ops IH]; intros g x H; [constructor |].
  cbn [track_all] in H.
  destruct (track p o g) as [[[g1 r] d]|] eqn:Ht; [| discriminate].
  destruct (track_all p ops g1) as [y|] eqn:Hr; [| discriminate].
  constructor; [exact (track_block _ _ _ _ Ht) | exact (IH _ _ Hr)].
Qed.

(** A tracked run that ends with the handles it started with puts the heap
    back as it was. *)
Lemma track_all_restores p ops g s rs n :
  represents p g s ->
  released g = false ->
  track_all p ops g = Some (g, rs, n) ->
  exists s',
    run_results ops s = Ret rs s' /\
    run ops s = Ret tt s' /\
    represents p g s' /\
    heap s' = heap s /\
    destructor_calls (trace s') = (destructor_calls (trace s) + n)%nat /\
    frees (get_header p) (trace s') = frees (get_header p) (trace s).
Proof.
  intros Hrep Hlive Htrack.
  destruct (track_all_run p ops g s g rs n Hrep Htrack)
    as (s' & Hrun & Hrep' & Hd & Hf).
  pose proof (run_results_run ops s rs s' Hrun) as Hrun'.
  exists s'. split; [exact Hrun |]. split; [exact Hrun' |].
  split; [exact Hrep' |]. split; [| split; [exact Hd |]].
  - apply map_eq. intros b.
    destruct (Z.eq_dec b (get_header p)) as [-> | Hb].
    + pose proof (represents_live _ _ _ Hrep Hlive) as H1.
      pose proof (represents_live _ _ _ Hrep' Hlive) as H2.
      unfold header_of in H1, H2. congruence.
    + exact (run_frame p ops s s' b (track_all_blocks _ _ _ _ Htrack) Hrun' Hb).
  - rewrite Hf, Hlive. cbn. lia.
Qed.

Lemma sum_strong_zero {A} (l : list A) :
  sum_strong (map (fun _ => (0, 0)) l) = 0.
Proof. induction l as [|x l IH]; [reflexivity |]. exact IH. Qed.

Lemma sum_weak_zero {A} (l : list A) :
  sum_weak (map (fun _ => (0, 0)) l) = 0.
Proof. induction l as [|x l IH]; [reflexivity |]. exact IH. Qed.

Lemma interleaving_tracks_fresh p g progs merged :
  Forall (balanced p 0 0) progs ->
  interleaves progs merged ->
  1 <= strong_handles g -> 1 <= weak_handles g ->
  strong_handles g + Z.of_nat (length merged) <= __ARC_WEAK_MAX_REFS ->
  weak_handles g + 1 + Z.of_nat (length merged) <= __ARC_WEAK_MAX_REFS ->
  exists rs, track_all p merged g = Some (g, rs, 0%nat).
Proof.
  intros Hbal Hil HS HW Hsb Hwb. destruct g as [S0 W0].
  cbn [strong_handles weak_handles] in *.
  destruct (interleaving_tracks p S0 W0 progs merged Hil
              (map (fun _ => (0, 0)) progs)) as (rs & Hrs);
    try assumption.
  - clear -Hbal. induction Hbal; cbn [map]; constructor; assumption.
  - rewrite sum_strong_zero. lia.
  - rewrite sum_weak_zero. lia.
  - exists rs. rewrite sum_strong_zero, sum_weak_zero, !Z.add_0_r in Hrs.
    exact Hrs.
Qed.

(** X9.  Threads that release what they acquire.  Several threads share a
    strong and a weak handle of one allocation; each of them clones,
    downgrades and upgrades the shared handles and frees only the handles it
    obtained itself, all of them by its end.  Then, however their calls are
    interleaved, every call that returns a handle returns it and not [NULL],
    no destructor runs, nothing is given back to the allocator, and at the
    end the heap is what it was at the start: the counters are back at
    their values. *)
Theorem balanced_threads_restore_counts p g s progs merged :
  represents p g s ->
  1 <= strong_handles g ->
  1 <= weak_handles g ->
  Forall (balanced p 0 0) progs ->
  interleaves progs merged ->
  strong_handles g + Z.of_nat (length merged) <= __ARC_WEAK_MAX_REFS ->
  weak_handles g + 1 + Z.of_nat (length merged) <= __ARC_WEAK_MAX_REFS ->
  exists rs s',
    run_results merged s = Ret rs s' /\
    Forall2 (fun o r => r = if returns_handle o then p else NULL) merged rs /\
    heap s' = heap s /\
    destructor_calls (trace s') = destructor_calls (trace s) /\
    frees (get_header p) (trace s') = frees (get_header p) (trace s).
Proof.
  intros Hrep HS HW Hbal Hil Hsb Hwb.
  destruct (interleaving_tracks_fresh p g progs merged Hbal Hil HS HW Hsb Hwb)
    as (rs & Htrack).
  assert (Hlive : released g = false) by handles_arith.
  destruct (track_all_restores p merged g s rs 0 Hrep Hlive Htrack)
    as (s' & Hrun & _ & _ & Hheap & Hd & Hf).
  exists rs, s'. split; [exact Hrun |].
  split; [exact (track_all_results p merged g g rs 0 Htrack HS) |].
  split; [exact Hheap |]. split; [lia | exact Hf].
Qed.

Ltac il_first := apply (il_step [] _ _ [_]).
Ltac il_second := apply (il_step [_] _ _ []).

Lemma balanced_threads_restore_counts_witness :
  let p := 4112 in
  let g := mk_handles 1 1 in
  let s := mk_state {[ 4096 := mk_header 2 1 ]} 0 [] in
  let progs := [ [ArcClone p; ArcDowngrade p [quiet]; WeakFree p; ArcFree p 7];
                 [WeakUpgrade p [quiet]; ArcFree p NULL] ] in
  let merged := [ArcClone p; WeakUpgrade p [quiet]; ArcDowngrade p [quiet];
                 ArcFree p NULL; WeakFree p; ArcFree p 7] in
  represents p g s /\
  interleaves progs merged /\
  exists rs s',
    run_results merged s = Ret rs s' /\
    Forall2 (fun o r => r = if returns_handle o then p else NULL) merged rs /\
    heap s' = heap s /\
    destructor_calls (trace s') = destructor_calls (trace s) /\
    frees (get_header p) (trace s') = frees (get_header p) (trace s).
Proof.
  intros p g s progs merged.
  assert (Hrep : represents p g s) by represents_here.
  assert (Hil : interleaves progs merged).
  { il_first. il_second. il_first. il_second. il_first. il_first.
    apply il_done. repeat constructor. }
  split; [exact Hrep |]. split; [exact Hil |].
  apply (balanced_threads_restore_counts p g s progs merged Hrep).
  - cbn. lia.
  - cbn. lia.
  - repeat constructor; cbn; lia.
  - exact Hil.
  - vm_compute. discriminate.
  - vm_compute. discriminate.
Defined.

(** ** The thread functions of the stress test *)

Lemma bind_Ret {A B} (m : M A) (k : A -> M B) s a s1 :
  m s = Ret a s1 -> bind m k s = k a s1.
Proof. intros H. unfold bind. now rewrite H. Qed.

Lemma assert_passes (b : bool) (k : M bool) :
  b = true -> ALWAYS_ASSERT b k = k.
Proof. now intros ->. Qed.

Lemma deref_live payload p s :
  is_Some (header_of p s) -> deref payload p s = Ret (payload p) s.
Proof. intros [h Hh]. unfold deref. now rewrite Hh. Qed.

Lemma arc_operations_iteration_calls payload data sched p s rs s' :
  shared_arc data = p ->
  p <> NULL ->
  payload p = THE_UNIVERSE_AND_EVERYTHING ->
  run_results (arc_operations_calls p sched) s = Ret rs s' ->
  Forall2 (fun o r => r = if returns_handle o then p else NULL)
    (arc_operations_calls p sched) rs ->
  arc_operations_iteration payload data sched s = Ret true s'.
Proof.
  intros Hdata Hp Hval Hrun Hres.
  assert (Hnn : negb (p =? NULL) = true)
    by (apply negb_true_iff; now apply Z.eqb_neq).
  assert (Hv : (payload p =? THE_UNIVERSE_AND_EVERYTHING) = true)
    by (now apply Z.eqb_eq).
  unfold arc_operations_calls in *. cbn [run_results] in Hrun.
  unfold bind in Hrun.
  destruct (exec (ArcClone p) s) as [r1 s1| |] eqn:H1; try discriminate.
  destruct (exec (ArcFree p NULL) s1) as [r2 s2| |] eqn:H2; try discriminate.
  destruct (exec (ArcDowngrade p sched) s2) as [r3 s3| |] eqn:H3;
    try discriminate.
  destruct (exec (WeakUpgrade p sched) s3) as [r4 s4| |] eqn:H4;
    try discriminate.
  destruct (exec (ArcFree p NULL) s4) as [r5 s5| |] eqn:H5; try discriminate.
  destruct (exec (WeakFree p) s5) as [r6 s6| |] eqn:H6; try discriminate.
  unfold ret in Hrun. inversion Hrun; subst rs s'. clear Hrun.
  repeat match goal with
         | H : Forall2 _ _ _ |- _ => inversion H; clear H; subst
         end.
  pose proof (exec_live _ _ _ _ H2) as L1. cbn beta iota in L1.
  pose proof (exec_live _ _ _ _ H5) as L4. cbn beta iota in L4.
  cbn [returns_handle exec] in *.
  apply bind_ret_inv in H2 as ([] & H2 & _).
  apply bind_ret_inv in H5 as ([] & H5 & _).
  apply bind_ret_inv in H6 as ([] & H6 & _).
  unfold arc_operations_iteration.
  rewrite (bind_Ret _ _ _ _ _ H1). rewrite (assert_passes _ _ Hnn).
  rewrite (bind_Ret _ _ _ _ _ (deref_live payload _ s1 L1)).
  rewrite (assert_passes _ _ Hv).
  rewrite (bind_Ret _ _ _ _ _ H2).
  rewrite (bind_Ret _ _ _ _ _ H3). rewrite (assert_passes _ _ Hnn).
  rewrite (bind_Ret _ _ _ _ _ H4). rewrite (assert_passes _ _ Hnn).
  rewrite (bind_Ret _ _ _ _ _ (deref_live payload _ s4 L4)).
  rewrite (assert_passes _ _ Hv).
  rewrite (bind_Ret _ _ _ _ _ H5).
  rewrite (bind_Ret _ _ _ _ _ H6).
  reflexivity.
Qed.

Lemma weak_operations_iteration_calls payload data sched p s rs s' :
  shared_weak data = p ->
  p <> NULL ->
  payload p = THE_UNIVERSE_AND_EVERYTHING ->
  run_results (weak_operations_calls p sched) s = Ret rs s' ->
  Forall2 (fun o r => r = if returns_handle o then p else NULL)
    (weak_operations_calls p sched) rs ->
  weak_operations_iteration payload data sched s = Ret true s'.
Proof.
  intros Hdata Hp Hval Hrun Hres.
  assert (Hnn : negb (p =? NULL) = true)
    by (apply negb_true_iff; now apply Z.eqb_neq).
  assert (Hv : (payload p =? THE_UNIVERSE_AND_EVERYTHING) = true)
    by (now apply Z.eqb_eq).
  unfold weak_operations_calls in *. cbn [run_results] in Hrun.
  unfold bind in Hrun.
  destruct (exec (WeakClone p) s) as [r1 s1| |] eqn:H1; try discriminate.
  destruct (exec (WeakFree p) s1) as [r2 s2| |] eqn:H2; try discriminate.
  destruct (exec (WeakUpgrade p sched) s2) as [r3 s3| |] eqn:H3;
    try discriminate.
  destruct (exec (ArcFree p NULL) s3) as [r4 s4| |] eqn:H4; try discriminate.
  unfold ret in Hrun. inversion Hrun; subst rs s'. clear Hrun.
  repeat match goal with
         | H : Forall2 _ _ _ |- _ => inversion H; clear H; subst
         end.
  pose proof (exec_live _ _ _ _ H4) as L3. cbn beta iota in L3.
  cbn [returns_handle exec] in *.
  apply bind_ret_inv in H2 as ([] & H2 & _).
  apply bind_ret_inv in H4 as ([] & H4 & _).
  unfold weak_operations_iteration.
  rewrite (bind_Ret _ _ _ _ _ H1). rewrite (assert_passes _ _ Hnn).
  rewrite (bind_Ret _ _ _ _ _ H2).
  rewrite (bind_Ret _ _ _ _ _ H3). rewrite (assert_passes _ _ Hnn).
  rewrite (bind_Ret _ _ _ _ _ (deref_live payload _ s3 L3)).
  rewrite (assert_passes _ _ Hv).
  rewrite (bind_Ret _ _ _ _ _ H4).
  reflexivity.
Qed.

Ltac track_compare :=
  repeat (first
    [ rewrite Z.eqb_refl
    | match goal with
      | |- context [?a <=? ?b] => destruct (Z.leb_spec a b); [| lia]
      | |- context [?a <=? ?b] => destruct (Z.leb_spec a b); [lia |]
      | |- context [?a <? ?b] => destruct (Z.ltb_spec a b); [| lia]
      | |- context [?a <? ?b] => destruct (Z.ltb_spec a b); [lia |]
      | |- context [?a =? ?b] => destruct (Z.eqb_spec a b); [| lia]
      | |- context [?a =? ?b] => destruct (Z.eqb_spec a b); [lia |]
      end ];
    cbn [andb negb strong_handles weak_handles]).

Lemma arc_operations_calls_tracked p sched g :
  calm sched = true ->
  1 <= strong_handles g ->
  strong_handles g < __ARC_WEAK_MAX_REFS ->
  0 <= weak_handles g ->
  weak_of g < SIZE_MAX ->
  track_all p (arc_operations_calls p sched) g =
    Some (g, [p; NULL; p; p; NULL; NULL], 0%nat).
Proof.
  intros Hcalm HS Hmax HW Hw. destruct g as [ns nw].
  pose proof max_refs_number as Hm. pose proof size_max_value as Hsm.
  unfold weak_of in Hw. cbn [strong_handles weak_handles] in *.
  destruct (Z.leb_spec 1 ns) as [_|]; [| lia].
  unfold arc_operations_calls. cbn [track_all].
  unfold track, weak_of. cbn [strong_handles weak_handles].
  rewrite !Hcalm. track_compare. same_handles.
Qed.

Lemma weak_operations_calls_tracked p sched g :
  calm sched = true ->
  1 <= strong_handles g ->
  strong_handles g < __ARC_WEAK_MAX_REFS ->
  1 <= weak_handles g ->
  weak_of g < __ARC_WEAK_MAX_REFS ->
  track_all p (weak_operations_calls p sched) g =
    Some (g, [p; NULL; p; NULL], 0%nat).
Proof.
  intros Hcalm HS Hmax HW Hw. destruct g as [ns nw].
  pose proof max_refs_number as Hm. pose proof size_max_value as Hsm.
  unfold weak_of in Hw. cbn [strong_handles weak_handles] in *.
  destruct (Z.leb_spec 1 ns) as [_|]; [| lia].
  unfold weak_operations_calls. cbn [track_all].
  unfold track, weak_of. cbn [strong_handles weak_handles].
  rewrite !Hcalm. track_compare. same_handles.
Qed.

(** X10.  [arc_operations] run on its own, with no other thread at work.
    While it holds a strong handle whose payload is 42, the strong counter
    is below the limit of [arc_clone] and the weak counter is below
    [SIZE_MAX], the thread function passes every assertion of every
    iteration, its calls are those of [arc_operations_calls], and when it
    returns the heap is what it was: no destructor ran and nothing was
    freed. *)
Theorem arc_operations_passes payload data sched p g s n :
  represents p g s ->
  shared_arc data = p ->
  p <> NULL ->
  payload p = THE_UNIVERSE_AND_EVERYTHING ->
  calm sched = true ->
  1 <= strong_handles g ->
  strong_handles g < __ARC_WEAK_MAX_REFS ->
  weak_of g < SIZE_MAX ->
  exists s',
    arc_operations payload data sched n s = Ret true s' /\
    run (concat (repeat (arc_operations_calls p sched) n)) s = Ret tt s' /\
    heap s' = heap s /\
    destructor_calls (trace s') = destructor_calls (trace s) /\
    frees (get_header p) (trace s') = frees (get_header p) (trace s).
Proof.
  intros Hrep Hdata Hp Hval Hcalm HS Hmax Hw. revert s Hrep.
  assert (Hlive : released g = false) by handles_arith.
  induction n as [|n IH]; intros s Hrep.
  - exists s. repeat split; reflexivity.
  - pose proof Hrep as (_ & HW & _).
    pose proof (arc_operations_calls_tracked p sched g Hcalm HS Hmax HW Hw)
      as Htrack.
    destruct (track_all_restores p _ g s _ _ Hrep Hlive Htrack)
      as (s1 & Hres & Hrun & Hrep1 & Hheap & Hd & Hf).
    destruct (IH s1 Hrep1) as (s' & Hfun & Hrun' & Hheap' & Hd' & Hf').
    exists s'. split; [| split; [| split; [congruence | split; lia]]].
    + cbn [arc_operations].
      rewrite (bind_Ret _ _ _ _ _
                 (arc_operations_iteration_calls payload data sched p s _ s1
                    Hdata Hp Hval Hres
                    (track_all_results p _ g g _ _ Htrack HS))).
      exact Hfun.
    + cbn [repeat concat]. rewrite run_app, Hrun. exact Hrun'.
Qed.

(** X11.  [weak_operations] run on its own, with no other thread at work.
    While a strong handle keeps the payload alive, the shared weak handle is
    in use and both counters are below the limit of the clones, the thread
    function passes every assertion of every iteration, its calls are those
    of [weak_operations_calls], and when it returns the heap is what it was:
    no destructor ran and nothing was freed. *)
Theorem weak_operations_passes payload data sched p g s n :
  represents p g s ->
  shared_weak data = p ->
  p <> NULL ->
  payload p = THE_UNIVERSE_AND_EVERYTHING ->
  calm sched = true ->
  1 <= strong_handles g ->
  strong_handles g < __ARC_WEAK_MAX_REFS ->
  1 <= weak_handles g ->
  weak_of g < __ARC_WEAK_MAX_REFS ->
  exists s',
    weak_operations payload data sched n s = Ret true s' /\
    run (concat (repeat (weak_operations_calls p sched) n)) s = Ret tt s' /\
    heap s' = heap s /\
    destructor_calls (trace s') = destructor_calls (trace s) /\
    frees (get_header p) (trace s') = frees (get_header p) (trace s).
Proof.
  intros Hrep Hdata Hp Hval Hcalm HS Hmax HW Hw. revert s Hrep.
  assert (Hlive : released g = false) by handles_arith.
  induction n as [|n IH]; intros s Hrep.
  - exists s. repeat split; reflexivity.
  - pose proof (weak_operations_calls_tracked p sched g Hcalm HS Hmax HW Hw)
      as Htrack.
    destruct (track_all_restores p _ g s _ _ Hrep Hlive Htrack)
      as (s1 & Hres & Hrun & Hrep1 & Hheap & Hd & Hf).
    destruct (IH s1 Hrep1) as (s' & Hfun & Hrun' & Hheap' & Hd' & Hf').
    exists s'. split; [| split; [| split; [congruence | split; lia]]].
    + cbn [weak_operations].
      rewrite (bind_Ret _ _ _ _ _
                 (weak_operations_iteration_calls payload data sched p s _ s1
                    Hdata Hp Hval Hres
                    (track_all_results p _ g g _ _ Htrack HS))).
      exact Hfun.
    + cbn [repeat concat]. rewrite run_app, Hrun. exact Hrun'.
Qed.

Lemma arc_operations_passes_witness :
  let payload := fun _ : Z => 42 in
  let data := mk_test_data 4112 4112 in
  let s := created 4096 in
  represents 4112 (mk_handles 1 0) s /\
  exists s',
    arc_operations payload data [quiet] 3 s = Ret true s' /\
    run (concat (repeat (arc_operations_calls 4112 [quiet]) 3)) s = Ret tt s' /\
    heap s' = heap s /\
    destructor_calls (trace s') = destructor_calls (trace s) /\
    frees (get_header 4112) (trace s') = frees (get_header 4112) (trace s).
Proof.
  intros payload data s.
  assert (Hrep : represents 4112 (mk_handles 1 0) s) by represents_here.
  split; [exact Hrep |].
  apply (arc_operations_passes payload data [quiet] 4112 (mk_handles 1 0) s 3
           Hrep);
    first [reflexivity | discriminate | vm_compute; reflexivity].
Defined.

Lemma weak_operations_passes_witness :
  let payload := fun _ : Z => 42 in
  let data := mk_test_data 4112 4112 in
  let s := mk_state {[ 4096 := mk_header 2 1 ]} 0 [] in
  represents 4112 (mk_handles 1 1) s /\
  exists s',
    weak_operations payload data [quiet] 3 s = Ret true s' /\
    run (concat (repeat (weak_operations_calls 4112 [quiet]) 3)) s = Ret tt s' /\
    heap s' = heap s /\
    destructor_calls (trace s') = destructor_calls (trace s) /\
    frees (get_header 4112) (trace s') = frees (get_header 4112) (trace s).
Proof.
  intros payload data s.
  assert (Hrep : represents 4112 (mk_handles 1 1) s) by represents_here.
  split; [exact Hrep |].
  apply (weak_operations_passes payload data [quiet] 4112 (mk_handles 1 1) s 3
           Hrep);
    first [reflexivity | discriminate | vm_compute; reflexivity].
Defined.

(** ** The stress test as a whole *)

Lemma validate_reference_counts_live hdr s w st :
  heap s !! hdr = Some (mk_header w st) ->
  validate_reference_counts hdr st w s = Ret true s.
Proof.
  intros H. unfold validate_reference_counts.
  rewrite (bind_Ret _ _ _ _ _ (load_live hdr s _ H strong_count_f)).
  rewrite (bind_Ret _ _ _ _ _ (load_live hdr s _ H weak_count_f)).
  cbn [get_field strong_count weak_count]. now rewrite !Z.eqb_refl.
Qed.

Lemma test_thread_balanced p sched prog :
  calm sched = true -> test_thread p sched prog -> balanced p 0 0 prog.
Proof.
  intros Hcalm [n [-> | ->]]; induction n as [|n IH];
    try (cbn; lia);
    cbn [repeat concat];
    unfold arc_operations_calls, weak_operations_calls;
    cbn [app balanced]; rewrite ?Hcalm;
    repeat (split; [first [reflexivity | lia] |]);
    exact IH.
Qed.

Ltac other_block Hex Hb :=
  destruct (exec_touches _ _ _ _ Hex) as [-> | [[? ->] | ->]];
  [ reflexivity
  | rewrite lookup_insert_ne; [reflexivity | cbn [block_of]; congruence]
  | rewrite lookup_delete_ne; [reflexivity | cbn [block_of]; congruence] ].

(** X12.  The stress test ([test_arc], l. 71-102), under every
    interleaving of the calls of its threads.  [arc_new] and
    [arc_downgrade] set the counters to 1 strong and 2 weak; the threads,
    each running iterations of [arc_operations] or of [weak_operations],
    get a handle and never [NULL] from every call that returns one, and
    leave the counters at 1 and 2; the final [weak_free] leaves 1 and 1,
    and the final [arc_free] gives the block back to the allocator, once,
    with no destructor call: the heap is then what it was before the
    test. *)
Theorem stress_test_lifecycle ans sched progs merged s :
  let p := m_ret ans + __ARC_HEADER_SIZE_WITH_PAD in
  0 < m_ret ans ->
  heap s !! m_ret ans = None ->
  calm sched = true ->
  Forall (test_thread p sched) progs ->
  interleaves progs merged ->
  2 + Z.of_nat (length merged) <= __ARC_WEAK_MAX_REFS ->
  exists s1 s2 s3 s4 rs,
    run [ArcNew sizeof_int ans; ArcDowngrade p sched] s = Ret tt s1 /\
    validate_reference_counts (get_header p) 1 2 s1 = Ret true s1 /\
    run_results merged s1 = Ret rs s2 /\
    Forall2 (fun o r => r = if returns_handle o then p else NULL) merged rs /\
    p <> NULL /\
    validate_reference_counts (get_header p) 1 2 s2 = Ret true s2 /\
    run [WeakFree p] s2 = Ret tt s3 /\
    validate_reference_counts (get_header p) 1 1 s3 = Ret true s3 /\
    run [ArcFree p NULL] s3 = Ret tt s4 /\
    heap s4 = heap s /\
    frees (get_header p) (trace s4) = S (frees (get_header p) (trace s)) /\
    destructor_calls (trace s4) = destructor_calls (trace s).
Proof.
  intros p Hpos Hfresh Hcalm Hthreads Hil Hlen.
  pose proof max_refs_number as Hm. pose proof size_max_value as Hsm.
  assert (Hnn : m_ret ans <> NULL) by (unfold NULL; lia).
  destruct (arc_new_in_range sizeof_int ans s ltac:(in_range) Hnn)
    as (Hnew & Hhdr & Hh0).
  fold p in Hnew, Hhdr, Hh0.
  set (s0 := mk_state (<[m_ret ans := mk_header 1 1]> (heap s)) (errno s)
               (trace s ++ [EvMalloc (__ARC_HEADER_SIZE_WITH_PAD + sizeof_int)
                              (m_ret ans)])) in *.
  assert (Hrep0 : represents p (mk_handles 1 0) s0).
  { unfold represents, weak_of, released. cbn [strong_handles weak_handles].
    split; [lia |]. split; [lia |]. split; [cbn; lia | exact Hh0]. }
  assert (Ht1 : track p (ArcDowngrade p sched) (mk_handles 1 0) =
                Some (mk_handles 1 1, p, false)).
  { unfold track, weak_of. cbn [strong_handles weak_handles].
    rewrite Z.eqb_refl, Hcalm. rewrite Hsm. reflexivity. }
  destruct (track_exec _ _ _ _ _ _ _ Hrep0 Ht1)
    as (s1 & Hex1 & Hrep1 & Hd1 & Hf1).
  assert (Hbal : Forall (balanced p 0 0) progs).
  { eapply Forall_impl; [exact Hthreads |].
    intros prog. now apply test_thread_balanced. }
  destruct (interleaving_tracks_fresh p (mk_handles 1 1) progs merged Hbal Hil)
    as (rs & Htrack); cbn [strong_handles weak_handles]; try lia.
  destruct (track_all_restores p merged _ s1 rs 0 Hrep1 eq_refl Htrack)
    as (s2 & Hrun2 & _ & Hrep2 & Hheap2 & Hd2 & Hf2).
  assert (Ht3 : track p (WeakFree p) (mk_handles 1 1) =
                Some (mk_handles 1 0, NULL, false)).
  { unfold track. cbn [strong_handles weak_handles]. now rewrite Z.eqb_refl. }
  destruct (track_exec _ _ _ _ _ _ _ Hrep2 Ht3)
    as (s3 & Hex3 & Hrep3 & Hd3 & Hf3).
  assert (Ht4 : track p (ArcFree p NULL) (mk_handles 1 0) =
                Some (mk_handles 0 0, NULL, false)).
  { unfold track. cbn [strong_handles weak_handles]. now rewrite Z.eqb_refl. }
  destruct (track_exec _ _ _ _ _ _ _ Hrep3 Ht4)
    as (s4 & Hex4 & Hrep4 & Hd4 & Hf4).
  pose proof (represents_live _ _ _ Hrep1 eq_refl) as Hl1.
  pose proof (represents_live _ _ _ Hrep2 eq_refl) as Hl2.
  pose proof (represents_live _ _ _ Hrep3 eq_refl) as Hl3.
  destruct Hrep4 as (_ & _ & _ & Hl4).
  unfold header_of in Hl1, Hl2, Hl3, Hl4.
  exists s1, s2, s3, s4, rs.
  split.
  { cbn [run].
    rewrite (bind_Ret (exec (ArcNew sizeof_int ans)) _ _ _ _ Hnew).
    now rewrite (bind_Ret _ _ _ _ _ Hex1). }
  split; [exact (validate_reference_counts_live _ _ _ _ Hl1) |].
  split; [exact Hrun2 |].
  split; [exact (track_all_results p merged _ _ rs 0 Htrack ltac:(cbn; lia)) |].
  split; [unfold p, NULL; rewrite header_pad_value; lia |].
  split; [exact (validate_reference_counts_live _ _ _ _ Hl2) |].
  split; [cbn [run]; now rewrite (bind_Ret _ _ _ _ _ Hex3) |].
  split; [exact (validate_reference_counts_live _ _ _ _ Hl3) |].
  split; [cbn [run]; now rewrite (bind_Ret _ _ _ _ _ Hex4) |].
  split; [| split].
  - apply map_eq. intros b.
    destruct (Z.eq_dec b (get_header p)) as [-> | Hb].
    + rewrite Hl4. cbn. rewrite Hhdr. now rewrite Hfresh.
    + transitivity (heap s3 !! b); [other_block Hex4 Hb |].
      transitivity (heap s2 !! b); [other_block Hex3 Hb |].
      rewrite Hheap2.
      transitivity (heap s0 !! b); [other_block Hex1 Hb |].
      unfold s0. cbn [heap]. rewrite lookup_insert_ne; [reflexivity |].
      congruence.
  - rewrite Hf4, Hf3, Hf2, Hf1.
    unfold s0. cbn [trace]. rewrite frees_app. cbn. lia.
  - rewrite Hd4, Hd3, Hd2, Hd1.
    unfold s0. cbn [trace]. rewrite destructor_calls_app. cbn. lia.
Qed.

Lemma stress_test_lifecycle_witness :
  let ans := mk_answer 4096 (mk_header 0 0) in
  let s := mk_state ∅ 0 [] in
  let p := 4112 in
  let progs := [arc_operations_calls p [quiet];
                weak_operations_calls p [quiet]] in
  let merged := [ArcClone p; WeakClone p; ArcFree p NULL; WeakFree p;
                 ArcDowngrade p [quiet]; WeakUpgrade p [quiet];
                 WeakUpgrade p [quiet]; ArcFree p NULL;
                 ArcFree p NULL; WeakFree p] in
  Forall (test_thread p [quiet]) progs /\
  interleaves progs merged /\
  exists s1 s2 s3 s4 rs,
    run [ArcNew sizeof_int ans; ArcDowngrade p [quiet]] s = Ret tt s1 /\
    validate_reference_counts (get_header p) 1 2 s1 = Ret true s1 /\
    run_results merged s1 = Ret rs s2 /\
    Forall2 (fun o r => r = if returns_handle o then p else NULL) merged rs /\
    p <> NULL /\
    validate_reference_counts (get_header p) 1 2 s2 = Ret true s2 /\
    run [WeakFree p] s2 = Ret tt s3 /\
    validate_reference_counts (get_header p) 1 1 s3 = Ret true s3 /\
    run [ArcFree p NULL] s3 = Ret tt s4 /\
    heap s4 = heap s /\
    frees (get_header p) (trace s4) = S (frees (get_header p) (trace s)) /\
    destructor_calls (trace s4) = destructor_calls (trace s).
Proof.
  intros ans s p progs merged.
  assert (Hth : Forall (test_thread p [quiet]) progs).
  { repeat constructor; exists 1%nat; [left | right]; reflexivity. }
  assert (Hil : interleaves progs merged).
  { il_first. il_second. il_first. il_second. il_first. il_second.
    il_first. il_second. il_first. il_first.
    apply il_done. repeat constructor. }
  split; [exact Hth |]. split; [exact Hil |].
  apply (stress_test_lifecycle ans [quiet] progs merged s).
  - reflexivity.
  - reflexivity.
  - reflexivity.
  - exact Hth.
  - exact Hil.
  - vm_compute. discriminate.
Defined.

(** ** A failed clone is not undone *)

Lemma arc_frees_not_last p ds : forall s w c,
  header_of p s = Some (mk_header w c) ->
  Z.of_nat (length ds) < c <= SIZE_MAX ->
  exists s2,
    run (map (ArcFree p) ds) s = Ret tt s2 /\
    header_of p s2 = Some (mk_header w (c - Z.of_nat (length ds))) /\
    errno s2 = errno s /\
    trace s2 = trace s.
Proof.
  induction ds as [|d ds IH]; intros s w c Hh Hc.
  - exists s. cbn [map run length]. rewrite Z.sub_0_r. auto.
  - cbn [length] in Hc.
    assert (Hex : exec (ArcFree p d) s =
                  Ret NULL (set_heap (<[get_header p := mk_header w (c - 1)]>
                                        (heap s)) s)).
    { cbn [exec]. unfold bind.
      rewrite (arc_free_not_last _ _ _ Hh) by (cbn; lia).
      cbn [weak_count strong_count].
      rewrite wrap_pred by (unfold in_size_t; lia). reflexivity. }
    destruct (IH _ w (c - 1) (header_of_insert p (heap s) (errno s) (trace s) _))
      as (s2 & Hrun & Hh2 & He & Ht); [lia |].
    exists s2. cbn [map run]. rewrite (bind_Ret _ _ _ _ _ Hex).
    split; [exact Hrun |]. split; [| split; [exact He | exact Ht]].
    rewrite Hh2. do 2 f_equal. cbn [length]. lia.
Qed.

Lemma weak_frees_not_last p (k : nat) : forall s w c,
  header_of p s = Some (mk_header w c) ->
  Z.of_nat k < w <= SIZE_MAX ->
  exists s2,
    run (repeat (WeakFree p) k) s = Ret tt s2 /\
    header_of p s2 = Some (mk_header (w - Z.of_nat k) c) /\
    errno s2 = errno s /\
    trace s2 = trace s.
Proof.
  induction k as [|k IH]; intros s w c Hh Hw.
  - exists s. cbn [repeat run]. rewrite Z.sub_0_r. auto.
  - assert (Hex : exec (WeakFree p) s =
                  Ret NULL (set_heap (<[get_header p := mk_header (w - 1) c]>
                                        (heap s)) s)).
    { cbn [exec]. unfold bind.
      rewrite (weak_free_not_last _ _ _ Hh) by (cbn; lia).
      cbn [weak_count strong_count].
      rewrite wrap_pred by (unfold in_size_t; lia). reflexivity. }
    destruct (IH _ (w - 1) c (header_of_insert p (heap s) (errno s) (trace s) _))
      as (s2 & Hrun & Hh2 & He & Ht); [lia |].
    exists s2. cbn [repeat run]. rewrite (bind_Ret _ _ _ _ _ Hex).
    split; [exact Hrun |]. split; [| split; [exact He | exact Ht]].
    rewrite Hh2. do 2 f_equal. lia.
Qed.

(** X13.  A failed [arc_clone] is not undone.  When [strong_count] is at
    the limit or above, [arc_clone] returns [NULL] with [ETOOMANYREFS] and
    leaves the counter one higher; no call of [arc_free] takes that
    increment back.  So after as many [arc_free] as the counter counted
    handles before the failed call, the counter is still 1: no destructor
    has run and nothing has been freed. *)
Theorem failed_arc_clone_leaks p s h ds :
  header_of p s = Some h ->
  __ARC_WEAK_MAX_REFS <= strong_count h < SIZE_MAX ->
  Z.of_nat (length ds) <= strong_count h ->
  exists s1 s2,
    arc_clone p s = Ret NULL s1 /\
    errno s1 = ETOOMANYREFS /\
    run (map (ArcFree p) ds) s1 = Ret tt s2 /\
    header_of p s2 =
      Some (mk_header (weak_count h)
              (strong_count h + 1 - Z.of_nat (length ds))) /\
    1 <= strong_count h + 1 - Z.of_nat (length ds) /\
    trace s2 = trace s.
Proof.
  intros Hh Hc Hds.
  pose proof max_refs_number as Hm. pose proof size_max_value as Hsm.
  pose proof (arc_clone_eq _ _ _ Hh) as Hclone. cbv zeta in Hclone.
  replace (strong_count h >? __ARC_WEAK_MAX_REFS - 1) with true in Hclone
    by (symmetry; rewrite Z.gtb_ltb; apply Z.ltb_lt; lia).
  rewrite wrap_succ in Hclone by (unfold in_size_t; lia).
  destruct (arc_frees_not_last p ds _ (weak_count h) (strong_count h + 1)
              (header_of_insert p (heap s) ETOOMANYREFS (trace s) _))
    as (s2 & Hrun & Hh2 & _ & Ht); [lia |].
  eexists _, s2. split; [exact Hclone |]. split; [reflexivity |].
  split; [exact Hrun |]. split; [exact Hh2 |]. split; [lia | exact Ht].
Qed.

(** X14.  A failed [weak_clone] is not undone either.  When [weak_count]
    is at the limit or above, [weak_clone] returns [NULL] with
    [ETOOMANYREFS] and leaves the counter one higher; after as many
    [weak_free] as the counter counted references before the failed call,
    the counter is still 1 and the block has not been freed. *)
Theorem failed_weak_clone_leaks p s h (k : nat) :
  header_of p s = Some h ->
  __ARC_WEAK_MAX_REFS <= weak_count h < SIZE_MAX ->
  Z.of_nat k <= weak_count h ->
  exists s1 s2,
    weak_clone p s = Ret NULL s1 /\
    errno s1 = ETOOMANYREFS /\
    run (repeat (WeakFree p) k) s1 = Ret tt s2 /\
    header_of p s2 =
      Some (mk_header (weak_count h + 1 - Z.of_nat k) (strong_count h)) /\
    1 <= weak_count h + 1 - Z.of_nat k /\
    trace s2 = trace s.
Proof.
  intros Hh Hc Hk.
  pose proof max_refs_number as Hm. pose proof size_max_value as Hsm.
  pose proof (weak_clone_eq _ _ _ Hh) as Hclone. cbv zeta in Hclone.
  replace (weak_count h >? __ARC_WEAK_MAX_REFS - 1) with true in Hclone
    by (symmetry; rewrite Z.gtb_ltb; apply Z.ltb_lt; lia).
  rewrite wrap_succ in Hclone by (unfold in_size_t; lia).
  destruct (weak_frees_not_last p k _ (weak_count h + 1) (strong_count h)
              (header_of_insert p (heap s) ETOOMANYREFS (trace s) _))
    as (s2 & Hrun & Hh2 & _ & Ht); [lia |].
  eexists _, s2. split; [exact Hclone |]. split; [reflexivity |].
  split; [exact Hrun |]. split; [exact Hh2 |]. split; [lia | exact Ht].
Qed.

Lemma failed_arc_clone_leaks_witness :
  let s := mk_state {[ 4096 := mk_header 1 __ARC_WEAK_MAX_REFS ]} 0 [] in
  let h := mk_header 1 __ARC_WEAK_MAX_REFS in
  let ds := [7; NULL; 7] in
  header_of 4112 s = Some h /\
  __ARC_WEAK_MAX_REFS <= strong_count h < SIZE_MAX /\
  exists s1 s2,
    arc_clone 4112 s = Ret NULL s1 /\
    errno s1 = ETOOMANYREFS /\
    run (map (ArcFree 4112) ds) s1 = Ret tt s2 /\
    header_of 4112 s2 =
      Some (mk_header (weak_count h)
              (strong_count h + 1 - Z.of_nat (length ds))) /\
    1 <= strong_count h + 1 - Z.of_nat (length ds) /\
    trace s2 = trace s.
Proof.
  intros s h ds.
  assert (Hh : header_of 4112 s = Some h) by reflexivity.
  assert (Hc : __ARC_WEAK_MAX_REFS <= strong_count h < SIZE_MAX)
    by (split; vm_compute; first [reflexivity | discriminate]).
  split; [exact Hh |]. split; [exact Hc |].
  apply (failed_arc_clone_leaks 4112 s h ds Hh Hc).
  vm_compute. discriminate.
Defined.

Lemma failed_weak_clone_leaks_witness :
  let s := mk_state {[ 4096 := mk_header __ARC_WEAK_MAX_REFS 0 ]} 0 [] in
  let h := mk_header __ARC_WEAK_MAX_REFS 0 in
  header_of 4112 s = Some h /\
  __ARC_WEAK_MAX_REFS <= weak_count h < SIZE_MAX /\
  exists s1 s2,
    weak_clone 4112 s = Ret NULL s1 /\
    errno s1 = ETOOMANYREFS /\
    run (repeat (WeakFree 4112) 3) s1 = Ret tt s2 /\
    header_of 4112 s2 =
      Some (mk_header (weak_count h + 1 - Z.of_nat 3) (strong_count h)) /\
    1 <= weak_count h + 1 - Z.of_nat 3 /\
    trace s2 = trace s.
Proof.
  intros s h.
  assert (Hh : header_of 4112 s = Some h) by reflexivity.
  assert (Hc : __ARC_WEAK_MAX_REFS <= weak_count h < SIZE_MAX)
    by (split; vm_compute; first [reflexivity | discriminate]).
  split; [exact Hh |]. split; [exact Hc |].
  apply (failed_weak_clone_leaks 4112 s h 3 Hh Hc).
  vm_compute. discriminate.
Defined.
